(** * Chainstore: a shallow embedding of [index.js] and its properties

    The development follows the source file top to bottom:
    JavaScript values and exceptions, the collaborators the module
    requires ([@web4/crypto], [@web4/encoding], [derive-key], [unichain],
    [refpool]), then the two classes [InnerChainstore] and [Chainstore],
    and finally the properties of the specification, one theorem each. *)

From Stdlib Require Import List String Ascii ZArith Bool Arith Lia.
From Stdlib.Strings Require Import Byte.
Import ListNotations.
Open Scope string_scope.

Set Implicit Arguments.

(** ** JavaScript values *)

(** A Node [Buffer] is a sequence of bytes. *)
Definition Buffer := list byte.

Definition hex_digit (n : nat) : ascii :=
  match n with
  | 0 => "0" | 1 => "1" | 2 => "2" | 3 => "3" | 4 => "4" | 5 => "5"
  | 6 => "6" | 7 => "7" | 8 => "8" | 9 => "9" | 10 => "a" | 11 => "b"
  | 12 => "c" | 13 => "d" | 14 => "e" | _ => "f"
  end%nat%char.

(** [buf.toString('hex')]: two lowercase digits per byte. *)
Fixpoint toString_hex (b : Buffer) : string :=
  match b with
  | [] => EmptyString
  | x :: b' =>
      let n := Byte.to_nat x in
      String (hex_digit (n / 16)%nat)
        (String (hex_digit (n mod 16)%nat) (toString_hex b'))
  end.

Definition hex_value (c : ascii) : option nat :=
  let n := nat_of_ascii c in
  if ((48 <=? n) && (n <=? 57))%nat then Some (n - 48)%nat
  else if ((97 <=? n) && (n <=? 102))%nat then Some (n - 87)%nat
  else if ((65 <=? n) && (n <=? 70))%nat then Some (n - 55)%nat
  else None.

Definition byte_of_nat (n : nat) : byte :=
  match Byte.of_nat n with Some b => b | None => x00 end.

(** [Buffer.from(s, 'hex')]: decodes pairs of digits and stops at the
    first pair that is not hexadecimal. *)
Fixpoint Buffer_from_hex (s : string) : Buffer :=
  match s with
  | String c1 (String c2 s') =>
      match hex_value c1, hex_value c2 with
      | Some h, Some l => byte_of_nat (16 * h + l)%nat :: Buffer_from_hex s'
      | _, _ => []
      end
  | _ => []
  end.

(** [Buffer.from(s)]: the bytes of the string. *)
Definition Buffer_from (s : string) : Buffer := list_byte_of_string s.

(** [str.slice(from, to)] for [0 <= from <= to]. *)
Definition slice (s : string) (from to : nat) : string :=
  substring from (to - from)%nat s.

(** [parts.join('/')]. *)
Definition join_slash (parts : list string) : string :=
  String.concat "/" parts.

(** The values that travel as keys and names: a [Buffer], a string, or
    nothing ([undefined] / [null]). *)
Inductive KeyLike :=
| Buf (b : Buffer)
| Str (s : string)
| Null.

(** JavaScript truthiness: every object is truthy, the empty string and
    [null] / [undefined] are not. *)
Definition truthy (k : KeyLike) : bool :=
  match k with
  | Buf _ => true
  | Str s => negb (s =? "")
  | Null => false
  end.

(** An [Error] object with the two properties the module inspects. *)
Record JSError := mkError {
  message : string;
  code : option string;
  unknownKeyPair : bool
}.

Definition Error (msg : string) : JSError :=
  {| message := msg; code := None; unknownKeyPair := false |}.

Definition TypeError (msg : string) : JSError :=
  {| message := msg; code := Some "TypeError"; unknownKeyPair := false |}.

Definition JSError_eqb (a b : JSError) : bool :=
  (message a =? message b)
  && match code a, code b with
     | Some x, Some y => x =? y
     | None, None => true
     | _, _ => false
     end
  && Bool.eqb (unknownKeyPair a) (unknownKeyPair b).

(** The outcome of a call: a value, or a thrown exception. *)
Inductive Completion (A : Type) :=
| Return (a : A)
| Throw (e : JSError).

Arguments Return {A} a.
Arguments Throw {A} e.

(** ** Collaborators

    The packages the module requires.  Their behaviour is a parameter of
    the whole development. *)
Class Collaborators := {
  (** [bitwebCrypto.randomBytes(n)]; the first argument numbers the draw. *)
  randomBytes : nat -> nat -> Buffer;
  (** [bitwebCrypto.keyPair(seed)]: public and secret key. *)
  keyPair : Buffer -> Buffer * Buffer;
  (** [bitwebCrypto.discoveryKey(publicKey)]. *)
  discoveryKey : Buffer -> Buffer;
  (** [deriveSeed(namespace, masterKey, name)] of [derive-key]. *)
  deriveSeed : string -> option Buffer -> Buffer -> Buffer;
  (** [bitEncoding.encode(buf)]. *)
  encode : Buffer -> string;
  (** [bitEncoding.decode(str)]; [None] when it throws. *)
  decode : string -> option Buffer;
  (** The [discoveryKey] field a freshly constructed unichain shows,
      from the public key it was constructed with. *)
  unichain_discoveryKey : option Buffer -> option Buffer
}.

(** ** Chains *)

(** A chain handle, as [unichain(storage, publicKey, opts)] builds it.
    [chain_uid] is the identity of the object.  Of the options only
    [createIfMissing] is kept, and of the storage its root; the block
    and tree caches and the options passed through belong to the chain. *)
Record Chain := mkChain {
  chain_uid : nat;
  chain_key : option Buffer;
  chain_discoveryKey : option Buffer;
  createIfMissing : bool;
  storageRoot : string
}.

Definition option_Buffer_eqb (a b : option Buffer) : bool :=
  match a, b with
  | Some x, Some y => if list_eq_dec Byte.byte_eq_dec x y then true else false
  | None, None => true
  | _, _ => false
  end.

(** ** Keys of JavaScript [Map]s *)

(** What the module passes as a [Map] key: a string, [null], or the
    two-element array [[key, value]] that iterating a [Map] yields. *)
Inductive Key :=
| KStr (s : string)
| KNull
| KPair (k : Key) (c : Chain).

(** [Map] compares keys with SameValueZero: strings by content; an array
    is an object, compared by identity, and an array fresh from an
    iterator is identical to nothing stored before. *)
Definition sameValueZero (a b : Key) : bool :=
  match a, b with
  | KStr x, KStr y => x =? y
  | KNull, KNull => true
  | _, _ => false
  end.

(** A [Map] keeps its entries in insertion order. *)
Section JSMap.
Variable V : Type.

Definition JSMap := list (Key * V).

Fixpoint Map_get (m : JSMap) (k : Key) : option V :=
  match m with
  | [] => None
  | (k', v) :: m' => if sameValueZero k' k then Some v else Map_get m' k
  end.

Definition Map_has (m : JSMap) (k : Key) : bool :=
  match Map_get m k with Some _ => true | None => false end.

(** [m.set(k, v)]: a present key keeps its place, a new one goes last. *)
Fixpoint Map_set (m : JSMap) (k : Key) (v : V) : JSMap :=
  match m with
  | [] => [(k, v)]
  | (k', v') :: m' =>
      if sameValueZero k' k then (k', v) :: m' else (k', v') :: Map_set m' k v
  end.

Fixpoint Map_delete (m : JSMap) (k : Key) : JSMap :=
  match m with
  | [] => []
  | (k', v') :: m' =>
      if sameValueZero k' k then m' else (k', v') :: Map_delete m' k
  end.

Definition Map_values (m : JSMap) : list V := map snd m.

Definition Map_size (m : JSMap) : nat := List.length m.
End JSMap.

(** [for (const x of map)]: a [Map] iterates over its entries, each one
    the array [[key, value]]. *)
Definition Map_iterator (m : JSMap Chain) : list Key :=
  map (fun kv => KPair (fst kv) (snd kv)) m.

(** ** The reference-counted chain cache *)

(** Modelled from the spec: the [refpool] package, whose [RefPool] class
    backs [this.cache], is required by the source but not part of it.
    The model follows the cache entry of the data model
    ([{ chain, refs, lru_position }]) and the operations listed for the
    chain cache: [get] touches the LRU position, [has] and [entry] do
    not, [set] inserts with [refs = 0] and, when the size exceeds the
    capacity, evicts the least recently used entry with zero refs,
    [increment] and [decrement] adjust [refs] and never evict, [delete]
    removes and tolerates an absent id.  [refs] is a JavaScript number.
    The entry [set] has just written is the most recently used one and
    is not a candidate of the eviction its own insertion triggers: the
    pool goes over its soft cap instead, as the spec allows when every
    other entry is pinned, and as its rule that a chain is in the cache
    once [get] has returned requires. *)
Module RefPool.
Section Pool.
Variable V : Type.

Record Entry := mkEntry {
  value : V;
  refs : Z;
  lru_position : nat
}.

Record t := mkPool {
  maxSize : nat;
  entries : JSMap Entry;
  clock : nat
}.

Definition create (maxSize : nat) : t :=
  {| maxSize := maxSize; entries := []; clock := 0 |}.

Definition size (p : t) : nat := Map_size (entries p).

Definition has (p : t) (id : Key) : bool := Map_has (entries p) id.

Definition entry (p : t) (id : Key) : option Entry := Map_get (entries p) id.

Definition with_entries (p : t) (es : JSMap Entry) : t :=
  {| maxSize := maxSize p; entries := es; clock := clock p |}.

Definition get (p : t) (id : Key) : t * option V :=
  match entry p id with
  | Some e =>
      let e' := {| value := value e; refs := refs e; lru_position := clock p |} in
      ({| maxSize := maxSize p;
          entries := Map_set (entries p) id e';
          clock := S (clock p) |},
       Some (value e))
  | None => (p, None)
  end.

Definition adjust (p : t) (id : Key) (d : Z) : t :=
  match entry p id with
  | Some e =>
      with_entries p
        (Map_set (entries p) id
           {| value := value e; refs := (refs e + d)%Z;
              lru_position := lru_position e |})
  | None => p
  end.

Definition increment (p : t) (id : Key) : t := adjust p id 1.

Definition decrement (p : t) (id : Key) : t := adjust p id (-1).

Definition delete (p : t) (id : Key) : t :=
  with_entries p (Map_delete (entries p) id).

(** The least recently used entry with zero refs, the entry at [skip]
    left aside. *)
Fixpoint oldest_unreferenced (skip : Key) (m : JSMap Entry)
  : option (Key * Entry) :=
  match m with
  | [] => None
  | (k, e) :: m' =>
      let rest := oldest_unreferenced skip m' in
      if (refs e =? 0)%Z && negb (sameValueZero k skip) then
        match rest with
        | Some (_, e') =>
            if (lru_position e' <? lru_position e)%nat then rest else Some (k, e)
        | None => Some (k, e)
        end
      else rest
  end.

(** Modelled from the spec: [set(id, chain)] of the chain cache, which
    inserts with [refs = 0] and, if the size exceeds the capacity, evicts
    the least recently used zero-ref entry.  It returns the pool and the
    value it evicted, which the owner's [close] handler receives. *)
Definition set (p : t) (id : Key) (v : V) : t * option V :=
  let e := {| value := v; refs := 0; lru_position := clock p |} in
  let p1 := {| maxSize := maxSize p;
               entries := Map_set (entries p) id e;
               clock := S (clock p) |} in
  if (maxSize p1 <? size p1)%nat then
    match oldest_unreferenced id (entries p1) with
    | Some (k, old) => (delete p1 k, Some (value old))
    | None => (p1, None)
    end
  else (p1, None).
End Pool.
End RefPool.

(** ** Options and storage *)

Module KeyPair.
Record t := mk { publicKey : Buffer; secretKey : option Buffer }.
End KeyPair.

(** The options object of [get]; a field that is absent is [Null] (or
    [None], or [false] for the [default] flag). *)
Module ChainOpts.
Record t := mk {
  keyPair : option KeyPair.t;
  key : KeyLike;
  default : bool;
  name : KeyLike;
  discoveryKey : KeyLike
}.

(** The object [{}]. *)
Definition empty : t :=
  {| keyPair := None; key := Null; default := false; name := Null;
     discoveryKey := Null |}.
End ChainOpts.

(** The argument of [get]: nothing, a string, a [Buffer], or an options
    object. *)
Inductive GetArg :=
| ArgUndefined
| ArgStr (s : string)
| ArgBuf (b : Buffer)
| ArgObj (o : ChainOpts.t).

Module GeneratedKeys.
Record t := mk {
  name : option Buffer;
  publicKey : option Buffer;
  secretKey : option Buffer;
  discoveryKey : Buffer
}.
End GeneratedKeys.

(** A random-access storage handle: what [stat(cb)],
    [read(offset, length, cb)], [write(offset, data, cb)] and [close(cb)]
    pass to their callbacks. *)
Record RandomAccess := mkRandomAccess {
  ra_stat : JSError + nat;
  ra_read : nat -> nat -> JSError + option Buffer;
  ra_write : nat -> Buffer -> option JSError;
  ra_close : option JSError
}.

(** What an asynchronous operation passes to its callback: [cb(err)] or
    [cb(null, value)]. *)
Inductive Callback (A : Type) :=
| cb_err (err : JSError)
| cb_ok (a : A).

Arguments cb_err {A} err.
Arguments cb_ok {A} a.

Record StoreOpts := mkStoreOpts {
  cacheSize : nat;
  masterKey : option Buffer
}.

(** A peer stream, by identity. *)
Definition Stream := nat.

Record ReplicationOpts := mkReplicationOpts {
  ro_stream : option Stream;
  ro_live : bool
}.

Record StreamState := mkStreamState {
  stream : Stream;
  stream_opts : ReplicationOpts
}.

(** What the store emits. *)
Inductive Event :=
| emit_feed (chain : Chain) (chainOpts : GetArg)
| emit_error (err : JSError).

(** The part of a chain the store reaches into: the [ifAvailable] gate
    and the one-shot listeners [get] installs, with the variables their
    closures capture. *)
Record ChainState := mkChainState {
  cs_chain : Chain;
  cs_id : string;
  cs_chainOpts : GetArg;
  ifAvailable : Z;
  errored : bool;
  on_error : bool;
  on_ready : bool;
  on_close : bool
}.

(** A pending [chain.ready(cb)] whose callback replicates the chain on a
    stream. *)
Record ReplicateRequest := mkReplicateRequest {
  rr_isInitiator : bool;
  rr_chain : Chain;
  rr_stream : Stream;
  rr_opts : ReplicationOpts
}.

(** ** The inner store *)

(** Who waits for a [chain.close(cb)]: the cache's [close] handler of
    the constructor, or the loop of [_close]. *)
Inductive CloseHandler := on_evict | on_store_close.

Module InnerChainstore.

(** The object: the fields the constructor assigns and [opened] of
    [Nanoresource], followed by the world the object acts on: the
    events emitted so far, the chains instantiated, the replications
    and closes requested of chains, the streams destroyed, and how
    many objects and random draws were made. *)
Record t := mk {
  storage : string -> RandomAccess;
  opts : StoreOpts;
  _replicationStreams : list StreamState;
  cache : RefPool.t Chain;
  _masterKey : option Buffer;
  _id : Buffer;
  opened : bool;
  emitted : list Event;
  chains : list ChainState;
  replicating : list ReplicateRequest;
  closing : list (Chain * CloseHandler);
  destroyed : list Stream;
  allocated : nat;
  drawn : nat
}.

Definition set_replicationStreams (x : list StreamState) (this : t) : t :=
  {| storage := storage this;
     opts := opts this;
     _replicationStreams := x;
     cache := cache this;
     _masterKey := _masterKey this;
     _id := _id this;
     opened := opened this;
     emitted := emitted this;
     chains := chains this;
     replicating := replicating this;
     closing := closing this;
     destroyed := destroyed this;
     allocated := allocated this;
     drawn := drawn this |}.

Definition set_cache (x : RefPool.t Chain) (this : t) : t :=
  {| storage := storage this;
     opts := opts this;
     _replicationStreams := _replicationStreams this;
     cache := x;
     _masterKey := _masterKey this;
     _id := _id this;
     opened := opened this;
     emitted := emitted this;
     chains := chains this;
     replicating := replicating this;
     closing := closing this;
     destroyed := destroyed this;
     allocated := allocated this;
     drawn := drawn this |}.

Definition set_masterKey (x : option Buffer) (this : t) : t :=
  {| storage := storage this;
     opts := opts this;
     _replicationStreams := _replicationStreams this;
     cache := cache this;
     _masterKey := x;
     _id := _id this;
     opened := opened this;
     emitted := emitted this;
     chains := chains this;
     replicating := replicating this;
     closing := closing this;
     destroyed := destroyed this;
     allocated := allocated this;
     drawn := drawn this |}.

Definition set_opened (x : bool) (this : t) : t :=
  {| storage := storage this;
     opts := opts this;
     _replicationStreams := _replicationStreams this;
     cache := cache this;
     _masterKey := _masterKey this;
     _id := _id this;
     opened := x;
     emitted := emitted this;
     chains := chains this;
     replicating := replicating this;
     closing := closing this;
     destroyed := destroyed this;
     allocated := allocated this;
     drawn := drawn this |}.

Definition set_emitted (x : list Event) (this : t) : t :=
  {| storage := storage this;
     opts := opts this;
     _replicationStreams := _replicationStreams this;
     cache := cache this;
     _masterKey := _masterKey this;
     _id := _id this;
     opened := opened this;
     emitted := x;
     chains := chains this;
     replicating := replicating this;
     closing := closing this;
     destroyed := destroyed this;
     allocated := allocated this;
     drawn := drawn this |}.

Definition set_chains (x : list ChainState) (this : t) : t :=
  {| storage := storage this;
     opts := opts this;
     _replicationStreams := _replicationStreams this;
     cache := cache this;
     _masterKey := _masterKey this;
     _id := _id this;
     opened := opened this;
     emitted := emitted this;
     chains := x;
     replicating := replicating this;
     closing := closing this;
     destroyed := destroyed this;
     allocated := allocated this;
     drawn := drawn this |}.

Definition set_replicating (x : list ReplicateRequest) (this : t) : t :=
  {| storage := storage this;
     opts := opts this;
     _replicationStreams := _replicationStreams this;
     cache := cache this;
     _masterKey := _masterKey this;
     _id := _id this;
     opened := opened this;
     emitted := emitted this;
     chains := chains this;
     replicating := x;
     closing := closing this;
     destroyed := destroyed this;
     allocated := allocated this;
     drawn := drawn this |}.

Definition set_closing (x : list (Chain * CloseHandler)) (this : t) : t :=
  {| storage := storage this;
     opts := opts this;
     _replicationStreams := _replicationStreams this;
     cache := cache this;
     _masterKey := _masterKey this;
     _id := _id this;
     opened := opened this;
     emitted := emitted this;
     chains := chains this;
     replicating := replicating this;
     closing := x;
     destroyed := destroyed this;
     allocated := allocated this;
     drawn := drawn this |}.

Definition set_destroyed (x : list Stream) (this : t) : t :=
  {| storage := storage this;
     opts := opts this;
     _replicationStreams := _replicationStreams this;
     cache := cache this;
     _masterKey := _masterKey this;
     _id := _id this;
     opened := opened this;
     emitted := emitted this;
     chains := chains this;
     replicating := replicating this;
     closing := closing this;
     destroyed := x;
     allocated := allocated this;
     drawn := drawn this |}.

Definition set_allocated (x : nat) (this : t) : t :=
  {| storage := storage this;
     opts := opts this;
     _replicationStreams := _replicationStreams this;
     cache := cache this;
     _masterKey := _masterKey this;
     _id := _id this;
     opened := opened this;
     emitted := emitted this;
     chains := chains this;
     replicating := replicating this;
     closing := closing this;
     destroyed := destroyed this;
     allocated := x;
     drawn := drawn this |}.

Definition set_drawn (x : nat) (this : t) : t :=
  {| storage := storage this;
     opts := opts this;
     _replicationStreams := _replicationStreams this;
     cache := cache this;
     _masterKey := _masterKey this;
     _id := _id this;
     opened := opened this;
     emitted := emitted this;
     chains := chains this;
     replicating := replicating this;
     closing := closing this;
     destroyed := destroyed this;
     allocated := allocated this;
     drawn := x |}.

(** Methods run on [this] and either return or throw. *)
Definition M (A : Type) : Type := t -> Completion A * t.

Definition ret {A : Type} (a : A) : M A := fun this => (Return a, this).

Definition throw {A : Type} (e : JSError) : M A := fun this => (Throw e, this).

Definition bind {A B : Type} (m : M A) (f : A -> M B) : M B :=
  fun this =>
    match m this with
    | (Return a, this') => f a this'
    | (Throw e, this') => (Throw e, this')
    end.

Definition gets {A : Type} (f : t -> A) : M A := fun this => (Return (f this), this).

Definition modify (f : t -> t) : M unit := fun this => (Return tt, f this).

Notation "x <- m ;; k" := (bind m (fun x => k))
  (at level 61, m at next level, right associativity).
Notation "m ;;; k" := (bind m (fun _ => k))
  (at level 61, right associativity).

Definition MASTER_KEY_FILENAME : string := "master_key".
Definition NAMESPACE : string := "chainstore".

Definition emit (e : Event) (this : t) : t :=
  set_emitted (emitted this ++ [e]) this.

Section Methods.
Context {collaborators : Collaborators}.

(** [encodeKey]: a [Buffer] is encoded, anything else passes. *)
Definition encodeKey (key : KeyLike) : Key :=
  match key with
  | Buf b => KStr (encode b)
  | Str s => KStr s
  | Null => KNull
  end.

(** [decodeKey]: a string is decoded, anything else passes. *)
Definition decodeKey (key : KeyLike) : Completion KeyLike :=
  match key with
  | Str s =>
      match decode s with
      | Some b => Return (Buf b)
      | None => Throw (Error "Invalid key")
      end
  | _ => Return key
  end.

(** [new InnerChainstore(storage, opts)], [storage] a function. *)
Definition constructor (storage : string -> RandomAccess) (opts : StoreOpts) : t :=
  {| storage := storage;
     opts := opts;
     _replicationStreams := [];
     cache := RefPool.create Chain
                (if (cacheSize opts =? 0)%nat then 1000%nat else cacheSize opts);
     _masterKey := masterKey opts;
     _id := randomBytes 0 8;
     opened := false;
     emitted := [];
     chains := [];
     replicating := [];
     closing := [];
     destroyed := [];
     allocated := 0;
     drawn := 1 |}.

(** [_open(cb)]: what [cb] receives, and the store then. *)
Definition _open (this : t) : option JSError * t :=
  match _masterKey this with
  | Some _ => (None, this)
  | None =>
      let keyStorage := storage this MASTER_KEY_FILENAME in
      let generate :=
        let key := randomBytes (drawn this) 32 in
        let this' := set_drawn (S (drawn this)) (set_masterKey (Some key) this) in
        match ra_write keyStorage 0 key with
        | Some err => (Some err, this')
        | None => (ra_close keyStorage, this')
        end in
      let load :=
        match ra_read keyStorage 0 32 with
        | inl err => (Some err, this)
        | inr key => (ra_close keyStorage, set_masterKey key this)
        end in
      match ra_stat keyStorage with
      | inl err =>
          match code err with
          | Some c => if String.eqb c "ENOENT" then generate else (Some err, this)
          | None => (Some err, this)
          end
      | inr size => if (size <? 32)%nat then generate else load
      end
  end.

(** [open(cb)] of [Nanoresource]: [opened] is set once [_open] has
    succeeded. *)
Definition open (this : t) : option JSError * t :=
  if opened this then (None, this)
  else
    match _open this with
    | (None, this') => (None, set_opened true this')
    | (Some err, this') => (Some err, this')
    end.

(** The variables of [_close] its callbacks share, and the calls made
    to [cb] so far. *)
Record Closing := mkClosing {
  cl_error : option JSError;
  cl_remaining : Z;
  cl_cb : list (option JSError)
}.

(** [_close(cb)] up to the end of its loop. *)
Definition _close (this : t) : Closing * t :=
  let this1 :=
    set_destroyed (destroyed this ++ map stream (_replicationStreams this)) this in
  if (RefPool.size (cache this1) =? 0)%nat then
    ({| cl_error := None; cl_remaining := 0; cl_cb := [None] |}, this1)
  else
    ({| cl_error := None;
        cl_remaining := Z.of_nat (RefPool.size (cache this1));
        cl_cb := [] |},
     set_closing
       (closing this1 ++
        map (fun e => (RefPool.value e, on_store_close))
            (Map_values (RefPool.entries (cache this1))))
       this1).

(** The callback [_close] hands to each [chain.close]. *)
Definition close_callback (c : Closing) (err : option JSError) : Closing :=
  let error := match err with Some e => Some e | None => cl_error c end in
  let remaining := (cl_remaining c - 1)%Z in
  {| cl_error := error;
     cl_remaining := remaining;
     cl_cb := if (remaining =? 0)%Z then cl_cb c ++ [error] else cl_cb c |}.

(** The chains answer in some order; [errs] lists what each passes to
    its callback, in the order the callbacks run. *)
Definition close_callbacks (c : Closing) (errs : list (option JSError)) : Closing :=
  fold_left close_callback errs c.


(** [_checkIfExists(dkey, cb)]: what [cb] receives. *)
Definition _checkIfExists (dkey : KeyLike) (this : t) : Completion (Callback bool) :=
  let dkey := encodeKey dkey in
  if RefPool.has (cache this) dkey then Return (cb_ok true)
  else
    match dkey with
    | KStr d =>
        let chainStorage :=
          storage this (join_slash [slice d 0 2; slice d 2 4; d; "key"]) in
        match ra_read chainStorage 0 32 with
        | inl err => Return (cb_err err)
        | inr key =>
            match ra_close chainStorage with
            | Some err => Return (cb_err err)
            | None =>
                match key with
                | None => Return (cb_ok false)
                | Some _ => Return (cb_ok true)
                end
            end
        end
    | _ => Throw (TypeError "dkey.slice is not a function")
    end.

(** [_replicateChain]: the chain is asked to call back when ready. *)
Definition _replicateChain (isInitiator : bool) (chain : option Chain)
    (mainStream : Stream) (opts : ReplicationOpts) (this : t) : t :=
  match chain with
  | None => this
  | Some c =>
      set_replicating
        (replicating this ++
         [{| rr_isInitiator := isInitiator; rr_chain := c;
             rr_stream := mainStream; rr_opts := opts |}])
        this
  end.

Definition _injectIntoReplicationStreams (chain : Chain) (this : t) : t :=
  fold_left
    (fun this' st => _replicateChain false (Some chain) (stream st) (stream_opts st) this')
    (_replicationStreams this) this.

Definition _deriveSecret (namespace : string) (name : Buffer) (this : t) : Buffer :=
  deriveSeed namespace (_masterKey this) name.

Definition _generateKeyPair (name : KeyLike) : M GeneratedKeys.t :=
  name <- match name with
          | Str s => ret (Buffer_from s)
          | Buf b => ret b
          | Null =>
              n <- gets drawn ;;
              modify (set_drawn (S n)) ;;;
              ret (randomBytes n 32)
          end ;;
  seed <- gets (_deriveSecret NAMESPACE name) ;;
  let keyPair := keyPair seed in
  let discoveryKey := discoveryKey (fst keyPair) in
  ret {| GeneratedKeys.name := Some name;
         GeneratedKeys.publicKey := Some (fst keyPair);
         GeneratedKeys.secretKey := Some (snd keyPair);
         GeneratedKeys.discoveryKey := discoveryKey |}.

(** The first three lines of [_generateKeys]: a missing argument is
    [{}], a string is read as hexadecimal, a [Buffer] is a key. *)
Definition normalize (chainOpts : GetArg) : ChainOpts.t :=
  match chainOpts with
  | ArgUndefined => ChainOpts.empty
  | ArgStr s =>
      if String.eqb s "" then ChainOpts.empty
      else {| ChainOpts.keyPair := None; ChainOpts.key := Buf (Buffer_from_hex s);
              ChainOpts.default := false; ChainOpts.name := Null;
              ChainOpts.discoveryKey := Null |}
  | ArgBuf b =>
      {| ChainOpts.keyPair := None; ChainOpts.key := Buf b;
         ChainOpts.default := false; ChainOpts.name := Null;
         ChainOpts.discoveryKey := Null |}
  | ArgObj o => o
  end.

Definition lift {A : Type} (c : Completion A) : M A := fun this => (c, this).

(** A decoded key is a [Buffer]; the crypto functions accept nothing
    else. *)
Definition as_Buffer (k : KeyLike) : M Buffer :=
  match k with
  | Buf b => ret b
  | _ => throw (TypeError "The argument must be a Buffer")
  end.

Definition _generateKeys (chainOpts : GetArg) : M GeneratedKeys.t :=
  let chainOpts := normalize chainOpts in
  match ChainOpts.keyPair chainOpts with
  | Some kp =>
      let publicKey := KeyPair.publicKey kp in
      let secretKey := KeyPair.secretKey kp in
      ret {| GeneratedKeys.publicKey := Some publicKey;
             GeneratedKeys.secretKey := secretKey;
             GeneratedKeys.discoveryKey := discoveryKey publicKey;
             GeneratedKeys.name := None |}
  | None =>
      if truthy (ChainOpts.key chainOpts) then
        decoded <- lift (decodeKey (ChainOpts.key chainOpts)) ;;
        publicKey <- as_Buffer decoded ;;
        ret {| GeneratedKeys.publicKey := Some publicKey;
               GeneratedKeys.secretKey := None;
               GeneratedKeys.discoveryKey := discoveryKey publicKey;
               GeneratedKeys.name := None |}
      else if ChainOpts.default chainOpts || truthy (ChainOpts.name chainOpts) then
        if negb (truthy (ChainOpts.name chainOpts)) then
          throw (Error "If the default option is set, a name must be specified.")
        else _generateKeyPair (ChainOpts.name chainOpts)
      else if truthy (ChainOpts.discoveryKey chainOpts) then
        decoded <- lift (decodeKey (ChainOpts.discoveryKey chainOpts)) ;;
        discoveryKey <- as_Buffer decoded ;;
        ret {| GeneratedKeys.publicKey := None;
               GeneratedKeys.secretKey := None;
               GeneratedKeys.discoveryKey := discoveryKey;
               GeneratedKeys.name := None |}
      else _generateKeyPair Null
  end.

(** ** Public methods *)

Definition isLoaded (chainOpts : GetArg) : M bool :=
  generatedKeys <- _generateKeys chainOpts ;;
  cache <- gets cache ;;
  ret (RefPool.has cache (encodeKey (Buf (GeneratedKeys.discoveryKey generatedKeys)))).

(** Reading a property of the store.  The constructor assigns
    [storage], [opts], [_replicationStreams], [cache], [_masterKey] and
    [_id]; a name the object does not carry reads as [undefined]. *)
Inductive Member :=
| member_cache (c : RefPool.t Chain)
| member_other.

Definition member (this : t) (p : string) : option Member :=
  if String.eqb p "cache" then Some (member_cache (cache this))
  else if existsb (String.eqb p)
            ["storage"; "opts"; "_replicationStreams"; "_masterKey"; "_id"; "opened"]
  then Some member_other
  else None.

Definition isExternal (chainOpts : GetArg) : M bool :=
  generatedKeys <- _generateKeys chainOpts ;;
  _cache <- gets (fun this => member this "_cache") ;;
  match _cache with
  | Some (member_cache c) =>
      match RefPool.entry c
              (encodeKey (Buf (GeneratedKeys.discoveryKey generatedKeys))) with
      | None => ret false
      | Some entry => ret (negb (RefPool.refs entry =? 0)%Z)
      end
  | Some member_other => throw (TypeError "this._cache.entry is not a function")
  | None => throw (TypeError "Cannot read properties of undefined (reading 'entry')")
  end.

(** [this.cache.get(id)]. *)
Definition cache_get (id : Key) : M (option Chain) :=
  fun this =>
    let (cache', cached) := RefPool.get (cache this) id in
    (Return cached, set_cache cache' this).

(** [this.cache.set(id, chain)]; the pool hands a chain it evicts to
    the [close] handler of the constructor. *)
Definition cache_set (id : Key) (chain : Chain) : M unit :=
  fun this =>
    let (cache', evicted) := RefPool.set (cache this) id chain in
    let this' := set_cache cache' this in
    (Return tt,
     match evicted with
     | Some old => set_closing (closing this' ++ [(old, on_evict)]) this'
     | None => this'
     end).

Definition cache_delete (id : Key) (this : t) : t :=
  set_cache (RefPool.delete (cache this) id) this.

Definition is_some {A : Type} (o : option A) : bool :=
  match o with Some _ => true | None => false end.

(** [get(chainOpts)]: the cached chain, or a new one, which is put in
    the cache, has its [ifAvailable] gate held, and gets the three
    one-shot listeners, before it is returned. *)
Definition get (chainOpts : GetArg) : M Chain :=
  is_opened <- gets opened ;;
  if negb is_opened then throw (Error "Chainstore.ready must be called before get.")
  else
    generatedKeys <- _generateKeys chainOpts ;;
    let publicKey := GeneratedKeys.publicKey generatedKeys in
    let discoveryKey := GeneratedKeys.discoveryKey generatedKeys in
    match encodeKey (Buf discoveryKey) with
    | KStr id =>
        cached <- cache_get (KStr id) ;;
        match cached with
        | Some chain => ret chain
        | None =>
            let storageRoot := join_slash [slice id 0 2; slice id 2 4; id] in
            uid <- gets allocated ;;
            modify (set_allocated (S uid)) ;;;
            let chain :=
              {| chain_uid := uid;
                 chain_key := publicKey;
                 chain_discoveryKey := unichain_discoveryKey publicKey;
                 createIfMissing := is_some publicKey;
                 storageRoot := storageRoot |} in
            cache_set (KStr id) chain ;;;
            modify (fun this =>
              set_chains
                (chains this ++
                 [{| cs_chain := chain; cs_id := id; cs_chainOpts := chainOpts;
                     ifAvailable := 1; errored := false;
                     on_error := true; on_ready := true; on_close := true |}])
                this) ;;;
            ret chain
        end
    | _ => throw (TypeError "id.slice is not a function")
    end.

(** The callback [get] gives the derived-key storage: [name] is the
    name found on disk, if any. *)
Definition keyStorage_callback (generatedKeys : GeneratedKeys.t)
    (name : option Buffer) (this : t) : Callback GeneratedKeys.t :=
  match name with
  | Some n =>
      match fst (_generateKeyPair (Buf n) this) with
      | Return res =>
          if option_Buffer_eqb (Some (GeneratedKeys.discoveryKey generatedKeys))
               (Some (GeneratedKeys.discoveryKey res))
          then cb_ok res
          else cb_err (Error "Stored an incorrect name.")
      | Throw e => cb_err e
      end
  | None =>
      if is_some (GeneratedKeys.secretKey generatedKeys) then cb_ok generatedKeys
      else if is_some (GeneratedKeys.publicKey generatedKeys) then
        cb_ok {| GeneratedKeys.name := None;
                 GeneratedKeys.publicKey := GeneratedKeys.publicKey generatedKeys;
                 GeneratedKeys.secretKey := None;
                 GeneratedKeys.discoveryKey := GeneratedKeys.discoveryKey generatedKeys |}
      else cb_err {| message := "Unknown key pair."; code := None;
                     unknownKeyPair := true |}
  end.

(** ** The listeners [get] installs on a chain *)

Definition update_chain (uid : nat) (f : ChainState -> ChainState) (this : t) : t :=
  set_chains
    (map (fun cs => if (chain_uid (cs_chain cs) =? uid)%nat then f cs else cs)
         (chains this))
    this.

Definition find_chain (uid : nat) (this : t) : option ChainState :=
  find (fun cs => (chain_uid (cs_chain cs) =? uid)%nat) (chains this).

Definition with_listeners (cs : ChainState) (e r c : bool) : ChainState :=
  {| cs_chain := cs_chain cs; cs_id := cs_id cs; cs_chainOpts := cs_chainOpts cs;
     ifAvailable := ifAvailable cs; errored := errored cs;
     on_error := e; on_ready := r; on_close := c |}.

Definition with_gate (cs : ChainState) (gate : Z) (err : bool) : ChainState :=
  {| cs_chain := cs_chain cs; cs_id := cs_id cs; cs_chainOpts := cs_chainOpts cs;
     ifAvailable := gate; errored := err;
     on_error := on_error cs; on_ready := on_ready cs; on_close := on_close cs |}.

Definition onready (cs : ChainState) (this : t) : t :=
  if errored cs then this
  else
    let uid := chain_uid (cs_chain cs) in
    let this1 := emit (emit_feed (cs_chain cs) (cs_chainOpts cs)) this in
    let this2 :=
      update_chain uid (fun s => with_listeners s false (on_ready s) (on_close s)) this1 in
    let this3 := _injectIntoReplicationStreams (cs_chain cs) this2 in
    update_chain uid (fun s => with_gate s (ifAvailable s - 1) (errored s)) this3.

Definition onerror (cs : ChainState) (err : JSError) (this : t) : t :=
  let uid := chain_uid (cs_chain cs) in
  let this1 := update_chain uid (fun s => with_gate s (ifAvailable s - 1) true) this in
  let this2 := cache_delete (KStr (cs_id cs)) this1 in
  if unknownKeyPair err then this2 else this2.

Definition onclose (cs : ChainState) (this : t) : t :=
  cache_delete (KStr (cs_id cs)) this.

(** The chain with identity [uid] emits [ready], [error] or [close]:
    a listener installed with [once] runs and is removed. *)
Definition chain_emits_ready (uid : nat) (this : t) : t :=
  match find_chain uid this with
  | Some cs =>
      if on_ready cs then
        onready cs
          (update_chain uid (fun s => with_listeners s (on_error s) false (on_close s)) this)
      else this
  | None => this
  end.

Definition chain_emits_error (uid : nat) (err : JSError) (this : t) : t :=
  match find_chain uid this with
  | Some cs =>
      if on_error cs then
        onerror cs err
          (update_chain uid (fun s => with_listeners s false (on_ready s) (on_close s)) this)
      else this
  | None => this
  end.

Definition chain_emits_close (uid : nat) (this : t) : t :=
  match find_chain uid this with
  | Some cs =>
      if on_close cs then
        onclose cs
          (update_chain uid (fun s => with_listeners s (on_error s) (on_ready s) false) this)
      else this
  | None => this
  end.

(** [replicate(isInitiator, chains, replicationOpts)]. *)
Definition replicate (isInitiator : bool) (chains : list Chain)
    (replicationOpts : ReplicationOpts) : M Stream :=
  let finalOpts := replicationOpts in
  mainStream <- match ro_stream replicationOpts with
                | Some s => ret s
                | None =>
                    uid <- gets allocated ;;
                    modify (set_allocated (S uid)) ;;;
                    ret uid
                end ;;
  modify (fun this =>
    fold_left
      (fun this' chain => _replicateChain isInitiator (Some chain) mainStream finalOpts this')
      chains this) ;;;
  let streamState := {| stream := mainStream; stream_opts := finalOpts |} in
  modify (fun this => set_replicationStreams (_replicationStreams this ++ [streamState]) this) ;;;
  ret mainStream.

End Methods.
End InnerChainstore.

(** ** The store and its namespaced views *)

Module Chainstore.

(** A view.  [inner] is the one store all views of a family share; it
    is passed to every method and returned by it.  [_parent] is only
    ever tested for presence.  [listening] tells whether the view still
    forwards the [feed] and [error] events of the inner store. *)
#[local] Unset Elimination Schemes.
Inductive t := mk {
  name : string;
  _parent : option t;
  _isNamespaced : bool;
  _openedChains : JSMap Chain;
  listening : bool
}.
#[local] Set Elimination Schemes.

Definition M := InnerChainstore.M.

Notation "x <- m ;; k" := (InnerChainstore.bind m (fun x => k))
  (at level 61, m at next level, right associativity).
Notation "m ;;; k" := (InnerChainstore.bind m (fun _ => k))
  (at level 61, right associativity).

Definition NAMESPACE_SEPERATOR : string := ":".

Definition set_openedChains (m : JSMap Chain) (this : t) : t :=
  {| name := name this; _parent := _parent this;
     _isNamespaced := _isNamespaced this; _openedChains := m;
     listening := listening this |}.

Definition _unlisten (this : t) : t :=
  {| name := name this; _parent := _parent this;
     _isNamespaced := _isNamespaced this; _openedChains := _openedChains this;
     listening := false |}.

Section Methods.
Context {collaborators : Collaborators}.

(** The constructor, given [opts.name] (the empty string when absent)
    and [opts.parent].  The [feed] and [error] listeners it registers on
    the inner store are recorded on the view, in [listening]. *)
Definition constructor (name : string) (parent : option t) : t :=
  {| name := if String.eqb name "" then "default" else name;
     _parent := parent;
     _isNamespaced := negb (String.eqb name "");
     _openedChains := [];
     listening := true |}.

(** [new Chainstore(storage, opts)] without [opts.inner]: the root
    view and the inner store it creates. *)
Definition create (storage : string -> RandomAccess) (opts : StoreOpts)
    (name : string) : t * InnerChainstore.t :=
  (constructor name None, InnerChainstore.constructor storage opts).

Definition _open (inner : InnerChainstore.t) : option JSError * InnerChainstore.t :=
  InnerChainstore.open inner.

(** [_close(cb)]: the state of the callback, the view and the inner
    store. *)
Definition _close (this : t) (inner : InnerChainstore.t)
  : InnerChainstore.Closing * t * InnerChainstore.t :=
  let this := _unlisten this in
  match _parent this with
  | None =>
      let (closing, inner') := InnerChainstore._close inner in
      (closing, this, inner')
  | Some _ =>
      let cache :=
        fold_left (fun cache dkey => RefPool.decrement cache dkey)
                  (Map_iterator (_openedChains this))
                  (InnerChainstore.cache inner) in
      ({| InnerChainstore.cl_error := None;
          InnerChainstore.cl_remaining := 0;
          InnerChainstore.cl_cb := [None] |},
       this,
       InnerChainstore.set_cache cache inner)
  end.

Definition KeyLike_of (b : option Buffer) : KeyLike :=
  match b with Some x => Buf x | None => Null end.

Definition _maybeIncrement (this : t) (chain : Chain) : M t :=
  let id := InnerChainstore.encodeKey (KeyLike_of (chain_discoveryKey chain)) in
  if Map_has (_openedChains this) id then InnerChainstore.ret this
  else
    let this' := set_openedChains (Map_set (_openedChains this) id chain) this in
    InnerChainstore.modify
      (fun inner =>
         InnerChainstore.set_cache
           (RefPool.increment (InnerChainstore.cache inner) id) inner) ;;;
    InnerChainstore.ret this'.

Definition key_only (b : Buffer) : ChainOpts.t :=
  {| ChainOpts.keyPair := None; ChainOpts.key := Buf b;
     ChainOpts.default := false; ChainOpts.name := Null;
     ChainOpts.discoveryKey := Null |}.

Definition get (this : t) (chainOpts : GetArg) : M (Chain * t) :=
  let chainOpts :=
    match chainOpts with
    | ArgBuf b => ArgObj (key_only b)
    | _ => chainOpts
    end in
  chain <- InnerChainstore.get chainOpts ;;
  this' <- _maybeIncrement this chain ;;
  InnerChainstore.ret (chain, this').

(** [{ ...chainOpts, name }]; spreading a string or nothing adds none
    of the fields [get] reads. *)
Definition with_name (chainOpts : GetArg) (name : string) : ChainOpts.t :=
  match chainOpts with
  | ArgObj o =>
      {| ChainOpts.keyPair := ChainOpts.keyPair o; ChainOpts.key := ChainOpts.key o;
         ChainOpts.default := ChainOpts.default o; ChainOpts.name := Str name;
         ChainOpts.discoveryKey := ChainOpts.discoveryKey o |}
  | _ =>
      {| ChainOpts.keyPair := None; ChainOpts.key := Null;
         ChainOpts.default := false; ChainOpts.name := Str name;
         ChainOpts.discoveryKey := Null |}
  end.

Definition default (this : t) (chainOpts : GetArg) : M (Chain * t) :=
  let chainOpts :=
    match chainOpts with
    | ArgBuf b => ArgObj (key_only b)
    | _ => chainOpts
    end in
  get this (ArgObj (with_name chainOpts (name this))).

Definition namespace (this : t) (name : KeyLike) : M t :=
  name <- (if negb (truthy name) then
             n <- InnerChainstore.gets InnerChainstore.drawn ;;
             InnerChainstore.modify (InnerChainstore.set_drawn (S n)) ;;;
             InnerChainstore.ret (Buf (randomBytes n 32))
           else InnerChainstore.ret name) ;;
  let name := match name with
              | Buf b => toString_hex b
              | Str s => s
              | Null => ""
              end in
  let name := if _isNamespaced this
              then Chainstore.name this ++ NAMESPACE_SEPERATOR ++ name
              else name in
  InnerChainstore.ret (constructor name (Some this)).

(** The generator [allReferenced(cache)]. *)
Definition allReferenced (cache : RefPool.t Chain) : list Chain :=
  flat_map
    (fun entry => if (0 <? RefPool.refs entry)%Z then [RefPool.value entry] else [])
    (Map_values (RefPool.entries cache)).

Definition replicate (this : t) (isInitiator : bool) (opts : ReplicationOpts)
  : M Stream :=
  cache <- InnerChainstore.gets InnerChainstore.cache ;;
  let chains :=
    match _parent this with
    | None => allReferenced cache
    | Some _ => Map_values (_openedChains this)
    end in
  InnerChainstore.replicate isInitiator chains opts.

Definition isLoaded (chainOpts : GetArg) : M bool :=
  InnerChainstore.isLoaded chainOpts.

Definition isExternal (chainOpts : GetArg) : M bool :=
  InnerChainstore.isExternal chainOpts.

Definition list (this : t) : JSMap Chain := _openedChains this.

End Methods.
End Chainstore.

(** ** Vocabulary of the properties *)

Section Vocabulary.
Context {collaborators : Collaborators}.

(** The path of the [key] file of the chain whose id is [d]. *)
Definition key_path (d : string) : string :=
  join_slash [slice d 0 2; slice d 2 4; d; "key"].

(** The last error of [errs], or [previous] when there is none. *)
Definition latest_error (previous : option JSError) (errs : list (option JSError))
  : option JSError :=
  fold_left (fun acc err => match err with Some e => Some e | None => acc end)
            errs previous.

(** The first error of [errs]. *)
Definition first_error (errs : list (option JSError)) : option JSError :=
  match find (@InnerChainstore.is_some JSError) errs with
  | Some err => err
  | None => None
  end.

(** The reference count of the cache entry at [id], if there is one. *)
Definition refs_of (inner : InnerChainstore.t) (id : Key) : option Z :=
  option_map (@RefPool.refs Chain) (RefPool.entry (InnerChainstore.cache inner) id).

(** The chain cached at [id], if there is one. *)
Definition cached_at (inner : InnerChainstore.t) (id : Key) : option Chain :=
  option_map (@RefPool.value Chain) (RefPool.entry (InnerChainstore.cache inner) id).

(** In the store [inner], the argument [chainOpts] resolves to the
    cache id [id]. *)
Definition resolves_to (chainOpts : GetArg) (inner : InnerChainstore.t) (id : string)
  : Prop :=
  exists generatedKeys inner',
    InnerChainstore._generateKeys chainOpts inner = (Return generatedKeys, inner')
    /\ encode (GeneratedKeys.discoveryKey generatedKeys) = id.

(** The id under which a view books a chain. *)
Definition owned_id (chain : Chain) : Key :=
  InnerChainstore.encodeKey (Chainstore.KeyLike_of (chain_discoveryKey chain)).


(** The requests [replicate] has added, given the store before and
    after the call. *)
Definition injected_by (before after : InnerChainstore.t) : list ReplicateRequest :=
  skipn (List.length (InnerChainstore.replicating before))
        (InnerChainstore.replicating after).

(** The argument a view hands to the [get] of the inner store. *)
Definition handed_on (chainOpts : GetArg) : GetArg :=
  match chainOpts with
  | ArgBuf b => ArgObj (Chainstore.key_only b)
  | _ => chainOpts
  end.

(** The name [namespace] gives a child called [n]. *)
Definition child_name (V : Chainstore.t) (n : string) : string :=
  if Chainstore._isNamespaced V
  then Chainstore.name V ++ ":" ++ n
  else n.

(** The shapes of key material that name the chain of public key [k]. *)
Definition equivalent_key_material (k sk : Buffer) : list GetArg :=
  [ ArgBuf k;
    ArgObj {| ChainOpts.keyPair := None; ChainOpts.key := Buf k;
              ChainOpts.default := false; ChainOpts.name := Null;
              ChainOpts.discoveryKey := Null |};
    ArgObj {| ChainOpts.keyPair := None; ChainOpts.key := Null;
              ChainOpts.default := false; ChainOpts.name := Null;
              ChainOpts.discoveryKey := Buf (discoveryKey k) |};
    ArgObj {| ChainOpts.keyPair :=
                Some {| KeyPair.publicKey := k; KeyPair.secretKey := Some sk |};
              ChainOpts.key := Null;
              ChainOpts.default := false; ChainOpts.name := Null;
              ChainOpts.discoveryKey := Null |} ].

End Vocabulary.

(** ** The listeners [replicate] installs on a peer stream *)

Module ReplicationStream.
Section Handlers.
Context {collaborators : Collaborators}.

(** What a handler asks of the peer stream. *)
Inductive Answer :=
| nothing
| close_channel (dkey : KeyLike)
| replicate_chain (chain : Chain).

(** The options [{ discoveryKey: dkey }]. *)
Definition by_discoveryKey (dkey : KeyLike) : ChainOpts.t :=
  {| ChainOpts.keyPair := None; ChainOpts.key := Null;
     ChainOpts.default := false; ChainOpts.name := Null;
     ChainOpts.discoveryKey := dkey |}.

(** [ondiscoverykey(dkey)], from the callback of [_checkIfExists] on.
    [closed] is the variable of [replicate] the two listeners share, as
    the callback finds it. *)
Definition ondiscoverykey (mainStream : Stream) (finalOpts : ReplicationOpts)
    (closed : bool) (dkey : KeyLike) : InnerChainstore.M Answer :=
  fun this =>
    match InnerChainstore._checkIfExists dkey this with
    | Throw e => (Throw e, this)
    | Return (cb_err _) =>
        if closed then (Return nothing, this) else (Return (close_channel dkey), this)
    | Return (cb_ok exists_) =>
        if closed then (Return nothing, this)
        else if negb exists_ then (Return (close_channel dkey), this)
        else
          InnerChainstore.bind
            (InnerChainstore.get (ArgObj (by_discoveryKey dkey)))
            (fun passiveChain =>
               InnerChainstore.bind
                 (InnerChainstore.modify
                    (InnerChainstore._replicateChain false (Some passiveChain)
                       mainStream finalOpts))
                 (fun _ => InnerChainstore.ret (replicate_chain passiveChain)))
            this
    end.

Definition ReplicationOpts_eqb (a b : ReplicationOpts) : bool :=
  match ro_stream a, ro_stream b with
  | Some x, Some y => (x =? y)%nat
  | None, None => true
  | _, _ => false
  end && Bool.eqb (ro_live a) (ro_live b).

(** A stream state is an object, and [indexOf] compares objects by
    identity.  The record stands for the object by its content, which
    tells the states of a store apart as long as no two of them are on
    the same stream. *)
Definition StreamState_eqb (a b : StreamState) : bool :=
  (stream a =? stream b)%nat && ReplicationOpts_eqb (stream_opts a) (stream_opts b).

(** [array.indexOf(x)]; [None] stands for [-1]. *)
Fixpoint indexOf (l : list StreamState) (x : StreamState) : option nat :=
  match l with
  | [] => None
  | y :: l' =>
      if StreamState_eqb y x then Some 0%nat
      else match indexOf l' x with Some i => Some (S i) | None => None end
  end.

(** [array.splice(start, 1)]; a [start] of [-1] counts from the end. *)
Definition splice1 (l : list StreamState) (start : option nat) : list StreamState :=
  match start with
  | Some i => firstn i l ++ skipn (S i) l
  | None => removelast l
  end.

(** [onclose()], the listener of [finish], [end] and [close]: the new
    value of [closed] and the store. *)
Definition onclose (streamState : StreamState) (closed : bool)
    (this : InnerChainstore.t) : bool * InnerChainstore.t :=
  if negb closed then
    (true,
     InnerChainstore.set_replicationStreams
       (splice1 (InnerChainstore._replicationStreams this)
                (indexOf (InnerChainstore._replicationStreams this) streamState))
       this)
  else (closed, this).

End Handlers.
End ReplicationStream.

(** ** Invariants of the store *)

Section Invariants.
Context {collaborators : Collaborators}.

(** No key occurs twice in a [Map]. *)
Fixpoint unique_keys {V : Type} (m : JSMap V) : bool :=
  match m with
  | [] => true
  | (k, _) :: m' => negb (Map_has m' k) && unique_keys m'
  end.

(** The cache is a [Map], and every chain instantiated so far was
    numbered below the next identity to hand out. *)
Definition well_formed (s : InnerChainstore.t) : Prop :=
  unique_keys (RefPool.entries (InnerChainstore.cache s)) = true
  /\ Forall (fun cs => (chain_uid (cs_chain cs) < InnerChainstore.allocated s)%nat)
            (InnerChainstore.chains s).

(** Every chain in the cache that shows a discovery key sits at the id
    of that key. *)
Definition keyed_entries (m : JSMap (RefPool.Entry Chain)) : bool :=
  forallb
    (fun kv => match chain_discoveryKey (RefPool.value (snd kv)) with
               | Some dk => sameValueZero (fst kv) (KStr (encode dk))
               | None => true
               end)
    m.

Definition keyed (s : InnerChainstore.t) : Prop :=
  keyed_entries (RefPool.entries (InnerChainstore.cache s)) = true.

(** The options [{ name: n }]. *)
Definition by_name (n : KeyLike) : ChainOpts.t :=
  {| ChainOpts.keyPair := None; ChainOpts.key := Null;
     ChainOpts.default := false; ChainOpts.name := n;
     ChainOpts.discoveryKey := Null |}.

(** The keys derived from the master key [m] and the name [n]. *)
Definition derived_keys (m : option Buffer) (n : Buffer) : GeneratedKeys.t :=
  let seed := deriveSeed InnerChainstore.NAMESPACE m n in
  {| GeneratedKeys.name := Some n;
     GeneratedKeys.publicKey := Some (fst (keyPair seed));
     GeneratedKeys.secretKey := Some (snd (keyPair seed));
     GeneratedKeys.discoveryKey := discoveryKey (fst (keyPair seed)) |}.

(** The bytes of a name that is given. *)
Definition name_bytes (name : KeyLike) : Buffer :=
  match name with
  | Str x => Buffer_from x
  | Buf b => b
  | Null => []
  end.

(** The chain [get] builds on a miss, numbered [uid]. *)
Definition new_chain (g : GeneratedKeys.t) (uid : nat) : Chain :=
  let id := encode (GeneratedKeys.discoveryKey g) in
  {| chain_uid := uid;
     chain_key := GeneratedKeys.publicKey g;
     chain_discoveryKey := unichain_discoveryKey (GeneratedKeys.publicKey g);
     createIfMissing := InnerChainstore.is_some (GeneratedKeys.publicKey g);
     storageRoot := join_slash [slice id 0 2; slice id 2 4; id] |}.

(** The ifAvailable gate of the chain numbered [uid]: how many [wait]s
    are not yet matched by a [continue]. *)
Definition gate_of (uid : nat) (s : InnerChainstore.t) : option Z :=
  option_map ifAvailable (InnerChainstore.find_chain uid s).

(** The request [_replicateChain] files for a chain on a stream. *)
Definition injection (chain : Chain) (st : StreamState) : ReplicateRequest :=
  {| rr_isInitiator := false; rr_chain := chain;
     rr_stream := stream st; rr_opts := stream_opts st |}.

End Invariants.

(** ** Sample collaborators and stores

    Small stand-ins for the required packages, on which every method
    evaluates, and the stores the examples below run on. *)
Module Sample.

#[local] Instance collaborators : Collaborators := {|
  randomBytes := fun n len => repeat (byte_of_nat (n + 1)) len;
  keyPair := fun seed => (seed, (seed ++ seed)%list);
  discoveryKey := fun publicKey => (rev publicKey ++ [x2a])%list;
  deriveSeed := fun namespace masterKey name =>
    match masterKey with
    | Some m => (name ++ m)%list
    | None => name
    end;
  encode := toString_hex;
  decode := fun s => Some (Buffer_from_hex s);
  unichain_discoveryKey := fun publicKey =>
    match publicKey with
    | Some k => Some (rev k ++ [x2a])%list
    | None => None
    end
|}.

Definition ENOENT : JSError :=
  {| message := "ENOENT: no such file or directory";
     code := Some "ENOENT"; unknownKeyPair := false |}.

Definition EIO : JSError :=
  {| message := "EIO: i/o error"; code := Some "EIO"; unknownKeyPair := false |}.

Definition EBUSY : JSError :=
  {| message := "EBUSY: resource busy"; code := Some "EBUSY";
     unknownKeyPair := false |}.

(** A storage with no file in it. *)
Definition absent : RandomAccess :=
  {| ra_stat := inl ENOENT;
     ra_read := fun _ _ => inl ENOENT;
     ra_write := fun _ _ => None;
     ra_close := None |}.

Definition empty_storage (path : string) : RandomAccess := absent.

(** A storage in which every file holds 32 bytes. *)
Definition full_storage (path : string) : RandomAccess :=
  {| ra_stat := inr 32;
     ra_read := fun _ len => inr (Some (repeat x01 len));
     ra_write := fun _ _ => None;
     ra_close := None |}.

Definition opts : StoreOpts := {| cacheSize := 0; masterKey := Some [x07] |}.

(** [store = new Chainstore(ram); await store.ready()]. *)
Definition root : Chainstore.t := fst (Chainstore.create empty_storage opts "").

Definition inner : InnerChainstore.t :=
  snd (Chainstore._open (snd (Chainstore.create empty_storage opts ""))).

Definition k1 : Buffer := [x0a; x0b; x0c].
Definition sk1 : Buffer := [x0d; x0e].

(** What a sequence of calls leaves behind: the value, or nothing
    when the call threw. *)
Definition value_of {A : Type} (r : Completion A * InnerChainstore.t) : option A :=
  match fst r with Return a => Some a | Throw _ => None end.

(** [ns = store.namespace('a'); chain = ns.default()]. *)
Definition ns_a : Chainstore.t :=
  match value_of (Chainstore.namespace root (Str "a") inner) with
  | Some v => v
  | None => root
  end.

Definition after_default : Completion (Chain * Chainstore.t) * InnerChainstore.t :=
  Chainstore.default ns_a ArgUndefined inner.

Definition ns_a' : Chainstore.t :=
  match value_of after_default with Some (_, v) => v | None => ns_a end.

Definition inner' : InnerChainstore.t := snd after_default.

(** [ns = store.namespace('b')], then [ns.get({ key })] three times with
    the key of the default chain of the namespace ["a"]. *)
Definition ns_b : Chainstore.t :=
  match value_of (Chainstore.namespace root (Str "b") inner') with
  | Some v => v
  | None => root
  end.

Definition by_key : GetArg :=
  ArgObj (Chainstore.key_only
            (match value_of after_default with
             | Some (chain, _) =>
                 match chain_key chain with Some k => k | None => [] end
             | None => []
             end)).

Definition chain_a : Chain :=
  match value_of after_default with
  | Some (chain, _) => chain
  | None => mkChain 0 None None false ""
  end.

Definition id_a : string :=
  match chain_discoveryKey chain_a with
  | Some d => encode d
  | None => ""
  end.

Definition after_get (view : Chainstore.t) (store : InnerChainstore.t)
  : Chainstore.t * InnerChainstore.t :=
  match Chainstore.get view by_key store with
  | (Return (_, view'), store') => (view', store')
  | (Throw _, store') => (view, store')
  end.

Definition once : Chainstore.t * InnerChainstore.t := after_get ns_b inner'.
Definition twice : Chainstore.t * InnerChainstore.t := after_get (fst once) (snd once).
Definition thrice : Chainstore.t * InnerChainstore.t := after_get (fst twice) (snd twice).

(** A store on a storage where every [key] file exists. *)
Definition inner_full : InnerChainstore.t :=
  snd (Chainstore._open (snd (Chainstore.create full_storage opts ""))).

(** [store.default(); store.get(k1)]: a store with two live chains. *)
Definition inner2 : InnerChainstore.t :=
  snd (Chainstore.get root (ArgBuf k1) (snd (Chainstore.default root ArgUndefined inner))).

(** A storage that cannot be read at all. *)
Definition broken_storage (path : string) : RandomAccess :=
  {| ra_stat := inl EIO;
     ra_read := fun _ _ => inl EIO;
     ra_write := fun _ _ => Some EIO;
     ra_close := None |}.

(** A store on the broken storage, with no master key given, before
    [ready]. *)
Definition unopened : InnerChainstore.t :=
  InnerChainstore.constructor broken_storage {| cacheSize := 0; masterKey := None |}.

(** [store.replicate(true, { live: true })] after the namespace ["a"]
    has opened its default chain. *)
Definition live : ReplicationOpts := {| ro_stream := None; ro_live := true |}.

Definition streaming : InnerChainstore.t :=
  snd (Chainstore.replicate root true live inner').

Definition live_stream : StreamState := {| stream := 1; stream_opts := live |}.

(** The record [get] keeps of the default chain of the namespace ["a"]. *)
Definition record_a : ChainState :=
  {| cs_chain := chain_a; cs_id := id_a;
     cs_chainOpts := ArgObj (Chainstore.with_name ArgUndefined "a");
     ifAvailable := 1; errored := false;
     on_error := true; on_ready := true; on_close := true |}.

End Sample.

(** * Properties *)

Open Scope list_scope.
Unset Implicit Arguments.

(** ** [isExternal] *)

Section IsExternal.
Context {collaborators : Collaborators}.

Lemma member__cache_undefined (this : InnerChainstore.t) :
  InnerChainstore.member this "_cache" = None.
Proof. reflexivity. Qed.

(** Whatever the argument and the store, [isExternal] throws: either
    [_generateKeys] does, or reading [entry] of the undefined
    [this._cache] does. *)
Lemma isExternal_always_throws (chainOpts : GetArg) (this : InnerChainstore.t) :
  exists e this', InnerChainstore.isExternal chainOpts this = (Throw e, this').
Proof.
  unfold InnerChainstore.isExternal, InnerChainstore.bind.
  destruct (InnerChainstore._generateKeys chainOpts this) as [[generatedKeys | e] this1].
  - unfold InnerChainstore.gets. rewrite member__cache_undefined.
    unfold InnerChainstore.throw. eauto.
  - eauto.
Qed.

(** Its sibling [isLoaded] reads [this.cache] and answers. *)
Lemma isLoaded_returns (chainOpts : GetArg) (this this1 : InnerChainstore.t)
    (generatedKeys : GeneratedKeys.t) :
  InnerChainstore._generateKeys chainOpts this = (Return generatedKeys, this1) ->
  InnerChainstore.isLoaded chainOpts this =
    (Return (RefPool.has (InnerChainstore.cache this1)
               (KStr (encode (GeneratedKeys.discoveryKey generatedKeys)))),
     this1).
Proof.
  intros Hkeys. unfold InnerChainstore.isLoaded, InnerChainstore.bind.
  rewrite Hkeys. reflexivity.
Qed.
End IsExternal.

Section IsExternalExample.
#[local] Existing Instance Sample.collaborators.

(** C1, at a failing input.  In the sample store the namespace ["a"] has
    opened its default chain, so the cache holds the chain's entry with
    [refs = 1]; [isLoaded] answers [true] for it, and [isExternal], which
    should answer [true] as well, throws a [TypeError]. *)
Theorem isExternal_failing_input :
  let chainOpts := ArgObj (Chainstore.with_name ArgUndefined "a") in
  (exists generatedKeys,
     fst (InnerChainstore._generateKeys chainOpts Sample.inner') = Return generatedKeys
     /\ option_map (@RefPool.refs Chain)
          (RefPool.entry (InnerChainstore.cache Sample.inner')
             (KStr (encode (GeneratedKeys.discoveryKey generatedKeys)))) = Some 1%Z)
  /\ fst (InnerChainstore.isLoaded chainOpts Sample.inner') = Return true
  /\ fst (InnerChainstore.isExternal chainOpts Sample.inner') =
       Throw (TypeError "Cannot read properties of undefined (reading 'entry')").
Proof.
  cbv zeta. split; [| split].
  - eexists. split; vm_compute; reflexivity.
  - vm_compute. reflexivity.
  - vm_compute. reflexivity.
Qed.

End IsExternalExample.

(** ** Closing a namespaced view *)

Section Close.
Context {collaborators : Collaborators}.

Lemma Map_get_KPair (V : Type) (m : JSMap V) (k : Key) (c : Chain) :
  Map_get m (KPair k c) = None.
Proof.
  induction m as [| [k' v] m IH]; simpl; [reflexivity |].
  destruct k'; simpl; exact IH.
Qed.

Lemma decrement_KPair (cache : RefPool.t Chain) (k : Key) (c : Chain) :
  RefPool.decrement cache (KPair k c) = cache.
Proof.
  unfold RefPool.decrement, RefPool.adjust, RefPool.entry.
  rewrite Map_get_KPair. reflexivity.
Qed.

Lemma decrement_Map_iterator (m : JSMap Chain) (cache : RefPool.t Chain) :
  fold_left (fun cache dkey => RefPool.decrement cache dkey) (Map_iterator m) cache
  = cache.
Proof.
  induction m as [| [k v] m IH]; simpl; [reflexivity |].
  rewrite decrement_KPair. exact IH.
Qed.

(** The loop of [_close] hands [cache.decrement] the entries
    [[id, chain]] of the map, not its ids: no reference count moves. *)
Lemma close_namespaced_keeps_cache (this parent : Chainstore.t)
    (inner : InnerChainstore.t) :
  Chainstore._parent this = Some parent ->
  InnerChainstore.cache (snd (Chainstore._close this inner))
  = InnerChainstore.cache inner.
Proof.
  intros Hparent. unfold Chainstore._close. simpl. rewrite Hparent. simpl.
  apply decrement_Map_iterator.
Qed.
End Close.

Section CloseExample.
#[local] Existing Instance Sample.collaborators.

(** C2, at a failing input.  The namespace ["a"] of the sample store owns
    its default chain, whose entry has [refs = 1]; after the view is
    closed the entry still has [refs = 1], where decrementing by one
    would leave [0]. *)
Theorem close_failing_input :
  exists id chain,
    Chainstore._openedChains Sample.ns_a' = [(id, chain)]
    /\ Chainstore._parent Sample.ns_a' <> None
    /\ option_map (@RefPool.refs Chain)
         (RefPool.entry (InnerChainstore.cache Sample.inner') id) = Some 1%Z
    /\ option_map (@RefPool.refs Chain)
         (RefPool.entry
            (InnerChainstore.cache (snd (Chainstore._close Sample.ns_a' Sample.inner')))
            id) = Some 1%Z.
Proof.
  do 2 eexists. split; [vm_compute; reflexivity |].
  split; [vm_compute; discriminate |].
  split; vm_compute; reflexivity.
Qed.

End CloseExample.

(** ** [_checkIfExists] *)

Section CheckIfExists.
Context {collaborators : Collaborators}.

Lemma checkIfExists_uncached (this : InnerChainstore.t) (dkey : KeyLike) (d : string) :
  InnerChainstore.encodeKey dkey = KStr d ->
  RefPool.has (InnerChainstore.cache this) (KStr d) = false ->
  InnerChainstore._checkIfExists dkey this =
    match ra_read (InnerChainstore.storage this (key_path d)) 0 32 with
    | inl err => Return (cb_err err)
    | inr key =>
        match ra_close (InnerChainstore.storage this (key_path d)) with
        | Some err => Return (cb_err err)
        | None => Return (cb_ok (InnerChainstore.is_some key))
        end
    end.
Proof.
  intros Hd Hmiss. unfold InnerChainstore._checkIfExists.
  rewrite Hd, Hmiss. fold (key_path d).
  destruct (ra_read _ 0 32) as [err | [key |]]; [reflexivity | |];
    destruct (ra_close _); reflexivity.
Qed.

(** C3, as the code has it.  For a discovery key that is not cached,
    [_checkIfExists] reads 32 bytes of the [key] file at the derived
    path.  Every error of the read, [NotFound] and a short read
    included, goes to the callback as an error; so does an error of
    closing the file.  Otherwise the callback receives [true] when the
    read produced a buffer and [false] when it produced none. *)
Theorem checkIfExists_outcome (this : InnerChainstore.t) (dkey : KeyLike) (d : string) :
  InnerChainstore.encodeKey dkey = KStr d ->
  RefPool.has (InnerChainstore.cache this) (KStr d) = false ->
  let chainStorage := InnerChainstore.storage this (key_path d) in
  let outcome := InnerChainstore._checkIfExists dkey this in
  (forall err, ra_read chainStorage 0 32 = inl err -> outcome = Return (cb_err err))
  /\ (forall key err,
        ra_read chainStorage 0 32 = inr key -> ra_close chainStorage = Some err ->
        outcome = Return (cb_err err))
  /\ (forall key,
        ra_read chainStorage 0 32 = inr (Some key) -> ra_close chainStorage = None ->
        outcome = Return (cb_ok true))
  /\ (ra_read chainStorage 0 32 = inr None -> ra_close chainStorage = None ->
      outcome = Return (cb_ok false)).
Proof.
  intros Hd Hmiss chainStorage outcome. subst chainStorage outcome.
  rewrite (checkIfExists_uncached this dkey d Hd Hmiss).
  repeat split.
  - intros err Hread. rewrite Hread. reflexivity.
  - intros key err Hread Hclose. rewrite Hread, Hclose. reflexivity.
  - intros key Hread Hclose. rewrite Hread, Hclose. reflexivity.
  - intros Hread Hclose. rewrite Hread, Hclose. reflexivity.
Qed.
End CheckIfExists.

Section CheckIfExistsExamples.
#[local] Existing Instance Sample.collaborators.

Lemma checkIfExists_outcome_witness :
  InnerChainstore._checkIfExists (Buf Sample.k1) Sample.inner_full = Return (cb_ok true).
Proof.
  exact (proj1 (proj2 (proj2
           (checkIfExists_outcome Sample.inner_full (Buf Sample.k1)
              (encode Sample.k1) eq_refl eq_refl)))
           (repeat x01 32) eq_refl eq_refl).
Defined.

(** C3 as stated fails: on a storage without the file the read reports
    [NotFound], and the callback receives that error, not [false]. *)
Lemma checkIfExists_NotFound_is_an_error :
  RefPool.has (InnerChainstore.cache Sample.inner) (KStr (encode Sample.k1)) = false
  /\ ra_read (InnerChainstore.storage Sample.inner (key_path (encode Sample.k1))) 0 32
     = inl Sample.ENOENT
  /\ code Sample.ENOENT = Some "ENOENT"
  /\ InnerChainstore._checkIfExists (Buf Sample.k1) Sample.inner
     = Return (cb_err Sample.ENOENT)
  /\ InnerChainstore._checkIfExists (Buf Sample.k1) Sample.inner
     <> Return (cb_ok false).
Proof.
  repeat split; try (vm_compute; reflexivity).
  vm_compute. discriminate.
Qed.
End CheckIfExistsExamples.

(** ** Closing the inner store *)

Section InnerClose.
Context {collaborators : Collaborators}.

Lemma latest_error_snoc (previous : option JSError) (errs : list (option JSError))
    (err : option JSError) :
  latest_error previous (errs ++ [err]) =
    match err with Some e => Some e | None => latest_error previous errs end.
Proof. unfold latest_error. rewrite fold_left_app. reflexivity. Qed.

Lemma latest_error_None (errs : list (option JSError)) :
  latest_error None errs = None <-> Forall (fun err => err = None) errs.
Proof.
  induction errs as [| err errs IH] using rev_ind.
  - split; [constructor | reflexivity].
  - rewrite latest_error_snoc, Forall_app. destruct err as [e |].
    + split; [discriminate |]. intros [_ Hlast]. inversion Hlast; subst. discriminate.
    + rewrite IH. split; [intros Hall; split; [exact Hall | repeat constructor] | tauto].
Qed.

Lemma latest_error_Some (errs : list (option JSError)) (e : JSError) :
  latest_error None errs = Some e ->
  exists before after,
    errs = before ++ Some e :: after /\ Forall (fun err => err = None) after.
Proof.
  induction errs as [| err errs IH] using rev_ind; [discriminate |].
  rewrite latest_error_snoc. destruct err as [e' |].
  - intros [= ->]. exists errs, []. split; [reflexivity | constructor].
  - intros Hlatest. destruct (IH Hlatest) as (before & after & -> & Hafter).
    exists before, (after ++ [None]). split.
    + rewrite <- app_assoc. reflexivity.
    + apply Forall_app. split; [exact Hafter | repeat constructor].
Qed.

Lemma close_callback_error (c : InnerChainstore.Closing) (errs : list (option JSError)) :
  InnerChainstore.cl_error (InnerChainstore.close_callbacks c errs)
  = latest_error (InnerChainstore.cl_error c) errs.
Proof.
  revert c. induction errs as [| err errs IH]; intros c; [reflexivity |].
  unfold InnerChainstore.close_callbacks in *. simpl. rewrite IH.
  destruct err; reflexivity.
Qed.

(** While chains are still to answer, [cb] is not called. *)
Lemma close_callbacks_pending (errs : list (option JSError)) (c : InnerChainstore.Closing) :
  InnerChainstore.cl_cb c = [] ->
  (Z.of_nat (List.length errs) < InnerChainstore.cl_remaining c)%Z ->
  InnerChainstore.cl_cb (InnerChainstore.close_callbacks c errs) = [].
Proof.
  revert c. induction errs as [| err errs IH]; intros c Hcb Hlt; [exact Hcb |].
  unfold InnerChainstore.close_callbacks in *. simpl fold_left.
  apply IH.
  - simpl. destruct (Z.eqb_spec (InnerChainstore.cl_remaining c - 1) 0) as [Hz | _].
    + simpl List.length in Hlt. lia.
    + exact Hcb.
  - simpl InnerChainstore.cl_remaining. simpl List.length in Hlt. lia.
Qed.

(** When the last chain answers, [cb] is called once. *)
Lemma close_callbacks_done (errs : list (option JSError)) (c : InnerChainstore.Closing) :
  InnerChainstore.cl_cb c = [] ->
  errs <> [] ->
  InnerChainstore.cl_remaining c = Z.of_nat (List.length errs) ->
  InnerChainstore.cl_cb (InnerChainstore.close_callbacks c errs)
  = [latest_error (InnerChainstore.cl_error c) errs].
Proof.
  revert c. induction errs as [| err errs IH]; intros c Hcb Hne Hlen; [congruence |].
  destruct errs as [| err' errs].
  - unfold InnerChainstore.close_callbacks. simpl. rewrite Hlen, Hcb. simpl.
    destruct err; reflexivity.
  - unfold InnerChainstore.close_callbacks in *.
    change (fold_left InnerChainstore.close_callback (err :: err' :: errs) c)
      with (fold_left InnerChainstore.close_callback (err' :: errs)
              (InnerChainstore.close_callback c err)).
    rewrite IH.
    + unfold latest_error. simpl. destruct err; reflexivity.
    + simpl. destruct (Z.eqb_spec (InnerChainstore.cl_remaining c - 1) 0) as [Hz | _].
      * rewrite Hlen in Hz. simpl List.length in Hz. lia.
      * exact Hcb.
    + discriminate.
    + simpl InnerChainstore.cl_remaining. rewrite Hlen. simpl List.length. lia.
Qed.

(** C4, as the code has it.  With a non-empty cache, once every live
    chain has answered its [close], the callback of [_close] is called
    exactly once, and not before; it reports success exactly when no
    close failed, and otherwise the error of the chain that failed last,
    each later error having replaced the one collected before. *)
Theorem close_reports_latest_error (this : InnerChainstore.t)
    (errs : list (option JSError)) :
  RefPool.size (InnerChainstore.cache this) <> 0%nat ->
  List.length errs = RefPool.size (InnerChainstore.cache this) ->
  let closing := fst (InnerChainstore._close this) in
  (forall n, (n < List.length errs)%nat ->
     InnerChainstore.cl_cb (InnerChainstore.close_callbacks closing (firstn n errs)) = [])
  /\ exists reported,
       InnerChainstore.cl_cb (InnerChainstore.close_callbacks closing errs) = [reported]
       /\ (reported = None <-> Forall (fun err => err = None) errs)
       /\ forall e, reported = Some e ->
            exists before after,
              errs = before ++ Some e :: after /\ Forall (fun err => err = None) after.
Proof.
  intros Hsize Hlen closing.
  assert (Hclosing : closing =
            {| InnerChainstore.cl_error := None;
               InnerChainstore.cl_remaining :=
                 Z.of_nat (RefPool.size (InnerChainstore.cache this));
               InnerChainstore.cl_cb := [] |}).
  { subst closing. unfold InnerChainstore._close. simpl.
    destruct (Nat.eqb_spec (RefPool.size (InnerChainstore.cache this)) 0) as [Hz | _];
      [contradiction | reflexivity]. }
  rewrite Hclosing. split.
  - intros n Hn. apply close_callbacks_pending; [reflexivity |].
    simpl. rewrite length_firstn. lia.
  - exists (latest_error None errs). split; [| split].
    + rewrite close_callbacks_done; simpl; try reflexivity.
      * intros ->. simpl in Hlen. congruence.
      * congruence.
    + apply latest_error_None.
    + apply latest_error_Some.
Qed.
End InnerClose.

Section InnerCloseExamples.
#[local] Existing Instance Sample.collaborators.

Lemma close_reports_latest_error_witness :
  exists reported,
    InnerChainstore.cl_cb
      (InnerChainstore.close_callbacks (fst (InnerChainstore._close Sample.inner2))
         [Some Sample.EIO; None]) = [reported]
    /\ (reported = None <-> Forall (fun err => err = None) [Some Sample.EIO; None])
    /\ forall e, reported = Some e ->
         exists before after,
           [Some Sample.EIO; None] = before ++ Some e :: after
           /\ Forall (fun err => err = None) after.
Proof.
  apply (close_reports_latest_error Sample.inner2 [Some Sample.EIO; None]).
  - vm_compute. discriminate.
  - vm_compute. reflexivity.
Defined.

(** C4 as stated fails: two live chains whose closes fail with [EIO],
    then with [EBUSY]; the callback reports [EBUSY], the error collected
    last, where the first error collected is [EIO]. *)
Lemma close_reports_last_not_first_error :
  RefPool.size (InnerChainstore.cache Sample.inner2) = 2%nat
  /\ InnerChainstore.cl_cb
       (InnerChainstore.close_callbacks (fst (InnerChainstore._close Sample.inner2))
          [Some Sample.EIO; Some Sample.EBUSY]) = [Some Sample.EBUSY]
  /\ first_error [Some Sample.EIO; Some Sample.EBUSY] = Some Sample.EIO
  /\ Sample.EIO <> Sample.EBUSY.
Proof.
  repeat split; try (vm_compute; reflexivity).
  discriminate.
Qed.
End InnerCloseExamples.

(** ** Errors of a chain *)

Section ChainErrors.
Context {collaborators : Collaborators}.

(** What the [error] listener of [get] does: the chain is marked, its
    gate released, its id dropped from the cache. *)
Lemma chain_error_forgets_chain (uid : nat) (err : JSError) (this : InnerChainstore.t)
    (cs : ChainState) :
  InnerChainstore.find_chain uid this = Some cs ->
  on_error cs = true ->
  InnerChainstore.cache (InnerChainstore.chain_emits_error uid err this)
  = RefPool.delete (InnerChainstore.cache this) (KStr (cs_id cs)).
Proof.
  intros Hfind Hlistener. unfold InnerChainstore.chain_emits_error.
  rewrite Hfind, Hlistener. unfold InnerChainstore.onerror.
  destruct (unknownKeyPair err); reflexivity.
Qed.

End ChainErrors.

Section ChainErrorsExamples.
#[local] Existing Instance Sample.collaborators.

End ChainErrorsExamples.

(** ** Facts about maps and the cache *)

Section CacheFacts.

Lemma sameValueZero_trans (a b c : Key) :
  sameValueZero a b = true -> sameValueZero a c = sameValueZero b c.
Proof.
  destruct a, b; simpl; try discriminate; try reflexivity.
  intros Heq. apply String.eqb_eq in Heq. subst. reflexivity.
Qed.

Lemma sameValueZero_sym (a b : Key) : sameValueZero a b = sameValueZero b a.
Proof.
  destruct a, b; simpl; try reflexivity. apply String.eqb_sym.
Qed.

Lemma sameValueZero_KStr (s : string) : sameValueZero (KStr s) (KStr s) = true.
Proof. simpl. apply String.eqb_refl. Qed.

Variable V : Type.

Lemma Map_get_set (m : JSMap V) (k j : Key) (v : V) :
  Map_get (Map_set m k v) j = if sameValueZero k j then Some v else Map_get m j.
Proof.
  induction m as [| [k' v'] m IH]; simpl.
  - reflexivity.
  - destruct (sameValueZero k' k) eqn:Hk'k; simpl.
    + rewrite (sameValueZero_trans _ _ j Hk'k).
      destruct (sameValueZero k j); reflexivity.
    + destruct (sameValueZero k' j) eqn:Hk'j.
      * rewrite (sameValueZero_sym k j), <- (sameValueZero_trans _ _ k Hk'j), Hk'k.
        reflexivity.
      * exact IH.
Qed.

Lemma Map_get_same (m : JSMap V) (a b : Key) :
  sameValueZero a b = true -> Map_get m a = Map_get m b.
Proof.
  intros Hab. induction m as [| [k' v'] m IH]; simpl; [reflexivity |].
  rewrite (sameValueZero_sym k' a), (sameValueZero_sym k' b).
  rewrite (sameValueZero_trans _ _ k' Hab), IH. reflexivity.
Qed.

Lemma Map_get_delete_other (m : JSMap V) (k j : Key) :
  sameValueZero k j = false ->
  Map_get (Map_delete m k) j = Map_get m j.
Proof.
  intros Hkj. induction m as [| [k' v'] m IH]; simpl; [reflexivity |].
  destruct (sameValueZero k' k) eqn:Hk'k; simpl.
  - rewrite (sameValueZero_trans _ _ j Hk'k), Hkj. reflexivity.
  - rewrite IH. reflexivity.
Qed.

End CacheFacts.

Section PoolFacts.
Variable V : Type.

Lemma oldest_unreferenced_skips (skip k : Key) (m : JSMap (RefPool.Entry V))
    (e : RefPool.Entry V) :
  RefPool.oldest_unreferenced skip m = Some (k, e) -> sameValueZero k skip = false.
Proof.
  revert k e. induction m as [| [k' e'] m IH]; intros k e; simpl; [discriminate |].
  destruct ((RefPool.refs e' =? 0)%Z && negb (sameValueZero k' skip)) eqn:Hcand.
  - destruct (RefPool.oldest_unreferenced skip m) as [[k2 e2] |].
    + destruct (RefPool.lru_position e2 <? RefPool.lru_position e')%nat.
      * intros [= <- <-]. eapply IH. reflexivity.
      * intros [= <- <-]. apply andb_true_iff in Hcand.
        destruct Hcand as [_ Hneq]. apply negb_true_iff in Hneq. exact Hneq.
    + intros [= <- <-]. apply andb_true_iff in Hcand.
      destruct Hcand as [_ Hneq]. apply negb_true_iff in Hneq. exact Hneq.
  - apply IH.
Qed.

(** [get] answers from the entry and moves no reference count. *)
Lemma pool_get_value (p : RefPool.t V) (id : Key) :
  snd (RefPool.get p id) = option_map (@RefPool.value V) (RefPool.entry p id).
Proof.
  unfold RefPool.get. destruct (RefPool.entry p id); reflexivity.
Qed.

Lemma pool_get_entry (p : RefPool.t V) (id j : Key) :
  option_map (@RefPool.refs V) (RefPool.entry (fst (RefPool.get p id)) j)
  = option_map (@RefPool.refs V) (RefPool.entry p j)
  /\ option_map (@RefPool.value V) (RefPool.entry (fst (RefPool.get p id)) j)
     = option_map (@RefPool.value V) (RefPool.entry p j).
Proof.
  unfold RefPool.get. destruct (RefPool.entry p id) as [e |] eqn:Hentry; simpl.
  - unfold RefPool.entry in *. simpl. rewrite Map_get_set.
    destruct (sameValueZero id j) eqn:Hidj.
    + rewrite <- (Map_get_same _ _ _ _ Hidj), Hentry. split; reflexivity.
    + split; reflexivity.
  - split; reflexivity.
Qed.

(** After [set], the id holds the value, with no reference. *)
Lemma pool_set_entry (p : RefPool.t V) (s : string) (v : V) :
  exists e, RefPool.entry (fst (RefPool.set p (KStr s) v)) (KStr s) = Some e
            /\ RefPool.value e = v /\ RefPool.refs e = 0%Z.
Proof.
  unfold RefPool.set.
  set (e := {| RefPool.value := v; RefPool.refs := 0%Z;
               RefPool.lru_position := RefPool.clock p |}).
  set (p1 := {| RefPool.maxSize := RefPool.maxSize p;
                RefPool.entries := Map_set (RefPool.entries p) (KStr s) e;
                RefPool.clock := S (RefPool.clock p) |}).
  assert (Hp1 : RefPool.entry p1 (KStr s) = Some e).
  { unfold RefPool.entry. simpl. rewrite Map_get_set, sameValueZero_KStr. reflexivity. }
  exists e. split; [| split; reflexivity].
  destruct (RefPool.maxSize p1 <? RefPool.size p1)%nat; [| exact Hp1].
  destruct (RefPool.oldest_unreferenced (KStr s) (RefPool.entries p1))
    as [[k old] |] eqn:Hold; [| exact Hp1].
  simpl. unfold RefPool.entry, RefPool.delete. simpl.
  rewrite Map_get_delete_other.
  - exact Hp1.
  - eapply oldest_unreferenced_skips. exact Hold.
Qed.

(** [adjust] moves the count of the id it is given, and nothing else. *)
Lemma pool_adjust_entry (p : RefPool.t V) (id j : Key) (d : Z) :
  option_map (@RefPool.value V) (RefPool.entry (RefPool.adjust p id d) j)
  = option_map (@RefPool.value V) (RefPool.entry p j)
  /\ option_map (@RefPool.refs V) (RefPool.entry (RefPool.adjust p id d) j)
     = option_map (fun r => if sameValueZero id j then (r + d)%Z else r)
         (option_map (@RefPool.refs V) (RefPool.entry p j)).
Proof.
  unfold RefPool.adjust. destruct (RefPool.entry p id) as [e |] eqn:Hentry.
  - unfold RefPool.entry in *. simpl. rewrite Map_get_set.
    destruct (sameValueZero id j) eqn:Hidj.
    + rewrite <- (Map_get_same _ _ _ _ Hidj), Hentry. split; reflexivity.
    + destruct (Map_get (RefPool.entries p) j); split; reflexivity.
  - destruct (sameValueZero id j) eqn:Hidj.
    + unfold RefPool.entry in *.
      rewrite <- (Map_get_same _ _ _ _ Hidj), Hentry. split; reflexivity.
    + destruct (RefPool.entry p j); split; reflexivity.
Qed.

End PoolFacts.

(** ** Facts about [get] *)

Section GetFacts.
Context {collaborators : Collaborators}.

(** Key generation draws random bytes at most; the cache, the master
    key and [opened] stay. *)
Lemma generateKeyPair_frame (name : KeyLike) (this : InnerChainstore.t) :
  InnerChainstore.cache (snd (InnerChainstore._generateKeyPair name this))
  = InnerChainstore.cache this
  /\ InnerChainstore.opened (snd (InnerChainstore._generateKeyPair name this))
     = InnerChainstore.opened this
  /\ InnerChainstore._masterKey (snd (InnerChainstore._generateKeyPair name this))
     = InnerChainstore._masterKey this.
Proof.
  destruct name; repeat split; reflexivity.
Qed.

Lemma generateKeys_frame (chainOpts : GetArg) (this : InnerChainstore.t) :
  InnerChainstore.cache (snd (InnerChainstore._generateKeys chainOpts this))
  = InnerChainstore.cache this
  /\ InnerChainstore.opened (snd (InnerChainstore._generateKeys chainOpts this))
     = InnerChainstore.opened this
  /\ InnerChainstore._masterKey (snd (InnerChainstore._generateKeys chainOpts this))
     = InnerChainstore._masterKey this.
Proof.
  unfold InnerChainstore._generateKeys.
  destruct (ChainOpts.keyPair (InnerChainstore.normalize chainOpts));
    [repeat split; reflexivity |].
  destruct (truthy (ChainOpts.key (InnerChainstore.normalize chainOpts))).
  { unfold InnerChainstore.bind, InnerChainstore.lift.
    destruct (InnerChainstore.decodeKey _) as [[b | s |] | e];
      repeat split; reflexivity. }
  destruct (ChainOpts.default (InnerChainstore.normalize chainOpts)
            || truthy (ChainOpts.name (InnerChainstore.normalize chainOpts))).
  { destruct (negb _); [repeat split; reflexivity | apply generateKeyPair_frame]. }
  destruct (truthy (ChainOpts.discoveryKey (InnerChainstore.normalize chainOpts))).
  { unfold InnerChainstore.bind, InnerChainstore.lift.
    destruct (InnerChainstore.decodeKey _) as [[b | s |] | e];
      repeat split; reflexivity. }
  apply generateKeyPair_frame.
Qed.

(** A hit: [get] returns the cached chain and touches its entry. *)
Lemma get_hit (chainOpts : GetArg) (this this1 : InnerChainstore.t)
    (generatedKeys : GeneratedKeys.t) (e : RefPool.Entry Chain) :
  InnerChainstore.opened this = true ->
  InnerChainstore._generateKeys chainOpts this = (Return generatedKeys, this1) ->
  RefPool.entry (InnerChainstore.cache this1)
    (KStr (encode (GeneratedKeys.discoveryKey generatedKeys))) = Some e ->
  InnerChainstore.get chainOpts this =
    (Return (RefPool.value e),
     InnerChainstore.set_cache
       (fst (RefPool.get (InnerChainstore.cache this1)
               (KStr (encode (GeneratedKeys.discoveryKey generatedKeys)))))
       this1).
Proof.
  intros Hopen Hkeys Hentry.
  unfold InnerChainstore.get, InnerChainstore.bind, InnerChainstore.gets.
  rewrite Hopen. simpl. rewrite Hkeys. simpl.
  unfold InnerChainstore.cache_get.
  pose proof (pool_get_value Chain (InnerChainstore.cache this1)
                (KStr (encode (GeneratedKeys.discoveryKey generatedKeys)))) as Hvalue.
  rewrite Hentry in Hvalue. simpl in Hvalue.
  destruct (RefPool.get _ _) as [cache' cached]. simpl in *. subst cached.
  reflexivity.
Qed.

(** A miss: [get] builds a chain and leaves it in the cache, with no
    reference yet. *)
Lemma get_miss (chainOpts : GetArg) (this this1 : InnerChainstore.t)
    (generatedKeys : GeneratedKeys.t) :
  InnerChainstore.opened this = true ->
  InnerChainstore._generateKeys chainOpts this = (Return generatedKeys, this1) ->
  RefPool.entry (InnerChainstore.cache this1)
    (KStr (encode (GeneratedKeys.discoveryKey generatedKeys))) = None ->
  exists chain this',
    InnerChainstore.get chainOpts this = (Return chain, this')
    /\ cached_at this' (KStr (encode (GeneratedKeys.discoveryKey generatedKeys)))
       = Some chain
    /\ refs_of this' (KStr (encode (GeneratedKeys.discoveryKey generatedKeys)))
       = Some 0%Z
    /\ InnerChainstore.opened this' = InnerChainstore.opened this1
    /\ InnerChainstore._masterKey this' = InnerChainstore._masterKey this1.
Proof.
  intros Hopen Hkeys Hentry.
  unfold InnerChainstore.get, InnerChainstore.bind, InnerChainstore.gets.
  rewrite Hopen. simpl. rewrite Hkeys. simpl.
  unfold InnerChainstore.cache_get, RefPool.get. rewrite Hentry. simpl.
  unfold InnerChainstore.cache_set. simpl.
  match goal with
  | |- context [RefPool.set ?p ?id ?v] =>
      destruct (pool_set_entry Chain p (encode (GeneratedKeys.discoveryKey generatedKeys)) v)
        as (e & Hset & Hvalue & Hrefs);
      destruct (RefPool.set p id v) as [cache' evicted] eqn:Hpool
  end.
  simpl in Hset.
  do 2 eexists. split; [reflexivity |].
  unfold cached_at, refs_of.
  destruct evicted; simpl; rewrite Hset; simpl; rewrite Hvalue, Hrefs;
    repeat split; reflexivity.
Qed.

(** In an opened store, [get] returns once the keys are generated, and
    the chain it returns is the one the cache then holds; the reference
    count is the one before, or zero for a new entry. *)
Lemma get_returns (chainOpts : GetArg) (this this1 : InnerChainstore.t)
    (generatedKeys : GeneratedKeys.t) :
  InnerChainstore.opened this = true ->
  InnerChainstore._generateKeys chainOpts this = (Return generatedKeys, this1) ->
  let id := KStr (encode (GeneratedKeys.discoveryKey generatedKeys)) in
  exists chain this',
    InnerChainstore.get chainOpts this = (Return chain, this')
    /\ cached_at this' id = Some chain
    /\ refs_of this' id
       = Some (match refs_of this id with Some r => r | None => 0%Z end)
    /\ InnerChainstore.opened this' = true
    /\ InnerChainstore._masterKey this' = InnerChainstore._masterKey this.
Proof.
  intros Hopen Hkeys id.
  destruct (generateKeys_frame chainOpts this) as (Hcache & Hopened & Hmaster).
  rewrite Hkeys in Hcache, Hopened, Hmaster. simpl in Hcache, Hopened, Hmaster.
  destruct (RefPool.entry (InnerChainstore.cache this1) id) as [e |] eqn:Hentry.
  - exists (RefPool.value e). eexists. split; [apply (get_hit chainOpts this this1 generatedKeys e Hopen Hkeys Hentry) |].
    unfold cached_at, refs_of. simpl.
    destruct (pool_get_entry Chain (InnerChainstore.cache this1) id id) as [Hr Hv].
    fold id. rewrite Hr, Hv, Hentry. rewrite <- Hcache, Hentry. simpl.
    repeat split; congruence.
  - destruct (get_miss chainOpts this this1 generatedKeys Hopen Hkeys Hentry) as (chain & this' & Hget & Hc & Hr & Ho & Hm).
    exists chain, this'. split; [exact Hget |]. fold id in Hc, Hr.
    split; [exact Hc |]. split.
    + rewrite Hr. unfold refs_of. rewrite <- Hcache, Hentry. reflexivity.
    + split; congruence.
Qed.

(** A later [get] for an id the cache holds returns the chain held, and
    moves no reference count and no cached chain. *)
Lemma get_again (chainOpts : GetArg) (this : InnerChainstore.t) (id : string)
    (chain : Chain) :
  InnerChainstore.opened this = true ->
  resolves_to chainOpts this id ->
  cached_at this (KStr id) = Some chain ->
  exists this',
    InnerChainstore.get chainOpts this = (Return chain, this')
    /\ (forall j, refs_of this' j = refs_of this j)
    /\ (forall j, cached_at this' j = cached_at this j)
    /\ InnerChainstore.opened this' = true
    /\ InnerChainstore._masterKey this' = InnerChainstore._masterKey this.
Proof.
  intros Hopen (generatedKeys & this1 & Hkeys & Hid) Hcached. subst id.
  destruct (generateKeys_frame chainOpts this) as (Hcache & Hopened & Hmaster).
  rewrite Hkeys in Hcache, Hopened, Hmaster. simpl in Hcache, Hopened, Hmaster.
  unfold cached_at in Hcached. rewrite <- Hcache in Hcached.
  destruct (RefPool.entry (InnerChainstore.cache this1) _) as [e |] eqn:Hentry;
    [| discriminate].
  simpl in Hcached. injection Hcached as <-.
  eexists. split; [apply (get_hit chainOpts this this1 generatedKeys e Hopen Hkeys Hentry) |].
  unfold refs_of, cached_at. simpl.
  split; [| split; [| split; congruence]]; intros j;
    destruct (pool_get_entry Chain (InnerChainstore.cache this1)
                (KStr (encode (GeneratedKeys.discoveryKey generatedKeys))) j)
      as [Hr Hv]; rewrite <- Hcache; assumption.
Qed.

End GetFacts.

(** ** Deduplication *)

Section Deduplication.
Context {collaborators : Collaborators}.

(** Every shape resolves to the discovery key of [k], whatever the
    store, and leaves the store as it is. *)
Lemma generateKeys_equivalent (k sk : Buffer) (chainOpts : GetArg)
    (this : InnerChainstore.t) :
  In chainOpts (equivalent_key_material k sk) ->
  exists generatedKeys,
    InnerChainstore._generateKeys chainOpts this = (Return generatedKeys, this)
    /\ GeneratedKeys.discoveryKey generatedKeys = discoveryKey k.
Proof.
  intros [<- | [<- | [<- | [<- | []]]]]; eexists; split; reflexivity.
Qed.

Lemma resolves_equivalent (k sk : Buffer) (chainOpts : GetArg)
    (this : InnerChainstore.t) :
  In chainOpts (equivalent_key_material k sk) ->
  resolves_to chainOpts this (encode (discoveryKey k)).
Proof.
  intros Hin. destruct (generateKeys_equivalent k sk chainOpts this Hin) as (g & Hg & Hdk).
  exists g, this. split; [exact Hg | rewrite Hdk; reflexivity].
Qed.

(** C6.  In an opened store, two successive [get] calls with equivalent
    key material (the key buffer, [{key: k}], [{discoveryKey: H(k)}] or
    [{keyPair: {publicKey: k, secretKey: sk}}]) both return, and return
    the identical chain: all shapes resolve to the id of [H(k)], and the
    first call leaves its chain in the cache at that id before it
    returns. *)
Theorem get_deduplicates (this : InnerChainstore.t) (k sk : Buffer) (x y : GetArg) :
  InnerChainstore.opened this = true ->
  In x (equivalent_key_material k sk) ->
  In y (equivalent_key_material k sk) ->
  exists chain this1 this2,
    InnerChainstore.get x this = (Return chain, this1)
    /\ cached_at this1 (KStr (encode (discoveryKey k))) = Some chain
    /\ InnerChainstore.get y this1 = (Return chain, this2).
Proof.
  intros Hopen Hx Hy.
  destruct (generateKeys_equivalent k sk x this Hx) as (gx & Hgx & Hdk).
  destruct (get_returns x this this gx Hopen Hgx) as (chain & this1 & Hget & Hcached & _ & Hopen1 & _).
  rewrite Hdk in Hcached.
  destruct (get_again y this1 _ chain Hopen1 (resolves_equivalent k sk y this1 Hy) Hcached)
    as (this2 & Hget2 & _).
  exists chain, this1, this2. auto.
Qed.
End Deduplication.

Section DeduplicationExamples.
#[local] Existing Instance Sample.collaborators.

Lemma get_deduplicates_witness :
  exists chain this1 this2,
    InnerChainstore.get (ArgBuf Sample.k1) Sample.inner = (Return chain, this1)
    /\ cached_at this1 (KStr (encode (discoveryKey Sample.k1))) = Some chain
    /\ InnerChainstore.get
         (ArgObj {| ChainOpts.keyPair := None; ChainOpts.key := Null;
                    ChainOpts.default := false; ChainOpts.name := Null;
                    ChainOpts.discoveryKey := Buf (discoveryKey Sample.k1) |})
         this1 = (Return chain, this2).
Proof.
  apply (get_deduplicates Sample.inner Sample.k1 Sample.sk1 _ _).
  - reflexivity.
  - simpl. left. reflexivity.
  - simpl. right. right. left. reflexivity.
Defined.
End DeduplicationExamples.

(** ** [default: true] without a name *)

Section MissingName.
Context {collaborators : Collaborators}.

(** C8, as the code has it.  In an opened store, [get] through a view
    with options that set [default], give no name, and give neither
    [keyPair] nor [key], throws the missing-name error at once; the
    inner store with its cache and streams is left as it was, and no
    updated view comes back. *)
Theorem get_default_without_name_throws (this : Chainstore.t)
    (inner : InnerChainstore.t) (o : ChainOpts.t) :
  InnerChainstore.opened inner = true ->
  ChainOpts.default o = true ->
  truthy (ChainOpts.name o) = false ->
  ChainOpts.keyPair o = None ->
  truthy (ChainOpts.key o) = false ->
  Chainstore.get this (ArgObj o) inner =
    (Throw (Error "If the default option is set, a name must be specified."), inner).
Proof.
  intros Hopen Hdefault Hname HkeyPair Hkey.
  assert (Hkeys : InnerChainstore._generateKeys (ArgObj o) inner =
            (Throw (Error "If the default option is set, a name must be specified."),
             inner)).
  { unfold InnerChainstore._generateKeys. simpl.
    rewrite HkeyPair, Hkey, Hdefault, Hname. reflexivity. }
  unfold Chainstore.get, InnerChainstore.get, InnerChainstore.bind, InnerChainstore.gets.
  rewrite Hopen. simpl. rewrite Hkeys. reflexivity.
Qed.
End MissingName.

Section MissingNameExamples.
#[local] Existing Instance Sample.collaborators.

Lemma get_default_without_name_throws_witness :
  Chainstore.get Sample.root
    (ArgObj {| ChainOpts.keyPair := None; ChainOpts.key := Null;
               ChainOpts.default := true; ChainOpts.name := Null;
               ChainOpts.discoveryKey := Null |})
    Sample.inner =
  (Throw (Error "If the default option is set, a name must be specified."),
   Sample.inner).
Proof.
  apply (get_default_without_name_throws Sample.root Sample.inner _); reflexivity.
Defined.

(** C8 as stated fails: with [default: true], no [name], and a [key],
    [get] throws nothing and returns the chain of that key. *)
Lemma get_default_with_key_returns :
  let o := {| ChainOpts.keyPair := None; ChainOpts.key := Buf Sample.k1;
              ChainOpts.default := true; ChainOpts.name := Null;
              ChainOpts.discoveryKey := Null |} in
  ChainOpts.default o = true
  /\ ChainOpts.name o = Null
  /\ InnerChainstore.opened Sample.inner = true
  /\ exists chain this' inner',
       Chainstore.get Sample.root (ArgObj o) Sample.inner = (Return (chain, this'), inner')
       /\ chain_key chain = Some Sample.k1.
Proof.
  cbv zeta. repeat split.
  do 3 eexists. split; vm_compute; reflexivity.
Qed.
End MissingNameExamples.

(** ** Replication *)

Section Replicate.
Context {collaborators : Collaborators}.

Lemma replicateChain_all (isInitiator : bool) (mainStream : Stream)
    (opts : ReplicationOpts) (chains : list Chain) (this : InnerChainstore.t) :
  InnerChainstore.replicating
    (fold_left
       (fun this' chain =>
          InnerChainstore._replicateChain isInitiator (Some chain) mainStream opts this')
       chains this)
  = InnerChainstore.replicating this
    ++ map (fun chain => {| rr_isInitiator := isInitiator; rr_chain := chain;
                            rr_stream := mainStream; rr_opts := opts |})
           chains.
Proof.
  revert this. induction chains as [| chain chains IH]; intros this; simpl.
  - rewrite app_nil_r. reflexivity.
  - rewrite IH. simpl. rewrite <- app_assoc. reflexivity.
Qed.

Lemma allReferenced_filter (cache : RefPool.t Chain) :
  Chainstore.allReferenced cache
  = map (@RefPool.value Chain)
      (filter (fun entry => (0 <? RefPool.refs entry)%Z)
              (Map_values (RefPool.entries cache))).
Proof.
  unfold Chainstore.allReferenced.
  induction (Map_values (RefPool.entries cache)) as [| entry rest IH]; simpl;
    [reflexivity |].
  rewrite IH. destruct (0 <? RefPool.refs entry)%Z; reflexivity.
Qed.

Lemma injected_by_appended (before after : InnerChainstore.t)
    (requests : list ReplicateRequest) :
  InnerChainstore.replicating after = InnerChainstore.replicating before ++ requests ->
  injected_by before after = requests.
Proof.
  intros Happ. unfold injected_by. rewrite Happ, skipn_app, skipn_all, Nat.sub_diag.
  reflexivity.
Qed.

(** C9.  [replicate] on a view returns a stream and asks exactly these
    chains to replicate on it, each with the initiator flag given: for
    the root view (no parent), the chain of every cache entry whose
    reference count is above zero; for any other view, exactly the
    chains of its owned map. *)
Theorem replicate_selects (this : Chainstore.t) (isInitiator : bool)
    (opts : ReplicationOpts) (inner : InnerChainstore.t) :
  exists mainStream inner',
    Chainstore.replicate this isInitiator opts inner = (Return mainStream, inner')
    /\ Forall (fun r => rr_isInitiator r = isInitiator /\ rr_stream r = mainStream)
              (injected_by inner inner')
    /\ map rr_chain (injected_by inner inner') =
       match Chainstore._parent this with
       | None =>
           map (@RefPool.value Chain)
             (filter (fun entry => (0 <? RefPool.refs entry)%Z)
                     (Map_values (RefPool.entries (InnerChainstore.cache inner))))
       | Some _ => Map_values (Chainstore._openedChains this)
       end.
Proof.
  rewrite <- allReferenced_filter.
  set (chains := match Chainstore._parent this with
                 | None => Chainstore.allReferenced (InnerChainstore.cache inner)
                 | Some _ => Map_values (Chainstore._openedChains this)
                 end).
  assert (Hrun : exists mainStream inner',
            Chainstore.replicate this isInitiator opts inner = (Return mainStream, inner')
            /\ injected_by inner inner'
               = map (fun chain => {| rr_isInitiator := isInitiator; rr_chain := chain;
                                      rr_stream := mainStream; rr_opts := opts |})
                     chains).
  { unfold Chainstore.replicate, InnerChainstore.replicate, InnerChainstore.bind,
      InnerChainstore.gets.
    fold chains.
    destruct (ro_stream opts) as [s |]; simpl; do 2 eexists;
      (split; [reflexivity |]); apply injected_by_appended;
      (etransitivity; [apply replicateChain_all | reflexivity]). }
  destruct Hrun as (mainStream & inner' & Hrun & Hinjected).
  exists mainStream, inner'. split; [exact Hrun |]. rewrite Hinjected. split.
  - apply Forall_forall. intros r Hr. apply in_map_iff in Hr.
    destruct Hr as (chain & <- & _). split; reflexivity.
  - rewrite map_map. simpl. rewrite map_id. subst chains.
    destruct (Chainstore._parent this); reflexivity.
Qed.
End Replicate.

(** ** Reference accounting of a view *)

Section Views.
Context {collaborators : Collaborators}.

Lemma generateKeys_handed_on (chainOpts : GetArg) :
  InnerChainstore._generateKeys (handed_on chainOpts)
  = InnerChainstore._generateKeys chainOpts.
Proof. destruct chainOpts; reflexivity. Qed.

Lemma resolves_handed_on (chainOpts : GetArg) (s : InnerChainstore.t) (id : string) :
  resolves_to chainOpts s id -> resolves_to (handed_on chainOpts) s id.
Proof.
  unfold resolves_to. rewrite generateKeys_handed_on. exact (fun H => H).
Qed.

Lemma owned_id_same (chain : Chain) :
  sameValueZero (owned_id chain) (owned_id chain) = true.
Proof.
  unfold owned_id. destruct (chain_discoveryKey chain); simpl;
    [apply String.eqb_refl | reflexivity].
Qed.

(** [get] of a view: the chain of the inner [get], booked once. *)
Lemma view_get_eq (V : Chainstore.t) (chainOpts : GetArg) (s s1 : InnerChainstore.t)
    (chain : Chain) :
  InnerChainstore.get (handed_on chainOpts) s = (Return chain, s1) ->
  Chainstore.get V chainOpts s =
    if Map_has (Chainstore._openedChains V) (owned_id chain)
    then (Return (chain, V), s1)
    else (Return (chain,
                  Chainstore.set_openedChains
                    (Map_set (Chainstore._openedChains V) (owned_id chain) chain) V),
          InnerChainstore.set_cache
            (RefPool.increment (InnerChainstore.cache s1) (owned_id chain)) s1).
Proof.
  intros Hget. unfold Chainstore.get.
  change (match chainOpts with
          | ArgBuf b => ArgObj (Chainstore.key_only b)
          | _ => chainOpts
          end) with (handed_on chainOpts).
  unfold InnerChainstore.bind at 1. rewrite Hget.
  unfold Chainstore._maybeIncrement. fold (owned_id chain).
  destruct (Map_has (Chainstore._openedChains V) (owned_id chain)); reflexivity.
Qed.

(** The first call through a view: the chain is cached at the id, the
    view owns it, and the reference count of the id has moved by zero or
    one. *)
Lemma view_get_first (V V1 : Chainstore.t) (chainOpts : GetArg)
    (s s1 : InnerChainstore.t) (id : string) (chain : Chain) :
  InnerChainstore.opened s = true ->
  resolves_to chainOpts s id ->
  Chainstore.get V chainOpts s = (Return (chain, V1), s1) ->
  cached_at s1 (KStr id) = Some chain
  /\ Map_has (Chainstore._openedChains V1) (owned_id chain) = true
  /\ InnerChainstore.opened s1 = true
  /\ refs_of s1 (KStr id)
     = Some ((match refs_of s (KStr id) with Some r => r | None => 0 end)
             + (if Map_has (Chainstore._openedChains V) (owned_id chain) then 0
                else if sameValueZero (owned_id chain) (KStr id) then 1 else 0))%Z.
Proof.
  intros Hopen Hres Hget.
  destruct (resolves_handed_on _ _ _ Hres) as (g & s0 & Hkeys & <-).
  destruct (get_returns _ _ _ _ Hopen Hkeys)
    as (c & s' & Hinner & Hcached & Hrefs & Hopen' & _).
  rewrite (view_get_eq V chainOpts s s' c Hinner) in Hget.
  assert (Hrefs0 : refs_of s (KStr (encode (GeneratedKeys.discoveryKey g)))
                   = refs_of s (KStr (encode (GeneratedKeys.discoveryKey g))))
    by reflexivity.
  destruct (Map_has (Chainstore._openedChains V) (owned_id c)) eqn:Howned.
  - injection Hget as <- <- <-. rewrite Howned, Z.add_0_r. auto.
  - injection Hget as <- <- <-. rewrite Howned.
    destruct (pool_adjust_entry Chain (InnerChainstore.cache s') (owned_id c)
                (KStr (encode (GeneratedKeys.discoveryKey g))) 1) as [Hv Hr].
    unfold cached_at, refs_of in *. simpl.
    unfold RefPool.increment. rewrite Hv, Hr, Hcached, Hrefs. simpl.
    split; [reflexivity |]. split.
    + unfold Map_has. rewrite Map_get_set, owned_id_same. reflexivity.
    + split; [exact Hopen' |].
      destruct (sameValueZero (owned_id c) _); [reflexivity |].
      rewrite Z.add_0_r. reflexivity.
Qed.


End Views.

Section ViewsExamples.
#[local] Existing Instance Sample.collaborators.



(** The namespaces ["a"] and ["b"] each hold one reference to the chain,
    however often ["b"] asked for it. *)
Example namespaced_refs :
  Map_values (Chainstore._openedChains (fst Sample.thrice)) = [Sample.chain_a]
  /\ refs_of (snd Sample.thrice) (owned_id Sample.chain_a) = Some 2%Z.
Proof. split; vm_compute; reflexivity. Qed.
End ViewsExamples.

(** ** Nested namespaces *)

Section Namespaces.
Context {collaborators : Collaborators}.

Lemma append_assoc (x y z : string) : ((x ++ y) ++ z = x ++ (y ++ z))%string.
Proof.
  induction x as [| c x IH]; simpl; [reflexivity | rewrite IH; reflexivity].
Qed.

Lemma append_nonempty_r (x : string) (c : ascii) (y : string) :
  (x ++ String c y)%string <> "".
Proof. destruct x; discriminate. Qed.

Lemma append_nonempty_l (x y : string) : x <> "" -> (x ++ y)%string <> "".
Proof. destruct x; [congruence | discriminate]. Qed.

Lemma child_name_nonempty (V : Chainstore.t) (n : string) :
  n <> "" -> child_name V n <> "".
Proof.
  intros Hn. unfold child_name. destruct (Chainstore._isNamespaced V); [| exact Hn].
  apply append_nonempty_r.
Qed.

Lemma constructor_named (n : string) (parent : option Chainstore.t) :
  n <> "" ->
  Chainstore.name (Chainstore.constructor n parent) = n
  /\ Chainstore._isNamespaced (Chainstore.constructor n parent) = true.
Proof.
  intros Hn. apply String.eqb_neq in Hn. simpl. rewrite Hn. split; reflexivity.
Qed.

Lemma namespace_named (V : Chainstore.t) (n : string) (s : InnerChainstore.t) :
  n <> "" ->
  Chainstore.namespace V (Str n) s
  = (Return (Chainstore.constructor (child_name V n) (Some V)), s).
Proof.
  intros Hn. apply String.eqb_neq in Hn.
  unfold Chainstore.namespace, InnerChainstore.bind. simpl. rewrite Hn. reflexivity.
Qed.

(** A name resolves to one id in every store with the same master key. *)
Lemma resolves_name (n : string) (s : InnerChainstore.t) :
  n <> "" ->
  exists id,
    forall s', InnerChainstore._masterKey s' = InnerChainstore._masterKey s ->
      resolves_to (ArgObj (Chainstore.with_name ArgUndefined n)) s' id.
Proof.
  intros Hn. apply String.eqb_neq in Hn.
  eexists. intros s' Hmaster. unfold resolves_to, InnerChainstore._generateKeys. simpl.
  rewrite Hn. simpl.
  unfold InnerChainstore._generateKeyPair, InnerChainstore.bind. simpl.
  unfold InnerChainstore._deriveSecret. rewrite Hmaster.
  do 2 eexists. split; reflexivity.
Qed.

(** The first [get] through a view returns. *)
Lemma view_get_returns (V : Chainstore.t) (chainOpts : GetArg) (s : InnerChainstore.t)
    (id : string) :
  InnerChainstore.opened s = true ->
  resolves_to chainOpts s id ->
  exists chain V1 s1,
    Chainstore.get V chainOpts s = (Return (chain, V1), s1)
    /\ InnerChainstore._masterKey s1 = InnerChainstore._masterKey s.
Proof.
  intros Hopen Hres.
  destruct (resolves_handed_on _ _ _ Hres) as (g & s0 & Hkeys & <-).
  destruct (get_returns _ _ _ _ Hopen Hkeys)
    as (c & s' & Hinner & _ & _ & _ & Hmaster).
  rewrite (view_get_eq V chainOpts s s' c Hinner).
  destruct (Map_has _ _); do 3 eexists; (split; [reflexivity | exact Hmaster]).
Qed.

(** A [get] through any view returns the chain cached at the id. *)
Lemma view_get_cached (V : Chainstore.t) (chainOpts : GetArg) (s : InnerChainstore.t)
    (id : string) (chain : Chain) :
  InnerChainstore.opened s = true ->
  cached_at s (KStr id) = Some chain ->
  resolves_to chainOpts s id ->
  exists V1 s1, Chainstore.get V chainOpts s = (Return (chain, V1), s1).
Proof.
  intros Hopen Hcached Hres.
  destruct (get_again _ _ _ _ Hopen (resolves_handed_on _ _ _ Hres) Hcached)
    as (s1 & Hinner & _).
  rewrite (view_get_eq V chainOpts s s1 chain Hinner).
  destruct (Map_has _ _); do 2 eexists; reflexivity.
Qed.

(** C10, as the code has it.  For non-empty strings [a] and [b], the
    views [S.namespace(a).namespace(b)] and [S.namespace(a + ":" + b)]
    carry the same name, which is ["a:b"] under a root that has no name
    of its own; in an opened store their [default()] calls, one after
    the other, return the identical chain.  The separator is not
    escaped. *)
Theorem nested_namespace_collides (S : Chainstore.t) (a b : string)
    (inner : InnerChainstore.t) :
  a <> "" ->
  b <> "" ->
  InnerChainstore.opened inner = true ->
  exists Va Vab Vflat,
    Chainstore.namespace S (Str a) inner = (Return Va, inner)
    /\ Chainstore.namespace Va (Str b) inner = (Return Vab, inner)
    /\ Chainstore.namespace S (Str (a ++ ":" ++ b)%string) inner = (Return Vflat, inner)
    /\ Chainstore.name Vab = Chainstore.name Vflat
    /\ (Chainstore._isNamespaced S = false ->
        Chainstore.name Vab = (a ++ ":" ++ b)%string)
    /\ exists chain V1 inner1 V2 inner2,
         Chainstore.default Vab ArgUndefined inner = (Return (chain, V1), inner1)
         /\ Chainstore.default Vflat ArgUndefined inner1 = (Return (chain, V2), inner2).
Proof.
  intros Ha Hb Hopen.
  pose proof (child_name_nonempty S a Ha) as Hna.
  destruct (constructor_named (child_name S a) (Some S) Hna) as [HnameVa HnsVa].
  set (Va := Chainstore.constructor (child_name S a) (Some S)) in *.
  assert (Hnab : child_name Va b = (child_name S a ++ ":" ++ b)%string).
  { unfold child_name at 1. rewrite HnsVa, HnameVa. reflexivity. }
  assert (Hflat : child_name S (a ++ ":" ++ b)%string = child_name Va b).
  { rewrite Hnab. unfold child_name. destruct (Chainstore._isNamespaced S);
      [| reflexivity].
    rewrite <- !append_assoc. reflexivity. }
  assert (Hnab_ne : child_name Va b <> "") by (apply child_name_nonempty; exact Hb).
  destruct (constructor_named (child_name Va b) (Some Va) Hnab_ne) as [HnameVab _].
  destruct (constructor_named (child_name Va b) (Some S) Hnab_ne) as [HnameVflat _].
  exists Va, (Chainstore.constructor (child_name Va b) (Some Va)),
         (Chainstore.constructor (child_name Va b) (Some S)).
  split; [apply namespace_named; exact Ha |].
  split; [apply namespace_named; exact Hb |].
  split; [rewrite <- Hflat; apply namespace_named; apply append_nonempty_l; exact Ha |].
  split; [congruence |].
  split.
  { intros Hroot. rewrite HnameVab, Hnab. unfold child_name. rewrite Hroot.
    reflexivity. }
  unfold Chainstore.default. rewrite HnameVab, HnameVflat.
  destruct (resolves_name (child_name Va b) inner Hnab_ne) as (id & Hres).
  set (opts := ArgObj (Chainstore.with_name ArgUndefined (child_name Va b))) in *.
  destruct (view_get_returns (Chainstore.constructor (child_name Va b) (Some Va))
              opts inner id Hopen (Hres inner eq_refl))
    as (chain & V1 & inner1 & Hget & Hmaster).
  destruct (view_get_first _ _ _ _ _ _ _ Hopen (Hres inner eq_refl) Hget)
    as (Hcached & _ & Hopen1 & _).
  destruct (view_get_cached (Chainstore.constructor (child_name Va b) (Some S))
              opts inner1 id chain Hopen1 Hcached (Hres inner1 Hmaster))
    as (V2 & inner2 & Hget2).
  exists chain, V1, inner1, V2, inner2. split; assumption.
Qed.
End Namespaces.

Section NamespacesExamples.
#[local] Existing Instance Sample.collaborators.

Lemma nested_namespace_collides_witness :
  exists Va Vab Vflat,
    Chainstore.namespace Sample.root (Str "a") Sample.inner = (Return Va, Sample.inner)
    /\ Chainstore.namespace Va (Str "b") Sample.inner = (Return Vab, Sample.inner)
    /\ Chainstore.namespace Sample.root (Str "a:b") Sample.inner
       = (Return Vflat, Sample.inner)
    /\ Chainstore.name Vab = Chainstore.name Vflat
    /\ (Chainstore._isNamespaced Sample.root = false -> Chainstore.name Vab = "a:b")
    /\ exists chain V1 inner1 V2 inner2,
         Chainstore.default Vab ArgUndefined Sample.inner = (Return (chain, V1), inner1)
         /\ Chainstore.default Vflat ArgUndefined inner1 = (Return (chain, V2), inner2).
Proof.
  apply (nested_namespace_collides Sample.root "a" "b" Sample.inner).
  - discriminate.
  - discriminate.
  - vm_compute. reflexivity.
Defined.

(** C10 as stated fails for an empty string: [namespace("")] names the
    child by 32 random bytes in hexadecimal, so
    [S.namespace("").namespace("b")] carries that name followed by
    [":b"], while [S.namespace("" + ":" + "b")] carries [":b"]. *)
Lemma namespace_of_empty_string_differs :
  exists Va Vab Vflat s1,
    Chainstore.namespace Sample.root (Str "") Sample.inner = (Return Va, s1)
    /\ Chainstore.namespace Va (Str "b") s1 = (Return Vab, s1)
    /\ Chainstore.namespace Sample.root (Str ("" ++ ":" ++ "b")%string) s1
       = (Return Vflat, s1)
    /\ Chainstore.name Vflat = ":b"
    /\ Chainstore.name Vab <> Chainstore.name Vflat.
Proof.
  do 4 eexists.
  split; [vm_compute; reflexivity |].
  split; [vm_compute; reflexivity |].
  split; [vm_compute; reflexivity |].
  split; [vm_compute; reflexivity |].
  vm_compute. discriminate.
Qed.
End NamespacesExamples.

(** * Further properties *)

(** ** Key generation *)

Section KeyGeneration.
Context {collaborators : Collaborators}.

Lemma hex_byte (x : byte) :
  hex_value (hex_digit (Byte.to_nat x / 16)) = Some (Byte.to_nat x / 16)%nat
  /\ hex_value (hex_digit (Byte.to_nat x mod 16)) = Some (Byte.to_nat x mod 16)%nat
  /\ byte_of_nat (16 * (Byte.to_nat x / 16) + Byte.to_nat x mod 16) = x.
Proof. destruct x; vm_compute; repeat split. Qed.

(** Reading back the hexadecimal form of a buffer gives the buffer. *)
Lemma Buffer_from_hex_toString (b : Buffer) : Buffer_from_hex (toString_hex b) = b.
Proof.
  induction b as [| x b IH]; [reflexivity |].
  destruct (hex_byte x) as (Hhi & Hlo & Hbyte).
  cbn [toString_hex Buffer_from_hex]. rewrite Hhi, Hlo, Hbyte, IH. reflexivity.
Qed.

Lemma toString_hex_nonempty (b : Buffer) : b <> [] -> toString_hex b <> "".
Proof. destruct b; [congruence | discriminate]. Qed.

Lemma generateKeys_hex_string (k : Buffer) :
  k <> [] ->
  InnerChainstore._generateKeys (ArgStr (toString_hex k))
  = InnerChainstore._generateKeys (ArgBuf k).
Proof.
  intros Hk. unfold InnerChainstore._generateKeys, InnerChainstore.normalize.
  apply toString_hex_nonempty, String.eqb_neq in Hk. rewrite Hk.
  rewrite Buffer_from_hex_toString. reflexivity.
Qed.

(** X1.  A string argument of [get] is read as a hexadecimal key: in an
    opened store, [get(k)] for a non-empty key buffer and then [get] of
    the hexadecimal string of [k] return the identical chain. *)
Theorem get_hex_string_deduplicates (this : InnerChainstore.t) (k : Buffer) :
  InnerChainstore.opened this = true ->
  k <> [] ->
  exists chain this1 this2,
    InnerChainstore.get (ArgBuf k) this = (Return chain, this1)
    /\ InnerChainstore.get (ArgStr (toString_hex k)) this1 = (Return chain, this2).
Proof.
  intros Hopen Hk.
  assert (Hkeys : forall s, exists g,
            InnerChainstore._generateKeys (ArgBuf k) s = (Return g, s)
            /\ GeneratedKeys.discoveryKey g = discoveryKey k)
    by (intros s; eexists; split; reflexivity).
  destruct (Hkeys this) as (g & Hg & Hdk).
  destruct (get_returns _ _ _ _ Hopen Hg) as (chain & this1 & Hget & Hcached & _ & Hopen1 & _).
  assert (Hres : resolves_to (ArgStr (toString_hex k)) this1 (encode (discoveryKey k))).
  { destruct (Hkeys this1) as (g1 & Hg1 & Hdk1). exists g1, this1.
    rewrite (generateKeys_hex_string k Hk), Hdk1. auto. }
  rewrite Hdk in Hcached.
  destruct (get_again _ _ _ _ Hopen1 Hres Hcached) as (this2 & Hget2 & _).
  exists chain, this1, this2. auto.
Qed.

Lemma generateKeyPair_named (name : KeyLike) (s : InnerChainstore.t) (n : Buffer) :
  match name with Str x => Buffer_from x = n | Buf b => b = n | Null => False end ->
  InnerChainstore._generateKeyPair name s
  = (Return (derived_keys (InnerChainstore._masterKey s) n), s).
Proof.
  destruct name; intros Hn; [subst n; reflexivity | subst n; reflexivity | contradiction].
Qed.

Lemma generateKeyPair_random (s : InnerChainstore.t) :
  InnerChainstore._generateKeyPair Null s
  = (Return (derived_keys (InnerChainstore._masterKey s)
               (randomBytes (InnerChainstore.drawn s) 32)),
     InnerChainstore.set_drawn (S (InnerChainstore.drawn s)) s).
Proof. reflexivity. Qed.

Lemma generateKeyPair_derived (name : KeyLike) (s s' : InnerChainstore.t)
    (g : GeneratedKeys.t) :
  InnerChainstore._generateKeyPair name s = (Return g, s') ->
  exists n, g = derived_keys (InnerChainstore._masterKey s) n.
Proof.
  destruct name as [b | x |].
  - rewrite (generateKeyPair_named (Buf b) s b eq_refl). intros [= <- _]. eauto.
  - rewrite (generateKeyPair_named (Str x) s _ eq_refl). intros [= <- _]. eauto.
  - rewrite generateKeyPair_random. intros [= <- _]. eauto.
Qed.

(** The keys [_generateKeys] returns are either derived from the master
    key, or carry no name. *)
Lemma generateKeys_shape (chainOpts : GetArg) (s s' : InnerChainstore.t)
    (g : GeneratedKeys.t) :
  InnerChainstore._generateKeys chainOpts s = (Return g, s') ->
  (exists n, g = derived_keys (InnerChainstore._masterKey s) n)
  \/ (GeneratedKeys.name g = None
      /\ (GeneratedKeys.publicKey g = None -> GeneratedKeys.secretKey g = None)
      /\ forall pk, GeneratedKeys.publicKey g = Some pk ->
                    GeneratedKeys.discoveryKey g = discoveryKey pk).
Proof.
  unfold InnerChainstore._generateKeys.
  destruct (ChainOpts.keyPair (InnerChainstore.normalize chainOpts)) as [kp |].
  { intros [= <- _]. right. simpl. repeat split; [discriminate |].
    intros pk [= <-]. reflexivity. }
  destruct (truthy (ChainOpts.key (InnerChainstore.normalize chainOpts))).
  { unfold InnerChainstore.bind, InnerChainstore.lift.
    destruct (InnerChainstore.decodeKey _) as [[b | x |] | e]; simpl;
      try discriminate.
    intros [= <- _]. right. simpl. repeat split. intros pk [= <-]. reflexivity. }
  destruct (ChainOpts.default (InnerChainstore.normalize chainOpts)
            || truthy (ChainOpts.name (InnerChainstore.normalize chainOpts))).
  { destruct (negb _); [discriminate |]. intros Hg. left.
    eapply generateKeyPair_derived. exact Hg. }
  destruct (truthy (ChainOpts.discoveryKey (InnerChainstore.normalize chainOpts))).
  { unfold InnerChainstore.bind, InnerChainstore.lift.
    destruct (InnerChainstore.decodeKey _) as [[b | x |] | e]; simpl;
      try discriminate.
    intros [= <- _]. right. simpl. repeat split. discriminate. }
  intros Hg. left. eapply generateKeyPair_derived. exact Hg.
Qed.

Lemma generateKeys_facts (chainOpts : GetArg) (s s' : InnerChainstore.t)
    (g : GeneratedKeys.t) :
  InnerChainstore._generateKeys chainOpts s = (Return g, s') ->
  (forall pk, GeneratedKeys.publicKey g = Some pk ->
              GeneratedKeys.discoveryKey g = discoveryKey pk)
  /\ (GeneratedKeys.publicKey g = None -> GeneratedKeys.secretKey g = None)
  /\ (forall n, GeneratedKeys.name g = Some n ->
                g = derived_keys (InnerChainstore._masterKey s) n).
Proof.
  intros Hg. destruct (generateKeys_shape chainOpts s s' g Hg)
    as [(n & ->) | (Hname & Hsecret & Hdk)].
  - simpl. repeat split.
    + intros pk [= <-]. reflexivity.
    + discriminate.
    + intros n' [= <-]. reflexivity.
  - repeat split; [exact Hdk | exact Hsecret |].
    intros n Hn. rewrite Hname in Hn. discriminate.
Qed.

(** X2.  Whatever the argument, the keys [_generateKeys] returns are
    consistent: a public key, when there is one, hashes to the discovery
    key; a secret key is never returned without a public key; and a name
    is returned only together with the full key pair derived from it. *)
Theorem generateKeys_consistent (chainOpts : GetArg) (s s' : InnerChainstore.t)
    (g : GeneratedKeys.t) :
  InnerChainstore._generateKeys chainOpts s = (Return g, s') ->
  (forall pk, GeneratedKeys.publicKey g = Some pk ->
              GeneratedKeys.discoveryKey g = discoveryKey pk)
  /\ (GeneratedKeys.publicKey g = None -> GeneratedKeys.secretKey g = None)
  /\ (forall n, GeneratedKeys.name g = Some n ->
                g = derived_keys (InnerChainstore._masterKey s) n).
Proof. apply generateKeys_facts. Qed.

Lemma generateKeys_named (o : ChainOpts.t) (s : InnerChainstore.t) :
  ChainOpts.keyPair o = None ->
  truthy (ChainOpts.key o) = false ->
  truthy (ChainOpts.name o) = true ->
  InnerChainstore._generateKeys (ArgObj o) s
  = (Return (derived_keys (InnerChainstore._masterKey s) (name_bytes (ChainOpts.name o))),
     s).
Proof.
  intros HkeyPair Hkey Hname. unfold InnerChainstore._generateKeys. simpl.
  rewrite HkeyPair, Hkey, Hname, orb_true_r. simpl.
  apply generateKeyPair_named. destruct (ChainOpts.name o); [reflexivity .. | discriminate].
Qed.

(** X3.  Derivation by name is deterministic in the master key: two
    stores with the same master key resolve options that give a name
    (and neither [keyPair] nor [key]) to the same keys, whatever else
    the stores hold, and neither store changes or draws random bytes. *)
Theorem named_keys_deterministic (o : ChainOpts.t) (s1 s2 : InnerChainstore.t) :
  ChainOpts.keyPair o = None ->
  truthy (ChainOpts.key o) = false ->
  truthy (ChainOpts.name o) = true ->
  InnerChainstore._masterKey s1 = InnerChainstore._masterKey s2 ->
  exists g,
    InnerChainstore._generateKeys (ArgObj o) s1 = (Return g, s1)
    /\ InnerChainstore._generateKeys (ArgObj o) s2 = (Return g, s2)
    /\ GeneratedKeys.name g = Some (name_bytes (ChainOpts.name o)).
Proof.
  intros HkeyPair Hkey Hname Hmaster.
  rewrite !generateKeys_named by assumption. rewrite Hmaster.
  eexists. repeat split.
Qed.
End KeyGeneration.

(** ** The key storage of a chain *)

Section KeyStorage.
Context {collaborators : Collaborators}.

Lemma option_Buffer_eqb_spec (a b : Buffer) :
  option_Buffer_eqb (Some a) (Some b) = true <-> a = b.
Proof.
  simpl. destruct (list_eq_dec Byte.byte_eq_dec a b); split; congruence.
Qed.

Lemma keyStorage_callback_named (g : GeneratedKeys.t) (n : Buffer)
    (s : InnerChainstore.t) :
  InnerChainstore.keyStorage_callback g (Some n) s =
    if option_Buffer_eqb (Some (GeneratedKeys.discoveryKey g))
         (Some (GeneratedKeys.discoveryKey
                  (derived_keys (InnerChainstore._masterKey s) n)))
    then cb_ok (derived_keys (InnerChainstore._masterKey s) n)
    else cb_err (Error "Stored an incorrect name.").
Proof.
  unfold InnerChainstore.keyStorage_callback.
  rewrite (generateKeyPair_named (Buf n) s n eq_refl). reflexivity.
Qed.

(** X4.  A derived chain comes back from its name: when [_generateKeys]
    has returned keys with a name, the key storage of the chain, finding
    that name on disk in a store with the same master key, yields exactly
    those keys, secret key included. *)
Theorem stored_name_rehydrates (chainOpts : GetArg) (s s' later : InnerChainstore.t)
    (g : GeneratedKeys.t) (n : Buffer) :
  InnerChainstore._generateKeys chainOpts s = (Return g, s') ->
  GeneratedKeys.name g = Some n ->
  InnerChainstore._masterKey later = InnerChainstore._masterKey s ->
  InnerChainstore.keyStorage_callback g (Some n) later = cb_ok g
  /\ GeneratedKeys.secretKey g <> None.
Proof.
  intros Hg Hname Hmaster.
  destruct (generateKeys_facts chainOpts s s' g Hg) as (_ & _ & Hderived).
  specialize (Hderived n Hname).
  rewrite keyStorage_callback_named, Hmaster, <- Hderived.
  split.
  - destruct (option_Buffer_eqb _ _) eqn:Heq; [reflexivity |].
    assert (Htrue : option_Buffer_eqb (Some (GeneratedKeys.discoveryKey g))
                      (Some (GeneratedKeys.discoveryKey g)) = true)
      by (apply option_Buffer_eqb_spec; reflexivity).
    congruence.
  - rewrite Hderived. discriminate.
Qed.

(** X5.  The key storage never opens a chain under a name that belongs
    to another chain: with a name on disk, it yields keys exactly when
    the keys derived from that name have the expected discovery key, and
    then yields those derived keys; otherwise it fails with the
    wrong-name error, which is not flagged as an unknown key pair. *)
Theorem stored_name_is_checked (g : GeneratedKeys.t) (n : Buffer)
    (s : InnerChainstore.t) :
  (GeneratedKeys.discoveryKey (derived_keys (InnerChainstore._masterKey s) n)
   = GeneratedKeys.discoveryKey g ->
   InnerChainstore.keyStorage_callback g (Some n) s
   = cb_ok (derived_keys (InnerChainstore._masterKey s) n))
  /\ (GeneratedKeys.discoveryKey (derived_keys (InnerChainstore._masterKey s) n)
      <> GeneratedKeys.discoveryKey g ->
      exists e, InnerChainstore.keyStorage_callback g (Some n) s = cb_err e
                /\ message e = "Stored an incorrect name."
                /\ unknownKeyPair e = false).
Proof.
  rewrite keyStorage_callback_named. split; intros Hdk.
  - destruct (option_Buffer_eqb _ _) eqn:Heq; [reflexivity |].
    assert (Htrue : option_Buffer_eqb (Some (GeneratedKeys.discoveryKey g))
              (Some (GeneratedKeys.discoveryKey
                       (derived_keys (InnerChainstore._masterKey s) n))) = true)
      by (apply option_Buffer_eqb_spec; congruence).
    congruence.
  - destruct (option_Buffer_eqb _ _) eqn:Heq.
    + apply option_Buffer_eqb_spec in Heq. congruence.
    + eexists. repeat split.
Qed.

(** X6.  With no name on disk, the key storage fails exactly when the
    resolver knew no public key, and then with the error flagged as an
    unknown key pair; with a public key it yields that key, and a secret
    key only if the caller supplied one. *)
Theorem unnamed_keys (chainOpts : GetArg) (s s' later : InnerChainstore.t)
    (g : GeneratedKeys.t) :
  InnerChainstore._generateKeys chainOpts s = (Return g, s') ->
  match GeneratedKeys.publicKey g with
  | None =>
      exists e, InnerChainstore.keyStorage_callback g None later = cb_err e
                /\ unknownKeyPair e = true
  | Some pk =>
      exists res, InnerChainstore.keyStorage_callback g None later = cb_ok res
                  /\ GeneratedKeys.publicKey res = Some pk
                  /\ GeneratedKeys.secretKey res = GeneratedKeys.secretKey g
  end.
Proof.
  intros Hg. destruct (generateKeys_facts chainOpts s s' g Hg) as (_ & Hsecret & _).
  unfold InnerChainstore.keyStorage_callback.
  destruct (GeneratedKeys.publicKey g) as [pk |] eqn:Hpk.
  - destruct (GeneratedKeys.secretKey g) as [sk |] eqn:Hsk; simpl.
    + exists g. auto.
    + eexists. repeat split.
  - rewrite (Hsecret eq_refl). simpl. eexists. split; reflexivity.
Qed.
End KeyStorage.

(** ** Before the store is opened *)

Section NotOpened.
Context {collaborators : Collaborators}.

Lemma get_not_opened (chainOpts : GetArg) (this : InnerChainstore.t) :
  InnerChainstore.opened this = false ->
  InnerChainstore.get chainOpts this
  = (Throw (Error "Chainstore.ready must be called before get."), this).
Proof.
  intros Hclosed. unfold InnerChainstore.get, InnerChainstore.bind, InnerChainstore.gets.
  rewrite Hclosed. reflexivity.
Qed.

(** [open] reports an error or sets [opened], never both. *)
Lemma open_outcome (this this' : InnerChainstore.t) (err : option JSError) :
  InnerChainstore.opened this = false ->
  InnerChainstore.open this = (err, this') ->
  InnerChainstore.opened this' = match err with Some _ => false | None => true end.
Proof.
  intros Hclosed. unfold InnerChainstore.open. rewrite Hclosed.
  destruct (InnerChainstore._open this) as [[e |] s] eqn:Hopen; intros [= <- <-].
  - unfold InnerChainstore._open in Hopen.
    destruct (InnerChainstore._masterKey this); [discriminate |].
    destruct (ra_stat _) as [e0 | size].
    + destruct (code e0) as [c |].
      * destruct (String.eqb c "ENOENT").
        -- destruct (ra_write _ _ _); injection Hopen as _ <-; exact Hclosed.
        -- injection Hopen as _ <-. exact Hclosed.
      * injection Hopen as _ <-. exact Hclosed.
    + destruct (size <? 32)%nat.
      * destruct (ra_write _ _ _); injection Hopen as _ <-; exact Hclosed.
      * destruct (ra_read _ _ _); injection Hopen as _ <-; exact Hclosed.
  - reflexivity.
Qed.

(** X7.  A store whose [open] failed stays closed: every [get],
    [default] included, through any view then throws the not-opened
    error, before it looks at its argument, and changes nothing. *)
Theorem get_after_failed_open (this this' : InnerChainstore.t) (err : JSError)
    (V : Chainstore.t) (chainOpts : GetArg) :
  InnerChainstore.opened this = false ->
  InnerChainstore.open this = (Some err, this') ->
  Chainstore.get V chainOpts this'
  = (Throw (Error "Chainstore.ready must be called before get."), this')
  /\ Chainstore.default V chainOpts this'
     = (Throw (Error "Chainstore.ready must be called before get."), this').
Proof.
  intros Hclosed Hopen.
  pose proof (open_outcome this this' (Some err) Hclosed Hopen) as Hstill.
  simpl in Hstill.
  assert (Hget : forall x, Chainstore.get V x this'
            = (Throw (Error "Chainstore.ready must be called before get."), this')).
  { intros x. unfold Chainstore.get. unfold InnerChainstore.bind at 1.
    rewrite get_not_opened by exact Hstill. reflexivity. }
  split; [apply Hget | unfold Chainstore.default; apply Hget].
Qed.

(** X8.  [open] fails on a storage error other than [ENOENT] without
    generating a master key; on [ENOENT] or a key file shorter than 32
    bytes it draws 32 random bytes as the master key; on a key file of
    at least 32 bytes it draws nothing and takes what it reads.  A store
    that has its master key already opens whatever the storage holds. *)
Theorem open_master_key (this : InnerChainstore.t) :
  InnerChainstore.opened this = false ->
  let keyStorage := InnerChainstore.storage this InnerChainstore.MASTER_KEY_FILENAME in
  let after := snd (InnerChainstore.open this) in
  (forall key, InnerChainstore._masterKey this = Some key ->
     InnerChainstore.open this = (None, InnerChainstore.set_opened true this))
  /\ (InnerChainstore._masterKey this = None ->
      (forall err, ra_stat keyStorage = inl err -> code err <> Some "ENOENT" ->
         InnerChainstore.open this = (Some err, this))
      /\ (forall err, ra_stat keyStorage = inl err -> code err = Some "ENOENT" ->
            InnerChainstore._masterKey after
            = Some (randomBytes (InnerChainstore.drawn this) 32))
      /\ (forall size, ra_stat keyStorage = inr size -> (size < 32)%nat ->
            InnerChainstore._masterKey after
            = Some (randomBytes (InnerChainstore.drawn this) 32))
      /\ (forall size, ra_stat keyStorage = inr size -> (32 <= size)%nat ->
            InnerChainstore.drawn after = InnerChainstore.drawn this
            /\ forall key, ra_read keyStorage 0 32 = inr key ->
                 InnerChainstore._masterKey after = key)).
Proof.
  intros Hclosed keyStorage after. subst after.
  unfold InnerChainstore.open, InnerChainstore._open. rewrite Hclosed.
  fold keyStorage. split.
  - intros key Hkey. rewrite Hkey. reflexivity.
  - intros Hnone. rewrite Hnone. split; [| split; [| split]].
    + intros err Hstat Hcode. rewrite Hstat.
      destruct (code err) as [c |]; [| reflexivity].
      destruct (String.eqb_spec c "ENOENT") as [-> | _]; [congruence | reflexivity].
    + intros err Hstat Hcode. rewrite Hstat, Hcode. simpl.
      destruct (ra_write keyStorage _ _); [reflexivity |].
      destruct (ra_close keyStorage); reflexivity.
    + intros size Hstat Hsize. rewrite Hstat.
      apply Nat.ltb_lt in Hsize. rewrite Hsize.
      destruct (ra_write keyStorage _ _); [reflexivity |].
      destruct (ra_close keyStorage); reflexivity.
    + intros size Hstat Hsize. rewrite Hstat.
      apply Nat.ltb_ge in Hsize. rewrite Hsize. split.
      * destruct (ra_read keyStorage 0 32); [reflexivity |].
        destruct (ra_close keyStorage); reflexivity.
      * intros key Hread. rewrite Hread.
        destruct (ra_close keyStorage); reflexivity.
Qed.
End NotOpened.

(** ** What the store holds *)

Section Loaded.
Context {collaborators : Collaborators}.

Lemma isLoaded_eq (chainOpts : GetArg) (this : InnerChainstore.t) :
  InnerChainstore.isLoaded chainOpts this =
    match InnerChainstore._generateKeys chainOpts this with
    | (Return g, this1) =>
        (Return (RefPool.has (InnerChainstore.cache this)
                   (KStr (encode (GeneratedKeys.discoveryKey g)))), this1)
    | (Throw e, this1) => (Throw e, this1)
    end.
Proof.
  unfold InnerChainstore.isLoaded, InnerChainstore.bind.
  destruct (generateKeys_frame chainOpts this) as (Hcache & _).
  destruct (InnerChainstore._generateKeys chainOpts this) as [[g | e] this1];
    [| reflexivity].
  simpl in Hcache. unfold InnerChainstore.gets, InnerChainstore.ret. simpl.
  rewrite Hcache. reflexivity.
Qed.

Lemma has_cached_at (s : InnerChainstore.t) (id : Key) :
  RefPool.has (InnerChainstore.cache s) id
  = match cached_at s id with Some _ => true | None => false end.
Proof.
  unfold RefPool.has, Map_has, cached_at, RefPool.entry.
  destruct (Map_get _ id); reflexivity.
Qed.

(** X9.  [isLoaded] only looks: whatever its argument, it leaves the
    cache as it found it, entries, reference counts and LRU positions
    alike, and in a store whose cache is empty it never answers [true]. *)
Theorem isLoaded_only_looks (chainOpts : GetArg) (this : InnerChainstore.t) :
  InnerChainstore.cache (snd (InnerChainstore.isLoaded chainOpts this))
  = InnerChainstore.cache this
  /\ (RefPool.size (InnerChainstore.cache this) = 0%nat ->
      fst (InnerChainstore.isLoaded chainOpts this) <> Return true).
Proof.
  rewrite isLoaded_eq.
  destruct (generateKeys_frame chainOpts this) as (Hcache & _).
  destruct (InnerChainstore._generateKeys chainOpts this) as [[g | e] this1];
    simpl in *; (split; [exact Hcache |]); intros Hempty; [| discriminate].
  unfold RefPool.size, Map_size in Hempty.
  unfold RefPool.has, Map_has.
  destruct (RefPool.entries (InnerChainstore.cache this)); [| discriminate].
  simpl. discriminate.
Qed.

(** X10.  Once [get] has returned a chain for some key material, the
    chain is loaded under every equivalent shape of that material, and
    [_checkIfExists] answers [true] for its discovery key without
    reading the storage, whatever the storage holds. *)
Theorem loaded_after_get (this : InnerChainstore.t) (k sk : Buffer) (x y : GetArg) :
  InnerChainstore.opened this = true ->
  In x (equivalent_key_material k sk) ->
  In y (equivalent_key_material k sk) ->
  exists chain this1,
    InnerChainstore.get x this = (Return chain, this1)
    /\ InnerChainstore.isLoaded y this1 = (Return true, this1)
    /\ InnerChainstore._checkIfExists (Buf (discoveryKey k)) this1 = Return (cb_ok true).
Proof.
  intros Hopen Hx Hy.
  destruct (generateKeys_equivalent k sk x this Hx) as (gx & Hgx & Hdk).
  destruct (get_returns x this this gx Hopen Hgx)
    as (chain & this1 & Hget & Hcached & _).
  rewrite Hdk in Hcached.
  exists chain, this1. split; [exact Hget |].
  assert (Hhas : RefPool.has (InnerChainstore.cache this1)
                   (KStr (encode (discoveryKey k))) = true)
    by (rewrite has_cached_at, Hcached; reflexivity).
  split.
  - rewrite isLoaded_eq.
    destruct (generateKeys_equivalent k sk y this1 Hy) as (g & -> & ->).
    rewrite Hhas. reflexivity.
  - unfold InnerChainstore._checkIfExists. simpl. rewrite Hhas. reflexivity.
Qed.
End Loaded.

(** ** The events of a chain *)

Section ChainEvents.
Context {collaborators : Collaborators}.

Lemma find_update_chain (uid : nat) (f : ChainState -> ChainState)
    (this : InnerChainstore.t) :
  (forall cs, cs_chain (f cs) = cs_chain cs) ->
  InnerChainstore.find_chain uid (InnerChainstore.update_chain uid f this)
  = option_map f (InnerChainstore.find_chain uid this).
Proof.
  intros Hf. unfold InnerChainstore.find_chain, InnerChainstore.update_chain. simpl.
  induction (InnerChainstore.chains this) as [| cs l IH]; simpl; [reflexivity |].
  destruct (chain_uid (cs_chain cs) =? uid)%nat eqn:Huid.
  - rewrite Hf, Huid. reflexivity.
  - rewrite Huid. exact IH.
Qed.

Lemma inject_fold (chain : Chain) (streams : list StreamState)
    (this : InnerChainstore.t) :
  let after :=
    fold_left
      (fun this' st =>
         InnerChainstore._replicateChain false (Some chain) (stream st)
           (stream_opts st) this')
      streams this in
  InnerChainstore.chains after = InnerChainstore.chains this
  /\ InnerChainstore.emitted after = InnerChainstore.emitted this
  /\ InnerChainstore.cache after = InnerChainstore.cache this
  /\ InnerChainstore._replicationStreams after = InnerChainstore._replicationStreams this
  /\ InnerChainstore.replicating after
     = InnerChainstore.replicating this ++ map (injection chain) streams.
Proof.
  revert this. induction streams as [| st streams IH]; intros this; cbv zeta;
    cbn [fold_left map].
  - rewrite app_nil_r. repeat split.
  - destruct (IH (InnerChainstore._replicateChain false (Some chain) (stream st)
                    (stream_opts st) this)) as (Hc & He & Hca & Hs & Hr).
    rewrite Hc, He, Hca, Hs, Hr. simpl. rewrite <- app_assoc. repeat split.
Qed.

Lemma inject_fields (chain : Chain) (this : InnerChainstore.t) :
  InnerChainstore.chains (InnerChainstore._injectIntoReplicationStreams chain this)
  = InnerChainstore.chains this
  /\ InnerChainstore.emitted (InnerChainstore._injectIntoReplicationStreams chain this)
     = InnerChainstore.emitted this
  /\ InnerChainstore.cache (InnerChainstore._injectIntoReplicationStreams chain this)
     = InnerChainstore.cache this
  /\ InnerChainstore._replicationStreams
       (InnerChainstore._injectIntoReplicationStreams chain this)
     = InnerChainstore._replicationStreams this
  /\ InnerChainstore.replicating (InnerChainstore._injectIntoReplicationStreams chain this)
     = InnerChainstore.replicating this
       ++ map (injection chain) (InnerChainstore._replicationStreams this).
Proof.
  apply (inject_fold chain (InnerChainstore._replicationStreams this) this).
Qed.

(** The record of a chain once [ready] has run its listener. *)
Lemma ready_record (uid : nat) (this : InnerChainstore.t) (cs : ChainState) :
  InnerChainstore.find_chain uid this = Some cs ->
  on_ready cs = true ->
  errored cs = false ->
  InnerChainstore.find_chain uid (InnerChainstore.chain_emits_ready uid this)
  = Some {| cs_chain := cs_chain cs; cs_id := cs_id cs;
            cs_chainOpts := cs_chainOpts cs;
            ifAvailable := ifAvailable cs - 1; errored := false;
            on_error := false; on_ready := false; on_close := on_close cs |}.
Proof.
  intros Hfind Hready Herrored.
  assert (Huid : chain_uid (cs_chain cs) = uid).
  { unfold InnerChainstore.find_chain in Hfind. apply find_some in Hfind.
    destruct Hfind as [_ H]. apply Nat.eqb_eq in H. exact H. }
  unfold InnerChainstore.chain_emits_ready. rewrite Hfind, Hready.
  unfold InnerChainstore.onready. rewrite Herrored, Huid.
  rewrite find_update_chain by reflexivity.
  unfold InnerChainstore.find_chain.
  destruct (inject_fields (cs_chain cs)
              (InnerChainstore.update_chain uid
                 (fun s => InnerChainstore.with_listeners s false (on_ready s) (on_close s))
                 (InnerChainstore.emit (emit_feed (cs_chain cs) (cs_chainOpts cs))
                    (InnerChainstore.update_chain uid
                       (fun s => InnerChainstore.with_listeners s (on_error s) false
                                   (on_close s)) this)))) as (Hchains & _).
  rewrite Hchains.
  change (find (fun cs0 => (chain_uid (cs_chain cs0) =? uid)%nat)
            (InnerChainstore.chains ?s)) with (InnerChainstore.find_chain uid s).
  rewrite find_update_chain by reflexivity.
  change (InnerChainstore.find_chain uid (InnerChainstore.emit ?e ?s))
    with (InnerChainstore.find_chain uid s).
  rewrite find_update_chain by reflexivity.
  rewrite Hfind. simpl. rewrite Herrored. reflexivity.
Qed.

(** X11.  When a chain [get] has instantiated becomes ready, the store
    emits [feed] once, with the chain and the options [get] was called
    with, and asks the chain to replicate, not as initiator, on every
    peer stream then registered, in their order; the cache is left
    alone.  From then on the store's listeners are gone: a second
    [ready] and any later error of the chain change nothing, so a chain
    that fails after it was ready stays in the cache. *)
Theorem ready_feeds_and_injects (uid : nat) (this : InnerChainstore.t) (cs : ChainState) :
  InnerChainstore.find_chain uid this = Some cs ->
  on_ready cs = true ->
  errored cs = false ->
  let after := InnerChainstore.chain_emits_ready uid this in
  InnerChainstore.emitted after
  = InnerChainstore.emitted this ++ [emit_feed (cs_chain cs) (cs_chainOpts cs)]
  /\ InnerChainstore.replicating after
     = InnerChainstore.replicating this
       ++ map (injection (cs_chain cs)) (InnerChainstore._replicationStreams this)
  /\ InnerChainstore.cache after = InnerChainstore.cache this
  /\ InnerChainstore.chain_emits_ready uid after = after
  /\ forall err, InnerChainstore.chain_emits_error uid err after = after.
Proof.
  intros Hfind Hready Herrored after.
  pose proof (ready_record uid this cs Hfind Hready Herrored) as Hrecord.
  fold after in Hrecord.
  assert (Huid : chain_uid (cs_chain cs) = uid).
  { unfold InnerChainstore.find_chain in Hfind. apply find_some in Hfind.
    destruct Hfind as [_ H]. apply Nat.eqb_eq in H. exact H. }
  split; [| split; [| split; [| split]]].
  - subst after. unfold InnerChainstore.chain_emits_ready. rewrite Hfind, Hready.
    unfold InnerChainstore.onready. rewrite Herrored. simpl.
    destruct (inject_fields (cs_chain cs)
                (InnerChainstore.update_chain (chain_uid (cs_chain cs))
                   (fun s => InnerChainstore.with_listeners s false (on_ready s) (on_close s))
                   (InnerChainstore.emit (emit_feed (cs_chain cs) (cs_chainOpts cs))
                      (InnerChainstore.update_chain uid
                         (fun s => InnerChainstore.with_listeners s (on_error s) false
                                     (on_close s)) this)))) as (_ & He & _).
    rewrite He. reflexivity.
  - subst after. unfold InnerChainstore.chain_emits_ready. rewrite Hfind, Hready.
    unfold InnerChainstore.onready. rewrite Herrored. simpl.
    destruct (inject_fields (cs_chain cs)
                (InnerChainstore.update_chain (chain_uid (cs_chain cs))
                   (fun s => InnerChainstore.with_listeners s false (on_ready s) (on_close s))
                   (InnerChainstore.emit (emit_feed (cs_chain cs) (cs_chainOpts cs))
                      (InnerChainstore.update_chain uid
                         (fun s => InnerChainstore.with_listeners s (on_error s) false
                                     (on_close s)) this)))) as (_ & _ & _ & _ & Hr).
    rewrite Hr. reflexivity.
  - subst after. unfold InnerChainstore.chain_emits_ready. rewrite Hfind, Hready.
    unfold InnerChainstore.onready. rewrite Herrored. simpl.
    destruct (inject_fields (cs_chain cs)
                (InnerChainstore.update_chain (chain_uid (cs_chain cs))
                   (fun s => InnerChainstore.with_listeners s false (on_ready s) (on_close s))
                   (InnerChainstore.emit (emit_feed (cs_chain cs) (cs_chainOpts cs))
                      (InnerChainstore.update_chain uid
                         (fun s => InnerChainstore.with_listeners s (on_error s) false
                                     (on_close s)) this)))) as (_ & _ & Hca & _).
    rewrite Hca. reflexivity.
  - unfold InnerChainstore.chain_emits_ready at 1. rewrite Hrecord. reflexivity.
  - intros err. unfold InnerChainstore.chain_emits_error. rewrite Hrecord. reflexivity.
Qed.
End ChainEvents.

(** ** The cache is a map *)

Section UniqueKeys.
Variable V : Type.

Lemma Map_has_set (m : JSMap V) (k j : Key) (v : V) :
  Map_has (Map_set m k v) j = sameValueZero k j || Map_has m j.
Proof.
  unfold Map_has. rewrite Map_get_set. destruct (sameValueZero k j); reflexivity.
Qed.

Lemma unique_keys_set (m : JSMap V) (k : Key) (v : V) :
  unique_keys m = true -> unique_keys (Map_set m k v) = true.
Proof.
  induction m as [| [a va] m IH]; simpl; [reflexivity |].
  intros Hunique. apply andb_true_iff in Hunique. destruct Hunique as [Hfresh Hrest].
  destruct (sameValueZero a k) eqn:Hak; simpl.
  - rewrite Hfresh, Hrest. reflexivity.
  - rewrite Map_has_set, (sameValueZero_sym k a), Hak, (IH Hrest). simpl.
    rewrite Hfresh. reflexivity.
Qed.

Lemma Map_has_delete (m : JSMap V) (k j : Key) :
  Map_has (Map_delete m k) j = true -> Map_has m j = true.
Proof.
  unfold Map_has. induction m as [| [a va] m IH]; simpl; [discriminate |].
  destruct (sameValueZero a k); simpl.
  - intros Hj. destruct (sameValueZero a j); [reflexivity | exact Hj].
  - destruct (sameValueZero a j); [reflexivity | exact IH].
Qed.

Lemma unique_keys_delete (m : JSMap V) (k : Key) :
  unique_keys m = true -> unique_keys (Map_delete m k) = true.
Proof.
  induction m as [| [a va] m IH]; simpl; [reflexivity |].
  intros Hunique. apply andb_true_iff in Hunique. destruct Hunique as [Hfresh Hrest].
  destruct (sameValueZero a k); [exact Hrest |].
  simpl. rewrite (IH Hrest), andb_true_r.
  destruct (Map_has (Map_delete m k) a) eqn:Hhas; [| reflexivity].
  apply Map_has_delete in Hhas. rewrite Hhas in Hfresh. discriminate.
Qed.

(** In a map, [delete] leaves nothing at the key. *)
Lemma Map_get_delete_same (m : JSMap V) (k j : Key) :
  unique_keys m = true ->
  sameValueZero k j = true ->
  Map_get (Map_delete m k) j = None.
Proof.
  intros Hunique Hkj. induction m as [| [a va] m IH]; simpl; [reflexivity |].
  simpl in Hunique. apply andb_true_iff in Hunique. destruct Hunique as [Hfresh Hrest].
  assert (Haj : sameValueZero a k = sameValueZero a j).
  { rewrite (sameValueZero_sym a k), (sameValueZero_sym a j).
    apply sameValueZero_trans. exact Hkj. }
  destruct (sameValueZero a k) eqn:Hak.
  - apply negb_true_iff in Hfresh. unfold Map_has in Hfresh.
    rewrite <- (Map_get_same V m a j (eq_sym Haj)).
    destruct (Map_get m a); [discriminate | reflexivity].
  - simpl. rewrite <- Haj. apply IH. exact Hrest.
Qed.

Lemma unique_keys_In (m : JSMap V) (k : Key) (v : V) :
  unique_keys m = true ->
  In (k, v) m ->
  sameValueZero k k = true ->
  Map_get m k = Some v.
Proof.
  intros Hunique Hin Hkk. induction m as [| [a va] m IH]; simpl; [contradiction |].
  simpl in Hunique. apply andb_true_iff in Hunique. destruct Hunique as [Hfresh Hrest].
  destruct Hin as [[= -> ->] | Hin].
  - rewrite Hkk. reflexivity.
  - specialize (IH Hrest Hin).
    destruct (sameValueZero a k) eqn:Hak; [| exact IH].
    apply negb_true_iff in Hfresh. unfold Map_has in Hfresh.
    rewrite (Map_get_same V m a k Hak), IH in Hfresh. discriminate.
Qed.
End UniqueKeys.

Section PoolInvariant.
Context {collaborators : Collaborators}.

Lemma oldest_unreferenced_In (skip k : Key) (m : JSMap (RefPool.Entry Chain))
    (e : RefPool.Entry Chain) :
  RefPool.oldest_unreferenced skip m = Some (k, e) ->
  In (k, e) m /\ RefPool.refs e = 0%Z.
Proof.
  revert k e. induction m as [| [a ea] m IH]; intros k e; simpl; [discriminate |].
  destruct ((RefPool.refs ea =? 0)%Z && negb (sameValueZero a skip)) eqn:Hcand.
  - apply andb_true_iff in Hcand. destruct Hcand as [Hzero _].
    apply Z.eqb_eq in Hzero.
    destruct (RefPool.oldest_unreferenced skip m) as [[k2 e2] |].
    + destruct (RefPool.lru_position e2 <? RefPool.lru_position ea)%nat.
      * intros [= <- <-]. destruct (IH k2 e2 eq_refl). auto.
      * intros [= <- <-]. auto.
    + intros [= <- <-]. auto.
  - intros Hrest. destruct (IH k e Hrest). auto.
Qed.

Lemma unique_pool_get (p : RefPool.t Chain) (id : Key) :
  unique_keys (RefPool.entries p) = true ->
  unique_keys (RefPool.entries (fst (RefPool.get p id))) = true.
Proof.
  intros Hunique. unfold RefPool.get. destruct (RefPool.entry p id); [| exact Hunique].
  simpl. apply unique_keys_set. exact Hunique.
Qed.

Lemma unique_pool_set (p : RefPool.t Chain) (id : Key) (v : Chain) :
  unique_keys (RefPool.entries p) = true ->
  unique_keys (RefPool.entries (fst (RefPool.set p id v))) = true.
Proof.
  intros Hunique. unfold RefPool.set.
  destruct (_ <? _)%nat; [| simpl; apply unique_keys_set; exact Hunique].
  destruct (RefPool.oldest_unreferenced _ _) as [[k old] |]; simpl.
  - apply unique_keys_delete, unique_keys_set. exact Hunique.
  - apply unique_keys_set. exact Hunique.
Qed.

Lemma unique_pool_adjust (p : RefPool.t Chain) (id : Key) (d : Z) :
  unique_keys (RefPool.entries p) = true ->
  unique_keys (RefPool.entries (RefPool.adjust p id d)) = true.
Proof.
  intros Hunique. unfold RefPool.adjust. destruct (RefPool.entry p id); [| exact Hunique].
  simpl. apply unique_keys_set. exact Hunique.
Qed.

(** [set] for an absent id keeps every entry that is referenced. *)
Lemma pool_set_keeps_pinned (p : RefPool.t Chain) (s : string) (v : Chain)
    (j : Key) (e : RefPool.Entry Chain) :
  unique_keys (RefPool.entries p) = true ->
  RefPool.entry p (KStr s) = None ->
  RefPool.entry p j = Some e ->
  RefPool.refs e <> 0%Z ->
  RefPool.entry (fst (RefPool.set p (KStr s) v)) j = Some e.
Proof.
  intros Hunique Hmiss Hj Hpinned.
  assert (Hsj : sameValueZero (KStr s) j = false).
  { destruct (sameValueZero (KStr s) j) eqn:Hsame; [| reflexivity].
    unfold RefPool.entry in *. rewrite (Map_get_same _ _ _ _ Hsame), Hj in Hmiss.
    discriminate. }
  unfold RefPool.set.
  set (new := {| RefPool.value := v; RefPool.refs := 0%Z;
                 RefPool.lru_position := RefPool.clock p |}).
  set (p1 := {| RefPool.maxSize := RefPool.maxSize p;
                RefPool.entries := Map_set (RefPool.entries p) (KStr s) new;
                RefPool.clock := S (RefPool.clock p) |}).
  assert (Hp1 : RefPool.entry p1 j = Some e).
  { unfold RefPool.entry. simpl. rewrite Map_get_set, Hsj. exact Hj. }
  assert (Hu1 : unique_keys (RefPool.entries p1) = true)
    by (apply unique_keys_set; exact Hunique).
  destruct (RefPool.maxSize p1 <? RefPool.size p1)%nat; [| exact Hp1].
  destruct (RefPool.oldest_unreferenced (KStr s) (RefPool.entries p1))
    as [[k old] |] eqn:Hold; [| exact Hp1].
  destruct (oldest_unreferenced_In _ _ _ _ Hold) as [Hin Hzero].
  simpl. unfold RefPool.entry, RefPool.delete. simpl.
  destruct (sameValueZero k j) eqn:Hkj.
  - exfalso. assert (Hkk : sameValueZero k k = true).
    { rewrite (sameValueZero_trans k j k Hkj), sameValueZero_sym. exact Hkj. }
    pose proof (unique_keys_In _ _ k old Hu1 Hin Hkk) as Hk.
    unfold RefPool.entry in Hp1. rewrite (Map_get_same _ _ _ _ Hkj), Hp1 in Hk.
    injection Hk as ->. contradiction.
  - rewrite Map_get_delete_other by exact Hkj. exact Hp1.
Qed.
End PoolInvariant.

(** ** More facts about [get] *)

Section GetFacts2.
Context {collaborators : Collaborators}.

Lemma generateKeyPair_state (name : KeyLike) (s : InnerChainstore.t) :
  snd (InnerChainstore._generateKeyPair name s) = s
  \/ snd (InnerChainstore._generateKeyPair name s)
     = InnerChainstore.set_drawn (S (InnerChainstore.drawn s)) s.
Proof. destruct name; [left | left | right]; reflexivity. Qed.

(** Key generation changes the count of random draws at most. *)
Lemma generateKeys_state (chainOpts : GetArg) (s : InnerChainstore.t) :
  snd (InnerChainstore._generateKeys chainOpts s) = s
  \/ snd (InnerChainstore._generateKeys chainOpts s)
     = InnerChainstore.set_drawn (S (InnerChainstore.drawn s)) s.
Proof.
  unfold InnerChainstore._generateKeys.
  destruct (ChainOpts.keyPair (InnerChainstore.normalize chainOpts)); [left; reflexivity |].
  destruct (truthy (ChainOpts.key (InnerChainstore.normalize chainOpts))).
  { unfold InnerChainstore.bind, InnerChainstore.lift.
    destruct (InnerChainstore.decodeKey _) as [[b | x |] | e]; left; reflexivity. }
  destruct (ChainOpts.default (InnerChainstore.normalize chainOpts)
            || truthy (ChainOpts.name (InnerChainstore.normalize chainOpts))).
  { destruct (negb _); [left; reflexivity | apply generateKeyPair_state]. }
  destruct (truthy (ChainOpts.discoveryKey (InnerChainstore.normalize chainOpts))).
  { unfold InnerChainstore.bind, InnerChainstore.lift.
    destruct (InnerChainstore.decodeKey _) as [[b | x |] | e]; left; reflexivity. }
  apply generateKeyPair_state.
Qed.

Lemma generateKeys_fields (chainOpts : GetArg) (s s' : InnerChainstore.t)
    (r : Completion GeneratedKeys.t) :
  InnerChainstore._generateKeys chainOpts s = (r, s') ->
  InnerChainstore.cache s' = InnerChainstore.cache s
  /\ InnerChainstore.chains s' = InnerChainstore.chains s
  /\ InnerChainstore.allocated s' = InnerChainstore.allocated s
  /\ InnerChainstore.opened s' = InnerChainstore.opened s
  /\ InnerChainstore.emitted s' = InnerChainstore.emitted s
  /\ InnerChainstore.replicating s' = InnerChainstore.replicating s
  /\ InnerChainstore._replicationStreams s' = InnerChainstore._replicationStreams s
  /\ InnerChainstore.closing s' = InnerChainstore.closing s.
Proof.
  intros Hkeys. destruct (generateKeys_state chainOpts s) as [Hs | Hs];
    rewrite Hkeys in Hs; simpl in Hs; subst s'; repeat split.
Qed.

Lemma get_keys_throw (chainOpts : GetArg) (this this1 : InnerChainstore.t) (e : JSError) :
  InnerChainstore.opened this = true ->
  InnerChainstore._generateKeys chainOpts this = (Throw e, this1) ->
  InnerChainstore.get chainOpts this = (Throw e, this1).
Proof.
  intros Hopen Hkeys.
  unfold InnerChainstore.get, InnerChainstore.bind, InnerChainstore.gets.
  rewrite Hopen. simpl. rewrite Hkeys. reflexivity.
Qed.

Lemma get_returned (chainOpts : GetArg) (this s' : InnerChainstore.t) (chain : Chain) :
  InnerChainstore.get chainOpts this = (Return chain, s') ->
  InnerChainstore.opened this = true
  /\ exists g this1, InnerChainstore._generateKeys chainOpts this = (Return g, this1).
Proof.
  intros Hget. destruct (InnerChainstore.opened this) eqn:Hopen.
  - split; [reflexivity |].
    destruct (InnerChainstore._generateKeys chainOpts this) as [[g | e] this1] eqn:Hkeys.
    + eauto.
    + rewrite (get_keys_throw chainOpts this this1 e Hopen Hkeys) in Hget. discriminate.
  - rewrite get_not_opened in Hget by exact Hopen. discriminate.
Qed.

(** A miss, in full: the chain built, and what the store then holds. *)
Lemma get_miss_state (chainOpts : GetArg) (this this1 : InnerChainstore.t)
    (g : GeneratedKeys.t) :
  InnerChainstore.opened this = true ->
  InnerChainstore._generateKeys chainOpts this = (Return g, this1) ->
  RefPool.entry (InnerChainstore.cache this1)
    (KStr (encode (GeneratedKeys.discoveryKey g))) = None ->
  let id := encode (GeneratedKeys.discoveryKey g) in
  let chain := new_chain g (InnerChainstore.allocated this) in
  exists s',
    InnerChainstore.get chainOpts this = (Return chain, s')
    /\ InnerChainstore.cache s'
       = fst (RefPool.set (InnerChainstore.cache this) (KStr id) chain)
    /\ InnerChainstore.chains s'
       = InnerChainstore.chains this
         ++ [{| cs_chain := chain; cs_id := id; cs_chainOpts := chainOpts;
                ifAvailable := 1; errored := false;
                on_error := true; on_ready := true; on_close := true |}]
    /\ InnerChainstore.allocated s' = S (InnerChainstore.allocated this)
    /\ InnerChainstore.opened s' = true
    /\ InnerChainstore.emitted s' = InnerChainstore.emitted this
    /\ InnerChainstore.replicating s' = InnerChainstore.replicating this
    /\ InnerChainstore._replicationStreams s' = InnerChainstore._replicationStreams this.
Proof.
  intros Hopen Hkeys Hentry id chain. subst chain id. unfold new_chain.
  destruct (generateKeys_fields chainOpts this this1 _ Hkeys)
    as (Hcache & Hchains & Halloc & Hopened & Hemitted & Hrepl & Hstreams & _).
  unfold InnerChainstore.get, InnerChainstore.bind, InnerChainstore.gets.
  rewrite Hopen. simpl. rewrite Hkeys. simpl.
  unfold InnerChainstore.cache_get, RefPool.get. rewrite Hentry. simpl.
  unfold InnerChainstore.cache_set. simpl.
  rewrite Halloc, Hcache.
  destruct (RefPool.set (InnerChainstore.cache this) _ _)
    as [cache' evicted] eqn:Hpool.
  eexists. split; [reflexivity |].
  destruct evicted; simpl; rewrite ?Hchains, ?Hopened, ?Hemitted, ?Hrepl, ?Hstreams;
    repeat split; auto.
Qed.
End GetFacts2.

(** ** A chain that fails or closes *)

Section Forgetting.
Context {collaborators : Collaborators}.

Lemma found_uid (uid : nat) (this : InnerChainstore.t) (cs : ChainState) :
  InnerChainstore.find_chain uid this = Some cs -> chain_uid (cs_chain cs) = uid.
Proof.
  unfold InnerChainstore.find_chain. intros Hfind. apply find_some in Hfind.
  destruct Hfind as [_ H]. apply Nat.eqb_eq in H. exact H.
Qed.

(** What the [error] listener leaves. *)
Lemma error_fields (uid : nat) (err : JSError) (this : InnerChainstore.t)
    (cs : ChainState) :
  InnerChainstore.find_chain uid this = Some cs ->
  on_error cs = true ->
  let after := InnerChainstore.chain_emits_error uid err this in
  InnerChainstore.find_chain uid after
  = Some {| cs_chain := cs_chain cs; cs_id := cs_id cs;
            cs_chainOpts := cs_chainOpts cs;
            ifAvailable := ifAvailable cs - 1; errored := true;
            on_error := false; on_ready := on_ready cs; on_close := on_close cs |}
  /\ InnerChainstore.cache after
     = RefPool.delete (InnerChainstore.cache this) (KStr (cs_id cs))
  /\ InnerChainstore.opened after = InnerChainstore.opened this
  /\ InnerChainstore.allocated after = InnerChainstore.allocated this
  /\ InnerChainstore.emitted after = InnerChainstore.emitted this
  /\ InnerChainstore.replicating after = InnerChainstore.replicating this
  /\ InnerChainstore._masterKey after = InnerChainstore._masterKey this.
Proof.
  intros Hfind Hlistener after. subst after.
  pose proof (found_uid uid this cs Hfind) as Huid.
  unfold InnerChainstore.chain_emits_error. rewrite Hfind, Hlistener.
  unfold InnerChainstore.onerror. rewrite Huid.
  assert (Hsame : forall X : InnerChainstore.t, (if unknownKeyPair err then X else X) = X)
    by (intros X; destruct (unknownKeyPair err); reflexivity).
  rewrite Hsame. split; [| repeat split].
  unfold InnerChainstore.cache_delete.
  change (InnerChainstore.find_chain uid (InnerChainstore.set_cache ?c ?s))
    with (InnerChainstore.find_chain uid s).
  rewrite !find_update_chain by reflexivity. rewrite Hfind. reflexivity.
Qed.

(** What the [close] listener leaves. *)
Lemma close_fields (uid : nat) (this : InnerChainstore.t) (cs : ChainState) :
  InnerChainstore.find_chain uid this = Some cs ->
  on_close cs = true ->
  let after := InnerChainstore.chain_emits_close uid this in
  InnerChainstore.cache after
  = RefPool.delete (InnerChainstore.cache this) (KStr (cs_id cs))
  /\ InnerChainstore.opened after = InnerChainstore.opened this
  /\ InnerChainstore.allocated after = InnerChainstore.allocated this
  /\ InnerChainstore.emitted after = InnerChainstore.emitted this
  /\ InnerChainstore.replicating after = InnerChainstore.replicating this.
Proof.
  intros Hfind Hlistener after. subst after.
  unfold InnerChainstore.chain_emits_close. rewrite Hfind, Hlistener.
  repeat split.
Qed.

(** X12.  The gate [get] holds on a new chain is released exactly once,
    by whichever of [ready] and [error] comes first: after [ready],
    after [error], and after both in either order, one [wait] less is
    outstanding.  A [ready] that comes after an [error] emits no [feed]
    and asks for no replication. *)
Theorem gate_released_once (uid : nat) (err : JSError) (this : InnerChainstore.t)
    (cs : ChainState) :
  InnerChainstore.find_chain uid this = Some cs ->
  on_error cs = true ->
  on_ready cs = true ->
  errored cs = false ->
  let ready := InnerChainstore.chain_emits_ready uid in
  let fail := InnerChainstore.chain_emits_error uid err in
  gate_of uid (ready this) = Some (ifAvailable cs - 1)%Z
  /\ gate_of uid (fail this) = Some (ifAvailable cs - 1)%Z
  /\ gate_of uid (fail (ready this)) = Some (ifAvailable cs - 1)%Z
  /\ gate_of uid (ready (fail this)) = Some (ifAvailable cs - 1)%Z
  /\ InnerChainstore.emitted (ready (fail this)) = InnerChainstore.emitted this
  /\ InnerChainstore.replicating (ready (fail this)) = InnerChainstore.replicating this.
Proof.
  intros Hfind Herror Hready Herrored ready fail. subst ready fail.
  pose proof (ready_record uid this cs Hfind Hready Herrored) as Hr.
  destruct (error_fields uid err this cs Hfind Herror)
    as (He & _ & _ & _ & Hemitted & Hreplicating & _).
  cbv zeta in He, Hemitted, Hreplicating.
  unfold gate_of. split; [rewrite Hr; reflexivity |].
  split; [rewrite He; reflexivity |].
  split.
  { unfold InnerChainstore.chain_emits_error at 1. rewrite Hr. simpl.
    rewrite Hr. reflexivity. }
  assert (Hstate : InnerChainstore.chain_emits_ready uid
                     (InnerChainstore.chain_emits_error uid err this)
                   = InnerChainstore.update_chain uid
                       (fun s => InnerChainstore.with_listeners s (on_error s) false
                                   (on_close s))
                       (InnerChainstore.chain_emits_error uid err this)).
  { unfold InnerChainstore.chain_emits_ready. rewrite He. simpl. rewrite Hready.
    reflexivity. }
  rewrite Hstate. split; [| split].
  - rewrite find_update_chain by reflexivity. rewrite He. reflexivity.
  - exact Hemitted.
  - exact Hreplicating.
Qed.

Lemma find_chain_last (s s' : InnerChainstore.t) (cs : ChainState) :
  Forall (fun c => (chain_uid (cs_chain c) < InnerChainstore.allocated s)%nat)
         (InnerChainstore.chains s) ->
  InnerChainstore.chains s' = InnerChainstore.chains s ++ [cs] ->
  chain_uid (cs_chain cs) = InnerChainstore.allocated s ->
  InnerChainstore.find_chain (InnerChainstore.allocated s) s' = Some cs.
Proof.
  intros Hbelow Hchains Huid. unfold InnerChainstore.find_chain. rewrite Hchains.
  clear Hchains.
  induction (InnerChainstore.chains s) as [| c l IH]; simpl.
  - rewrite Huid, Nat.eqb_refl. reflexivity.
  - inversion Hbelow as [| ? ? Hc Hl]; subst.
    destruct (Nat.eqb_spec (chain_uid (cs_chain c)) (InnerChainstore.allocated s));
      [lia | apply IH; exact Hl].
Qed.

Lemma cached_after_delete (s s2 : InnerChainstore.t) (id : string) :
  unique_keys (RefPool.entries (InnerChainstore.cache s)) = true ->
  InnerChainstore.cache s2 = RefPool.delete (InnerChainstore.cache s) (KStr id) ->
  RefPool.entry (InnerChainstore.cache s2) (KStr id) = None.
Proof.
  intros Hunique ->. unfold RefPool.entry, RefPool.delete. simpl.
  apply Map_get_delete_same; [exact Hunique | apply sameValueZero_KStr].
Qed.

(** X13.  A chain that fails before it is ready, or closes, is
    forgotten: in an opened store whose cache does not hold the chain of
    key [k], [get] builds it; once that chain has emitted [error] (or
    [close]), the cache holds nothing at its id, and the next [get] with
    the same key material builds a new chain, a handle distinct from the
    first, and caches that one. *)
Theorem get_after_failure_builds_anew (this : InnerChainstore.t) (k sk : Buffer)
    (x y : GetArg) (err : JSError) :
  well_formed this ->
  InnerChainstore.opened this = true ->
  In x (equivalent_key_material k sk) ->
  In y (equivalent_key_material k sk) ->
  cached_at this (KStr (encode (discoveryKey k))) = None ->
  exists first s1,
    InnerChainstore.get x this = (Return first, s1)
    /\ forall s2,
         s2 = InnerChainstore.chain_emits_error (chain_uid first) err s1
         \/ s2 = InnerChainstore.chain_emits_close (chain_uid first) s1 ->
         cached_at s2 (KStr (encode (discoveryKey k))) = None
         /\ exists second s3,
              InnerChainstore.get y s2 = (Return second, s3)
              /\ chain_uid second <> chain_uid first
              /\ cached_at s3 (KStr (encode (discoveryKey k))) = Some second.
Proof.
  intros [Hunique Hbelow] Hopen Hx Hy Hmiss.
  destruct (generateKeys_equivalent k sk x this Hx) as (g & Hg & Hdk).
  assert (Hentry : RefPool.entry (InnerChainstore.cache this)
                     (KStr (encode (GeneratedKeys.discoveryKey g))) = None).
  { rewrite Hdk. unfold cached_at in Hmiss.
    destruct (RefPool.entry _ _); [discriminate | reflexivity]. }
  destruct (get_miss_state x this this g Hopen Hg Hentry)
    as (s1 & Hget & Hcache1 & Hchains1 & Halloc1 & Hopen1 & _).
  cbv zeta in Hget, Hcache1, Hchains1. rewrite Hdk in Hcache1, Hchains1.
  exists (new_chain g (InnerChainstore.allocated this)), s1.
  split; [exact Hget |].
  assert (Hfind : InnerChainstore.find_chain (InnerChainstore.allocated this) s1
                  = Some {| cs_chain := new_chain g (InnerChainstore.allocated this);
                            cs_id := encode (discoveryKey k); cs_chainOpts := x;
                            ifAvailable := 1; errored := false;
                            on_error := true; on_ready := true; on_close := true |})
    by (apply (find_chain_last this s1 _ Hbelow Hchains1); reflexivity).
  assert (Hunique1 : unique_keys (RefPool.entries (InnerChainstore.cache s1)) = true)
    by (rewrite Hcache1; apply unique_pool_set; exact Hunique).
  intros s2 Hs2.
  assert (Hs2' : InnerChainstore.cache s2
                 = RefPool.delete (InnerChainstore.cache s1) (KStr (encode (discoveryKey k)))
                 /\ InnerChainstore.opened s2 = true
                 /\ InnerChainstore.allocated s2 = S (InnerChainstore.allocated this)).
  { destruct Hs2 as [-> | ->]; simpl chain_uid.
    - destruct (error_fields _ err s1 _ Hfind eq_refl) as (_ & Hc & Ho & Ha & _).
      cbv zeta in Hc, Ho, Ha. simpl in Hc. rewrite Hc, Ho, Ha. auto.
    - destruct (close_fields _ s1 _ Hfind eq_refl) as (Hc & Ho & Ha & _).
      cbv zeta in Hc, Ho, Ha. simpl in Hc. rewrite Hc, Ho, Ha. auto. }
  destruct Hs2' as (Hcache2 & Hopen2 & Halloc2).
  pose proof (cached_after_delete s1 s2 _ Hunique1 Hcache2) as Hgone.
  split; [unfold cached_at; rewrite Hgone; reflexivity |].
  destruct (generateKeys_equivalent k sk y s2 Hy) as (g2 & Hg2 & Hdk2).
  rewrite <- Hdk2 in Hgone.
  destruct (get_miss_state y s2 s2 g2 Hopen2 Hg2 Hgone)
    as (s3 & Hget2 & Hcache3 & _).
  cbv zeta in Hget2, Hcache3.
  exists (new_chain g2 (InnerChainstore.allocated s2)), s3.
  split; [exact Hget2 |]. split; [simpl; lia |].
  unfold cached_at. rewrite Hcache3, Hdk2.
  destruct (pool_set_entry Chain (InnerChainstore.cache s2) (encode (discoveryKey k))
              (new_chain g2 (InnerChainstore.allocated s2))) as (e & -> & Hv & _).
  simpl. rewrite Hv. reflexivity.
Qed.
End Forgetting.

(** ** What the error of a chain does to the store *)

Section ChainErrorsInFull.
Context {collaborators : Collaborators}.

End ChainErrorsInFull.

(** ** References across [get] *)

Section References.
Context {collaborators : Collaborators}.

(** [get] never evicts a chain that is referenced: whatever the
    argument, a cache entry whose reference count is not zero is still
    in the cache when [get] has returned, with the same chain and the
    same count, also when the cache was full and the call instantiated a
    new chain. *)
Theorem get_keeps_referenced (chainOpts : GetArg) (this s' : InnerChainstore.t)
    (chain : Chain) (j : Key) (e : RefPool.Entry Chain) :
  unique_keys (RefPool.entries (InnerChainstore.cache this)) = true ->
  InnerChainstore.get chainOpts this = (Return chain, s') ->
  RefPool.entry (InnerChainstore.cache this) j = Some e ->
  RefPool.refs e <> 0%Z ->
  refs_of s' j = Some (RefPool.refs e) /\ cached_at s' j = Some (RefPool.value e).
Proof.
  intros Hunique Hget Hj Hpinned.
  destruct (get_returned chainOpts this s' chain Hget) as (Hopen & g & this1 & Hkeys).
  destruct (generateKeys_fields chainOpts this this1 _ Hkeys) as (Hcache & _).
  destruct (RefPool.entry (InnerChainstore.cache this1)
              (KStr (encode (GeneratedKeys.discoveryKey g)))) as [hit |] eqn:Hentry.
  - rewrite (get_hit chainOpts this this1 g hit Hopen Hkeys Hentry) in Hget.
    injection Hget as _ <-. unfold refs_of, cached_at. simpl.
    destruct (pool_get_entry Chain (InnerChainstore.cache this1)
                (KStr (encode (GeneratedKeys.discoveryKey g))) j) as [Hr Hv].
    rewrite Hr, Hv, Hcache, Hj. split; reflexivity.
  - destruct (get_miss_state chainOpts this this1 g Hopen Hkeys Hentry)
      as (s & Hget' & Hcache' & _).
    cbv zeta in Hget', Hcache'. rewrite Hget' in Hget. injection Hget as _ <-.
    rewrite Hcache in Hentry.
    unfold refs_of, cached_at. rewrite Hcache'.
    rewrite (pool_set_keeps_pinned (InnerChainstore.cache this) _ _ j e
               Hunique Hentry Hj Hpinned).
    split; reflexivity.
Qed.

Lemma generateKeys_equivalent_fixed (k sk : Buffer) (chainOpts : GetArg) :
  In chainOpts (equivalent_key_material k sk) ->
  exists g,
    GeneratedKeys.discoveryKey g = discoveryKey k
    /\ forall s, InnerChainstore._generateKeys chainOpts s = (Return g, s).
Proof.
  intros [<- | [<- | [<- | [<- | []]]]]; eexists;
    (split; [| intros s; reflexivity]); reflexivity.
Qed.

(** X14.  A view books a chain once per id and never again: when a
    chain a view got has failed (or closed) and the view gets the same
    key material anew, [get] hands it a new chain, but the view keeps
    the old handle in its owned map and takes no reference on the new
    cache entry, whose count is zero. *)
Theorem view_keeps_first_handle (V : Chainstore.t) (this : InnerChainstore.t)
    (k sk : Buffer) (x : GetArg) (err : JSError) :
  well_formed this ->
  InnerChainstore.opened this = true ->
  In x (equivalent_key_material k sk) ->
  cached_at this (KStr (encode (discoveryKey k))) = None ->
  exists first V1 s1,
    Chainstore.get V x this = (Return (first, V1), s1)
    /\ Map_has (Chainstore._openedChains V1) (owned_id first) = true
    /\ forall s2,
         s2 = InnerChainstore.chain_emits_error (chain_uid first) err s1
         \/ s2 = InnerChainstore.chain_emits_close (chain_uid first) s1 ->
         exists second s3,
           Chainstore.get V1 x s2 = (Return (second, V1), s3)
           /\ chain_uid second <> chain_uid first
           /\ cached_at s3 (KStr (encode (discoveryKey k))) = Some second
           /\ refs_of s3 (KStr (encode (discoveryKey k))) = Some 0%Z.
Proof.
  intros [Hunique Hbelow] Hopen Hx Hmiss.
  destruct (generateKeys_equivalent_fixed k sk x Hx) as (g & Hdk & Hg).
  assert (Hgh : forall s, InnerChainstore._generateKeys (handed_on x) s = (Return g, s))
    by (intros s; rewrite generateKeys_handed_on; apply Hg).
  assert (Hentry : RefPool.entry (InnerChainstore.cache this)
                     (KStr (encode (GeneratedKeys.discoveryKey g))) = None).
  { rewrite Hdk. unfold cached_at in Hmiss.
    destruct (RefPool.entry _ _); [discriminate | reflexivity]. }
  destruct (get_miss_state (handed_on x) this this g Hopen (Hgh this) Hentry)
    as (s1 & Hget & Hcache1 & Hchains1 & Halloc1 & Hopen1 & _).
  cbv zeta in Hget, Hcache1, Hchains1. rewrite Hdk in Hcache1, Hchains1.
  set (first := new_chain g (InnerChainstore.allocated this)) in *.
  assert (Hres : resolves_to x this (encode (discoveryKey k)))
    by (exists g, this; rewrite Hg, Hdk; auto).
  pose proof (view_get_eq V x this s1 first Hget) as Hview.
  assert (Hfirst : exists V1 s1',
            Chainstore.get V x this = (Return (first, V1), s1')
            /\ Map_has (Chainstore._openedChains V1) (owned_id first) = true
            /\ InnerChainstore.chains s1' = InnerChainstore.chains s1
            /\ InnerChainstore.allocated s1' = InnerChainstore.allocated s1
            /\ InnerChainstore.opened s1' = true
            /\ unique_keys (RefPool.entries (InnerChainstore.cache s1')) = true).
  { assert (Hu1 : unique_keys (RefPool.entries (InnerChainstore.cache s1)) = true)
      by (rewrite Hcache1; apply unique_pool_set; exact Hunique).
    destruct (Map_has (Chainstore._openedChains V) (owned_id first)) eqn:Howned.
    - exists V, s1. auto 10.
    - do 2 eexists. split; [exact Hview |]. simpl.
      split; [unfold Map_has; rewrite Map_get_set, owned_id_same; reflexivity |].
      repeat split; [exact Hopen1 |]. apply unique_pool_adjust. exact Hu1. }
  destruct Hfirst as (V1 & s1' & Hget1 & Howned1 & Hchains1' & Halloc1' & Hopen1' & Hunique1').
  exists first, V1, s1'. split; [exact Hget1 |]. split; [exact Howned1 |].
  assert (Hfind : InnerChainstore.find_chain (InnerChainstore.allocated this) s1'
                  = Some {| cs_chain := first;
                            cs_id := encode (discoveryKey k); cs_chainOpts := handed_on x;
                            ifAvailable := 1; errored := false;
                            on_error := true; on_ready := true; on_close := true |}).
  { apply (find_chain_last this s1' _ Hbelow); [| reflexivity].
    rewrite Hchains1'. exact Hchains1. }
  intros s2 Hs2.
  assert (Hs2' : InnerChainstore.cache s2
                 = RefPool.delete (InnerChainstore.cache s1') (KStr (encode (discoveryKey k)))
                 /\ InnerChainstore.opened s2 = true
                 /\ InnerChainstore.allocated s2 = S (InnerChainstore.allocated this)).
  { destruct Hs2 as [-> | ->]; simpl chain_uid.
    - destruct (error_fields _ err s1' _ Hfind eq_refl) as (_ & Hc & Ho & Ha & _).
      cbv zeta in Hc, Ho, Ha. simpl in Hc. rewrite Hc, Ho, Ha. split; [reflexivity |].
      split; [exact Hopen1' | congruence].
    - destruct (close_fields _ s1' _ Hfind eq_refl) as (Hc & Ho & Ha & _).
      cbv zeta in Hc, Ho, Ha. simpl in Hc. rewrite Hc, Ho, Ha. split; [reflexivity |].
      split; [exact Hopen1' | congruence]. }
  destruct Hs2' as (Hcache2 & Hopen2 & Halloc2).
  pose proof (cached_after_delete s1' s2 _ Hunique1' Hcache2) as Hgone.
  rewrite <- Hdk in Hgone.
  destruct (get_miss_state (handed_on x) s2 s2 g Hopen2 (Hgh s2) Hgone)
    as (s3 & Hget2 & Hcache3 & _).
  cbv zeta in Hget2, Hcache3.
  set (second := new_chain g (InnerChainstore.allocated s2)) in *.
  exists second, s3.
  assert (Hsame : owned_id second = owned_id first) by reflexivity.
  rewrite (view_get_eq V1 x s2 s3 second Hget2), Hsame, Howned1.
  split; [reflexivity |]. split; [subst second first; simpl; lia |].
  unfold cached_at, refs_of. rewrite Hcache3, Hdk.
  destruct (pool_set_entry Chain (InnerChainstore.cache s2) (encode (discoveryKey k))
              second) as (e & -> & Hv & Hr).
  simpl. rewrite Hv, Hr. split; reflexivity.
Qed.
End References.

(** ** The chain [get] builds *)

Section NewChains.
Context {collaborators : Collaborators}.

Lemma key_path_of_root (d : string) :
  key_path d = (join_slash [slice d 0 2; slice d 2 4; d] ++ "/" ++ "key")%string.
Proof.
  unfold key_path, join_slash. cbn [String.concat].
  rewrite !append_assoc. reflexivity.
Qed.

(** X15.  On a miss [get] builds the chain with the public key the
    resolver found, creating it on disk exactly when there is one, under
    the storage root [d[0:2]/d[2:4]/d] of its id [d]; the file
    [_checkIfExists] reads for that id is the [key] file under this
    root. *)
Theorem new_chain_shape (chainOpts : GetArg) (this this1 : InnerChainstore.t)
    (g : GeneratedKeys.t) :
  InnerChainstore.opened this = true ->
  InnerChainstore._generateKeys chainOpts this = (Return g, this1) ->
  cached_at this (KStr (encode (GeneratedKeys.discoveryKey g))) = None ->
  exists chain s',
    InnerChainstore.get chainOpts this = (Return chain, s')
    /\ chain_key chain = GeneratedKeys.publicKey g
    /\ (createIfMissing chain = true <-> GeneratedKeys.publicKey g <> None)
    /\ key_path (encode (GeneratedKeys.discoveryKey g))
       = (storageRoot chain ++ "/" ++ "key")%string.
Proof.
  intros Hopen Hkeys Hmiss.
  destruct (generateKeys_fields chainOpts this this1 _ Hkeys) as (Hcache & _).
  assert (Hentry : RefPool.entry (InnerChainstore.cache this1)
                     (KStr (encode (GeneratedKeys.discoveryKey g))) = None).
  { rewrite Hcache. unfold cached_at in Hmiss.
    destruct (RefPool.entry _ _); [discriminate | reflexivity]. }
  destruct (get_miss_state chainOpts this this1 g Hopen Hkeys Hentry)
    as (s' & Hget & _).
  cbv zeta in Hget. do 2 eexists.
  split; [exact Hget |]. split; [reflexivity |]. split; [| apply key_path_of_root].
  simpl. destruct (GeneratedKeys.publicKey g); simpl; split; congruence.
Qed.
End NewChains.

Section Passive.
Context {collaborators : Collaborators}.

(** X16.  The shape of the first call decides the chain: when the chain
    of key [k] is not cached and [get] is first called with its
    discovery key alone, as [replicate] does for a peer's request, the
    chain is built without a public key and without creating it on disk;
    a later [get] with any equivalent shape, the key itself included,
    returns that same handle. *)
Theorem first_shape_decides (this : InnerChainstore.t) (k sk : Buffer) (y : GetArg) :
  InnerChainstore.opened this = true ->
  cached_at this (KStr (encode (discoveryKey k))) = None ->
  In y (equivalent_key_material k sk) ->
  exists chain s1 s2,
    InnerChainstore.get
      (ArgObj (ReplicationStream.by_discoveryKey (Buf (discoveryKey k)))) this
    = (Return chain, s1)
    /\ chain_key chain = None
    /\ createIfMissing chain = false
    /\ InnerChainstore.get y s1 = (Return chain, s2).
Proof.
  intros Hopen Hmiss Hy.
  set (x := ArgObj (ReplicationStream.by_discoveryKey (Buf (discoveryKey k)))).
  assert (Hkeys : InnerChainstore._generateKeys x this
                  = (Return {| GeneratedKeys.name := None;
                               GeneratedKeys.publicKey := None;
                               GeneratedKeys.secretKey := None;
                               GeneratedKeys.discoveryKey := discoveryKey k |}, this))
    by reflexivity.
  assert (Hentry : RefPool.entry (InnerChainstore.cache this)
                     (KStr (encode (discoveryKey k))) = None).
  { unfold cached_at in Hmiss. destruct (RefPool.entry _ _); [discriminate | reflexivity]. }
  destruct (get_miss_state x this this _ Hopen Hkeys Hentry)
    as (s1 & Hget & Hcache1 & _ & _ & Hopen1 & _).
  cbv zeta in Hget, Hcache1. simpl GeneratedKeys.discoveryKey in Hcache1.
  assert (Hcached : cached_at s1 (KStr (encode (discoveryKey k)))
                    = Some (new_chain
                              {| GeneratedKeys.name := None;
                                 GeneratedKeys.publicKey := None;
                                 GeneratedKeys.secretKey := None;
                                 GeneratedKeys.discoveryKey := discoveryKey k |}
                              (InnerChainstore.allocated this))).
  { unfold cached_at. rewrite Hcache1.
    destruct (pool_set_entry Chain (InnerChainstore.cache this) (encode (discoveryKey k))
                (new_chain
                   {| GeneratedKeys.name := None;
                      GeneratedKeys.publicKey := None;
                      GeneratedKeys.secretKey := None;
                      GeneratedKeys.discoveryKey := discoveryKey k |}
                   (InnerChainstore.allocated this))) as (e & -> & Hv & _).
    simpl. rewrite Hv. reflexivity. }
  destruct (get_again y s1 _ _ Hopen1 (resolves_equivalent k sk y s1 Hy) Hcached)
    as (s2 & Hget2 & _).
  do 3 eexists. split; [exact Hget |]. repeat split. exact Hget2.
Qed.
End Passive.

(** ** More on namespaces and views *)

Section Namespaces2.
Context {collaborators : Collaborators}.

Lemma append_inj_l (x y z : string) : (x ++ y = x ++ z)%string -> y = z.
Proof.
  induction x as [| c x IH]; simpl; [exact (fun H => H) |].
  intros [= H]. apply IH. exact H.
Qed.

(** X17.  The view [namespace] returns for a non-empty name: it has
    the view it was made from as its parent, is namespaced, owns no
    chain, and is named by the name given, behind the name of the parent
    and [":"] when the parent is namespaced itself; children of one view
    with different names carry different names; and a non-empty [Buffer]
    names the child as its hexadecimal string does. *)
Theorem namespace_children (V : Chainstore.t) (a b : string) (raw : Buffer)
    (s : InnerChainstore.t) :
  a <> "" ->
  b <> "" ->
  a <> b ->
  raw <> [] ->
  exists Va Vb,
    fst (Chainstore.namespace V (Str a) s) = Return Va
    /\ fst (Chainstore.namespace V (Str b) s) = Return Vb
    /\ Chainstore._parent Va = Some V
    /\ Chainstore._isNamespaced Va = true
    /\ Chainstore.list Va = []
    /\ Chainstore.name Va
       = (if Chainstore._isNamespaced V then Chainstore.name V ++ ":" ++ a else a)%string
    /\ Chainstore.name Va <> Chainstore.name Vb
    /\ fst (Chainstore.namespace V (Buf raw) s)
       = fst (Chainstore.namespace V (Str (toString_hex raw)) s).
Proof.
  intros Ha Hb Hab Hraw.
  destruct (constructor_named (child_name V a) (Some V) (child_name_nonempty V a Ha))
    as [HnameA HnsA].
  destruct (constructor_named (child_name V b) (Some V) (child_name_nonempty V b Hb))
    as [HnameB _].
  do 2 eexists.
  split; [rewrite (namespace_named V a s Ha); reflexivity |].
  split; [rewrite (namespace_named V b s Hb); reflexivity |].
  split; [reflexivity |]. split; [exact HnsA |]. split; [reflexivity |].
  split; [exact HnameA |].
  split.
  - rewrite HnameA, HnameB. unfold child_name.
    destruct (Chainstore._isNamespaced V); [| exact Hab].
    intros Heq. apply append_inj_l in Heq. injection Heq as Heq. contradiction.
  - apply toString_hex_nonempty, String.eqb_neq in Hraw.
    unfold Chainstore.namespace, InnerChainstore.bind. simpl. rewrite Hraw. reflexivity.
Qed.

(** X18.  The root view is named ["default"] without being namespaced,
    so its child [namespace("default")] carries the same name: in an
    opened store, [default()] on the root and [default()] on that child
    return the identical chain. *)
Theorem namespace_default_collides (s : InnerChainstore.t) :
  InnerChainstore.opened s = true ->
  let root := Chainstore.constructor "" None in
  exists child chain root1 s1 child1 s2,
    Chainstore.namespace root (Str "default") s = (Return child, s)
    /\ Chainstore.name child = Chainstore.name root
    /\ Chainstore.default root ArgUndefined s = (Return (chain, root1), s1)
    /\ Chainstore.default child ArgUndefined s1 = (Return (chain, child1), s2).
Proof.
  intros Hopen root.
  exists (Chainstore.constructor "default" (Some root)).
  assert (Hname : "default" <> "") by discriminate.
  destruct (resolves_name "default" s Hname) as (id & Hres).
  set (opts := ArgObj (Chainstore.with_name ArgUndefined "default")) in *.
  destruct (view_get_returns root opts s id Hopen (Hres s eq_refl))
    as (chain & root1 & s1 & Hget & Hmaster).
  destruct (view_get_first _ _ _ _ _ _ _ Hopen (Hres s eq_refl) Hget)
    as (Hcached & _ & Hopen1 & _).
  destruct (view_get_cached (Chainstore.constructor "default" (Some root))
              opts s1 id chain Hopen1 Hcached (Hres s1 Hmaster))
    as (child1 & s2 & Hget2).
  exists chain, root1, s1, child1, s2.
  split; [reflexivity |]. split; [reflexivity |].
  split; [exact Hget | exact Hget2].
Qed.

(** X19.  [default] with a key is [get] with that key: the name of the
    view is passed along but the key decides, so in an opened store
    [default(k)] through any view returns the chain cached at the id of
    [H(k)], the one [get(k)] returns next. *)
Theorem default_with_key (V W : Chainstore.t) (k : Buffer) (s : InnerChainstore.t) :
  InnerChainstore.opened s = true ->
  exists chain V1 s1 W1 s2,
    Chainstore.default V (ArgBuf k) s = (Return (chain, V1), s1)
    /\ cached_at s1 (KStr (encode (discoveryKey k))) = Some chain
    /\ Chainstore.get W (ArgBuf k) s1 = (Return (chain, W1), s2).
Proof.
  intros Hopen.
  set (opts := ArgObj (Chainstore.with_name (ArgObj (Chainstore.key_only k))
                         (Chainstore.name V))).
  assert (Hres : forall s', resolves_to opts s' (encode (discoveryKey k)))
    by (intros s'; do 2 eexists; split; reflexivity).
  assert (Hres' : forall s', resolves_to (ArgBuf k) s' (encode (discoveryKey k)))
    by (intros s'; do 2 eexists; split; reflexivity).
  destruct (view_get_returns V opts s _ Hopen (Hres s))
    as (chain & V1 & s1 & Hget & _).
  destruct (view_get_first _ _ _ _ _ _ _ Hopen (Hres s) Hget)
    as (Hcached & _ & Hopen1 & _).
  destruct (view_get_cached W (ArgBuf k) s1 _ chain Hopen1 Hcached (Hres' s1))
    as (W1 & s2 & Hget2).
  exists chain, V1, s1, W1, s2. split; [exact Hget |]. split; [exact Hcached | exact Hget2].
Qed.

Lemma view_get_returned (V V1 : Chainstore.t) (chainOpts : GetArg)
    (s s1 : InnerChainstore.t) (chain : Chain) :
  Chainstore.get V chainOpts s = (Return (chain, V1), s1) ->
  exists s0, InnerChainstore.get (handed_on chainOpts) s = (Return chain, s0).
Proof.
  intros Hget.
  destruct (InnerChainstore.get (handed_on chainOpts) s) as [[c | e] s0] eqn:Hinner.
  - rewrite (view_get_eq V chainOpts s s0 c Hinner) in Hget.
    destruct (Map_has _ _); injection Hget as <- _ _; eauto.
  - unfold Chainstore.get in Hget.
    change (match chainOpts with
            | ArgBuf b => ArgObj (Chainstore.key_only b)
            | _ => chainOpts
            end) with (handed_on chainOpts) in Hget.
    unfold InnerChainstore.bind at 1 in Hget. rewrite Hinner in Hget. discriminate.
Qed.

(** X20.  The owned map of a view only grows: whatever [get] through
    the view returns, the chain is then listed under its id, and every
    chain listed before is still listed under the same id. *)
Theorem list_only_grows (V V1 : Chainstore.t) (chainOpts : GetArg)
    (s s1 : InnerChainstore.t) (chain : Chain) :
  Chainstore.get V chainOpts s = (Return (chain, V1), s1) ->
  Map_has (Chainstore.list V1) (owned_id chain) = true
  /\ forall id listed,
       Map_get (Chainstore.list V) id = Some listed ->
       Map_get (Chainstore.list V1) id = Some listed.
Proof.
  intros Hget. destruct (view_get_returned V V1 chainOpts s s1 chain Hget) as (s0 & Hinner).
  rewrite (view_get_eq V chainOpts s s0 chain Hinner) in Hget.
  unfold Chainstore.list.
  destruct (Map_has (Chainstore._openedChains V) (owned_id chain)) eqn:Howned;
    injection Hget as <- _.
  - split; [exact Howned | auto].
  - simpl. split.
    + unfold Map_has. rewrite Map_get_set, owned_id_same. reflexivity.
    + intros id listed Hid. rewrite Map_get_set.
      destruct (sameValueZero (owned_id chain) id) eqn:Hsame; [| exact Hid].
      unfold Map_has in Howned. rewrite (Map_get_same _ _ _ _ Hsame), Hid in Howned.
      discriminate.
Qed.
End Namespaces2.

(** ** Peer streams *)

Section PeerStreams.
Context {collaborators : Collaborators}.





(** X22.  A peer asking for a chain this store cannot find gets its
    channel closed and nothing else: when the discovery key is not
    cached and reading its [key] file fails, with whatever error,
    [ondiscoverykey] closes the channel of that key on the stream,
    instantiates no chain and leaves the store as it was; and once the
    stream has closed it does not even that. *)
Theorem unknown_discovery_key (mainStream : Stream) (finalOpts : ReplicationOpts)
    (dkey : KeyLike) (d : string) (err : JSError) (this : InnerChainstore.t) :
  InnerChainstore.encodeKey dkey = KStr d ->
  RefPool.has (InnerChainstore.cache this) (KStr d) = false ->
  ra_read (InnerChainstore.storage this (key_path d)) 0 32 = inl err ->
  ReplicationStream.ondiscoverykey mainStream finalOpts false dkey this
  = (Return (ReplicationStream.close_channel dkey), this)
  /\ ReplicationStream.ondiscoverykey mainStream finalOpts true dkey this
     = (Return ReplicationStream.nothing, this).
Proof.
  intros Hd Hmiss Hread. unfold ReplicationStream.ondiscoverykey.
  rewrite (checkIfExists_uncached this dkey d Hd Hmiss), Hread. split; reflexivity.
Qed.

(** X23.  A peer asking for a chain this store has gets it: in an
    opened store, when [_checkIfExists] answers [true] for the discovery
    key and the stream is not closed, [ondiscoverykey] takes the chain
    from [get] by discovery key, so that the cache holds it at that id,
    and asks it to replicate on the stream, not as initiator, with the
    options of the stream. *)
Theorem known_discovery_key (mainStream : Stream) (finalOpts : ReplicationOpts)
    (dk : Buffer) (this : InnerChainstore.t) :
  InnerChainstore.opened this = true ->
  InnerChainstore._checkIfExists (Buf dk) this = Return (cb_ok true) ->
  exists chain s',
    ReplicationStream.ondiscoverykey mainStream finalOpts false (Buf dk) this
    = (Return (ReplicationStream.replicate_chain chain), s')
    /\ cached_at s' (KStr (encode dk)) = Some chain
    /\ InnerChainstore.replicating s'
       = InnerChainstore.replicating this
         ++ [{| rr_isInitiator := false; rr_chain := chain;
                rr_stream := mainStream; rr_opts := finalOpts |}].
Proof.
  intros Hopen Hexists. unfold ReplicationStream.ondiscoverykey. rewrite Hexists. simpl.
  set (x := ArgObj (ReplicationStream.by_discoveryKey (Buf dk))).
  assert (Hkeys : InnerChainstore._generateKeys x this
                  = (Return {| GeneratedKeys.name := None;
                               GeneratedKeys.publicKey := None;
                               GeneratedKeys.secretKey := None;
                               GeneratedKeys.discoveryKey := dk |}, this))
    by reflexivity.
  destruct (get_returns x this this _ Hopen Hkeys)
    as (chain & s1 & Hget & Hcached & _).
  assert (Hrepl : InnerChainstore.replicating s1 = InnerChainstore.replicating this).
  { destruct (RefPool.entry (InnerChainstore.cache this) (KStr (encode dk)))
      as [e |] eqn:Hentry.
    - rewrite (get_hit x this this _ e Hopen Hkeys Hentry) in Hget.
      injection Hget as _ <-. reflexivity.
    - destruct (get_miss_state x this this _ Hopen Hkeys Hentry)
        as (s0 & Hget0 & _ & _ & _ & _ & _ & Hr & _).
      cbv zeta in Hget0. rewrite Hget0 in Hget. injection Hget as _ <-. exact Hr. }
  exists chain. eexists. unfold InnerChainstore.bind. rewrite Hget. simpl.
  split; [reflexivity |]. split; [exact Hcached |]. rewrite Hrepl. reflexivity.
Qed.
End PeerStreams.

Section StreamLife.
Context {collaborators : Collaborators}.

Lemma ready_replicating (uid : nat) (this : InnerChainstore.t) (cs : ChainState) :
  InnerChainstore.find_chain uid this = Some cs ->
  on_ready cs = true ->
  errored cs = false ->
  InnerChainstore.replicating (InnerChainstore.chain_emits_ready uid this)
  = InnerChainstore.replicating this
    ++ map (injection (cs_chain cs)) (InnerChainstore._replicationStreams this)
  /\ InnerChainstore.emitted (InnerChainstore.chain_emits_ready uid this)
     = InnerChainstore.emitted this ++ [emit_feed (cs_chain cs) (cs_chainOpts cs)].
Proof.
  intros Hfind Hready Herrored.
  unfold InnerChainstore.chain_emits_ready. rewrite Hfind, Hready.
  unfold InnerChainstore.onready. rewrite Herrored. simpl.
  destruct (inject_fields (cs_chain cs)
              (InnerChainstore.update_chain (chain_uid (cs_chain cs))
                 (fun s => InnerChainstore.with_listeners s false (on_ready s) (on_close s))
                 (InnerChainstore.emit (emit_feed (cs_chain cs) (cs_chainOpts cs))
                    (InnerChainstore.update_chain uid
                       (fun s => InnerChainstore.with_listeners s (on_error s) false
                                   (on_close s)) this)))) as (_ & He & _ & _ & Hr).
  rewrite Hr, He. split; reflexivity.
Qed.



Lemma StreamState_eqb_refl (st : StreamState) :
  ReplicationStream.StreamState_eqb st st = true.
Proof.
  unfold ReplicationStream.StreamState_eqb, ReplicationStream.ReplicationOpts_eqb.
  rewrite Nat.eqb_refl. destruct (ro_stream (stream_opts st)); simpl;
    rewrite ?Nat.eqb_refl; destruct (ro_live (stream_opts st)); reflexivity.
Qed.

Lemma StreamState_eqb_stream (a b : StreamState) :
  ReplicationStream.StreamState_eqb a b = true -> stream a = stream b.
Proof.
  unfold ReplicationStream.StreamState_eqb. intros H.
  apply andb_true_iff in H. destruct H as [H _]. apply Nat.eqb_eq. exact H.
Qed.

Lemma filter_other_streams (l : list StreamState) (st : StreamState) :
  ~ In (stream st) (map stream l) ->
  filter (fun x => negb (stream x =? stream st)%nat) l = l.
Proof.
  induction l as [| y l IH]; simpl; [reflexivity |].
  intros Hnot. destruct (Nat.eqb_spec (stream y) (stream st)) as [Heq | _].
  - exfalso. apply Hnot. left. exact Heq.
  - simpl. rewrite IH; [reflexivity | intros Hin; apply Hnot; right; exact Hin].
Qed.

Lemma indexOf_In (l : list StreamState) (st : StreamState) :
  In st l -> exists i, ReplicationStream.indexOf l st = Some i.
Proof.
  induction l as [| y l IH]; simpl; [contradiction |].
  intros [-> | Hin].
  - rewrite StreamState_eqb_refl. eauto.
  - destruct (ReplicationStream.StreamState_eqb y st); [eauto |].
    destruct (IH Hin) as (i & ->). eauto.
Qed.

(** With one state per stream, [splice] at [indexOf] takes out the
    state given and keeps the others in their order. *)
Lemma splice_indexOf (l : list StreamState) (st : StreamState) :
  NoDup (map stream l) ->
  In st l ->
  ReplicationStream.splice1 l (ReplicationStream.indexOf l st)
  = filter (fun x => negb (stream x =? stream st)%nat) l.
Proof.
  induction l as [| y l IH]; simpl; [contradiction |].
  intros Hnodup Hin. inversion Hnodup as [| ? ? Hfresh Hrest]; subst.
  destruct Hin as [-> | Hin].
  - rewrite StreamState_eqb_refl, Nat.eqb_refl. simpl.
    rewrite filter_other_streams by exact Hfresh. reflexivity.
  - assert (Hne : stream y <> stream st).
    { intros Heq. apply Hfresh. rewrite Heq. apply in_map. exact Hin. }
    destruct (ReplicationStream.StreamState_eqb y st) eqn:Heqb.
    + apply StreamState_eqb_stream in Heqb. contradiction.
    + destruct (indexOf_In l st Hin) as (i & Hi).
      specialize (IH Hrest Hin). rewrite Hi in *. simpl in *.
      apply Nat.eqb_neq in Hne. rewrite Hne. simpl. rewrite IH. reflexivity.
Qed.

(** X25.  Closing a peer stream unregisters it, once: in a store with
    one state per stream, [onclose] of a registered stream sets [closed]
    and takes exactly that stream out of the list, keeping the others in
    their order; a second [onclose] changes nothing; and a chain that
    becomes ready afterwards is no longer asked to replicate on it. *)
Theorem closed_stream_is_unregistered (st : StreamState) (s : InnerChainstore.t) :
  NoDup (map stream (InnerChainstore._replicationStreams s)) ->
  In st (InnerChainstore._replicationStreams s) ->
  let s' := snd (ReplicationStream.onclose st false s) in
  fst (ReplicationStream.onclose st false s) = true
  /\ InnerChainstore._replicationStreams s'
     = filter (fun x => negb (stream x =? stream st)%nat)
              (InnerChainstore._replicationStreams s)
  /\ ReplicationStream.onclose st true s' = (true, s')
  /\ forall uid cs,
       InnerChainstore.find_chain uid s' = Some cs ->
       on_ready cs = true ->
       errored cs = false ->
       forall r,
         In r (injected_by s' (InnerChainstore.chain_emits_ready uid s')) ->
         rr_stream r <> stream st.
Proof.
  intros Hnodup Hin s'.
  assert (Hstreams : InnerChainstore._replicationStreams s'
                     = filter (fun x => negb (stream x =? stream st)%nat)
                              (InnerChainstore._replicationStreams s)).
  { subst s'. simpl. apply splice_indexOf; assumption. }
  split; [reflexivity |]. split; [exact Hstreams |]. split; [reflexivity |].
  intros uid cs Hfind Hready Herrored r Hr.
  destruct (ready_replicating uid s' cs Hfind Hready Herrored) as [Hrepl _].
  rewrite (injected_by_appended s' _ _ Hrepl) in Hr.
  apply in_map_iff in Hr. destruct Hr as (x & <- & Hx).
  rewrite Hstreams in Hx. apply filter_In in Hx. destruct Hx as [_ Hx].
  apply negb_true_iff, Nat.eqb_neq in Hx. exact Hx.
Qed.
End StreamLife.

(** ** The further properties on the sample stores *)

Section FurtherExamples.
#[local] Existing Instance Sample.collaborators.

Lemma sample_well_formed : well_formed Sample.inner.
Proof. split; [vm_compute; reflexivity | vm_compute; constructor]. Defined.

Lemma get_hex_string_deduplicates_witness :
  exists chain this1 this2,
    InnerChainstore.get (ArgBuf Sample.k1) Sample.inner = (Return chain, this1)
    /\ InnerChainstore.get (ArgStr (toString_hex Sample.k1)) this1 = (Return chain, this2).
Proof.
  apply (get_hex_string_deduplicates Sample.inner Sample.k1).
  - vm_compute. reflexivity.
  - discriminate.
Defined.

Lemma generateKeys_consistent_witness :
  let g := {| GeneratedKeys.name := None; GeneratedKeys.publicKey := Some Sample.k1;
              GeneratedKeys.secretKey := None;
              GeneratedKeys.discoveryKey := discoveryKey Sample.k1 |} in
  (forall pk, GeneratedKeys.publicKey g = Some pk ->
              GeneratedKeys.discoveryKey g = discoveryKey pk)
  /\ (GeneratedKeys.publicKey g = None -> GeneratedKeys.secretKey g = None)
  /\ (forall n, GeneratedKeys.name g = Some n ->
                g = derived_keys (InnerChainstore._masterKey Sample.inner) n).
Proof.
  exact (generateKeys_consistent (ArgBuf Sample.k1) Sample.inner Sample.inner _ eq_refl).
Defined.

Lemma named_keys_deterministic_witness :
  exists g,
    InnerChainstore._generateKeys (ArgObj (by_name (Str "a"))) Sample.inner
    = (Return g, Sample.inner)
    /\ InnerChainstore._generateKeys (ArgObj (by_name (Str "a"))) Sample.inner'
       = (Return g, Sample.inner')
    /\ GeneratedKeys.name g = Some (name_bytes (Str "a")).
Proof.
  apply (named_keys_deterministic (by_name (Str "a")) Sample.inner Sample.inner');
    vm_compute; reflexivity.
Defined.

Lemma stored_name_rehydrates_witness :
  InnerChainstore.keyStorage_callback
    (derived_keys (Some [x07]) (Buffer_from "a")) (Some (Buffer_from "a")) Sample.inner'
  = cb_ok (derived_keys (Some [x07]) (Buffer_from "a"))
  /\ GeneratedKeys.secretKey (derived_keys (Some [x07]) (Buffer_from "a")) <> None.
Proof.
  apply (stored_name_rehydrates (ArgObj (by_name (Str "a"))) Sample.inner Sample.inner
           Sample.inner').
  - reflexivity.
  - reflexivity.
  - vm_compute. reflexivity.
Defined.

Lemma stored_name_is_checked_witness :
  exists e,
    InnerChainstore.keyStorage_callback
      (derived_keys (Some [x07]) (Buffer_from "a")) (Some (Buffer_from "b")) Sample.inner
    = cb_err e
    /\ message e = "Stored an incorrect name."
    /\ unknownKeyPair e = false.
Proof.
  apply (proj2 (stored_name_is_checked (derived_keys (Some [x07]) (Buffer_from "a"))
                  (Buffer_from "b") Sample.inner)).
  vm_compute. discriminate.
Defined.

Lemma unnamed_keys_witness :
  exists e,
    InnerChainstore.keyStorage_callback
      {| GeneratedKeys.name := None; GeneratedKeys.publicKey := None;
         GeneratedKeys.secretKey := None;
         GeneratedKeys.discoveryKey := Sample.k1 |} None Sample.inner
    = cb_err e
    /\ unknownKeyPair e = true.
Proof.
  exact (unnamed_keys (ArgObj (ReplicationStream.by_discoveryKey (Buf Sample.k1)))
           Sample.inner Sample.inner Sample.inner _ eq_refl).
Defined.

Lemma get_after_failed_open_witness :
  Chainstore.get Sample.root ArgUndefined Sample.unopened
  = (Throw (Error "Chainstore.ready must be called before get."), Sample.unopened)
  /\ Chainstore.default Sample.root ArgUndefined Sample.unopened
     = (Throw (Error "Chainstore.ready must be called before get."), Sample.unopened).
Proof.
  apply (get_after_failed_open Sample.unopened Sample.unopened Sample.EIO).
  - reflexivity.
  - reflexivity.
Defined.

Lemma open_master_key_witness :
  InnerChainstore.open Sample.unopened = (Some Sample.EIO, Sample.unopened).
Proof.
  apply (proj1 (proj2 (open_master_key Sample.unopened eq_refl) eq_refl) Sample.EIO).
  - reflexivity.
  - discriminate.
Defined.

Lemma isLoaded_only_looks_witness :
  fst (InnerChainstore.isLoaded (ArgBuf Sample.k1) Sample.inner) <> Return true.
Proof.
  apply (proj2 (isLoaded_only_looks (ArgBuf Sample.k1) Sample.inner)).
  vm_compute. reflexivity.
Defined.

Lemma loaded_after_get_witness :
  exists chain this1,
    InnerChainstore.get (ArgBuf Sample.k1) Sample.inner = (Return chain, this1)
    /\ InnerChainstore.isLoaded
         (ArgObj (ReplicationStream.by_discoveryKey (Buf (discoveryKey Sample.k1)))) this1
       = (Return true, this1)
    /\ InnerChainstore._checkIfExists (Buf (discoveryKey Sample.k1)) this1
       = Return (cb_ok true).
Proof.
  apply (loaded_after_get Sample.inner Sample.k1 Sample.sk1).
  - vm_compute. reflexivity.
  - left. reflexivity.
  - right. right. left. reflexivity.
Defined.

Lemma sample_record :
  InnerChainstore.find_chain 0 Sample.streaming = Some Sample.record_a.
Proof. vm_compute. reflexivity. Defined.


Lemma ready_feeds_and_injects_witness :
  InnerChainstore.replicating (InnerChainstore.chain_emits_ready 0 Sample.streaming)
  = InnerChainstore.replicating Sample.streaming
    ++ map (injection Sample.chain_a) (InnerChainstore._replicationStreams Sample.streaming).
Proof.
  exact (proj1 (proj2 (ready_feeds_and_injects 0 Sample.streaming Sample.record_a
                         sample_record eq_refl eq_refl))).
Defined.

Lemma gate_released_once_witness :
  gate_of 0 (InnerChainstore.chain_emits_ready 0
               (InnerChainstore.chain_emits_error 0 Sample.EIO Sample.streaming))
  = Some 0%Z.
Proof.
  exact (proj1 (proj2 (proj2 (proj2
           (gate_released_once 0 Sample.EIO Sample.streaming Sample.record_a
              sample_record eq_refl eq_refl eq_refl))))).
Defined.

Lemma get_after_failure_builds_anew_witness :
  exists first s1,
    InnerChainstore.get (ArgBuf Sample.k1) Sample.inner = (Return first, s1)
    /\ forall s2,
         s2 = InnerChainstore.chain_emits_error (chain_uid first) Sample.EIO s1
         \/ s2 = InnerChainstore.chain_emits_close (chain_uid first) s1 ->
         cached_at s2 (KStr (encode (discoveryKey Sample.k1))) = None
         /\ exists second s3,
              InnerChainstore.get (ArgBuf Sample.k1) s2 = (Return second, s3)
              /\ chain_uid second <> chain_uid first
              /\ cached_at s3 (KStr (encode (discoveryKey Sample.k1))) = Some second.
Proof.
  apply (get_after_failure_builds_anew Sample.inner Sample.k1 Sample.sk1).
  - exact sample_well_formed.
  - vm_compute. reflexivity.
  - left. reflexivity.
  - left. reflexivity.
  - vm_compute. reflexivity.
Defined.

Lemma get_keeps_referenced_witness :
  refs_of (snd (InnerChainstore.get (ArgBuf Sample.k1) Sample.inner')) (KStr Sample.id_a)
  = Some 1%Z
  /\ cached_at (snd (InnerChainstore.get (ArgBuf Sample.k1) Sample.inner'))
       (KStr Sample.id_a) = Some Sample.chain_a.
Proof.
  apply (get_keeps_referenced (ArgBuf Sample.k1) Sample.inner'
           (snd (InnerChainstore.get (ArgBuf Sample.k1) Sample.inner'))
           (new_chain {| GeneratedKeys.name := None;
                         GeneratedKeys.publicKey := Some Sample.k1;
                         GeneratedKeys.secretKey := None;
                         GeneratedKeys.discoveryKey := discoveryKey Sample.k1 |} 1)
           (KStr Sample.id_a)
           {| RefPool.value := Sample.chain_a; RefPool.refs := 1;
              RefPool.lru_position := 0 |}).
  - vm_compute. reflexivity.
  - vm_compute. reflexivity.
  - vm_compute. reflexivity.
  - discriminate.
Defined.

Lemma view_keeps_first_handle_witness :
  exists first V1 s1,
    Chainstore.get Sample.root (ArgBuf Sample.k1) Sample.inner = (Return (first, V1), s1)
    /\ Map_has (Chainstore._openedChains V1) (owned_id first) = true
    /\ forall s2,
         s2 = InnerChainstore.chain_emits_error (chain_uid first) Sample.EIO s1
         \/ s2 = InnerChainstore.chain_emits_close (chain_uid first) s1 ->
         exists second s3,
           Chainstore.get V1 (ArgBuf Sample.k1) s2 = (Return (second, V1), s3)
           /\ chain_uid second <> chain_uid first
           /\ cached_at s3 (KStr (encode (discoveryKey Sample.k1))) = Some second
           /\ refs_of s3 (KStr (encode (discoveryKey Sample.k1))) = Some 0%Z.
Proof.
  apply (view_keeps_first_handle Sample.root Sample.inner Sample.k1 Sample.sk1).
  - exact sample_well_formed.
  - vm_compute. reflexivity.
  - left. reflexivity.
  - vm_compute. reflexivity.
Defined.

Lemma new_chain_shape_witness :
  exists chain s',
    InnerChainstore.get (ArgBuf Sample.k1) Sample.inner = (Return chain, s')
    /\ chain_key chain = Some Sample.k1
    /\ (createIfMissing chain = true <-> Some Sample.k1 <> None)
    /\ key_path (encode (discoveryKey Sample.k1))
       = (storageRoot chain ++ "/" ++ "key")%string.
Proof.
  apply (new_chain_shape (ArgBuf Sample.k1) Sample.inner Sample.inner
           {| GeneratedKeys.name := None; GeneratedKeys.publicKey := Some Sample.k1;
              GeneratedKeys.secretKey := None;
              GeneratedKeys.discoveryKey := discoveryKey Sample.k1 |}).
  - vm_compute. reflexivity.
  - reflexivity.
  - vm_compute. reflexivity.
Defined.

Lemma first_shape_decides_witness :
  exists chain s1 s2,
    InnerChainstore.get
      (ArgObj (ReplicationStream.by_discoveryKey (Buf (discoveryKey Sample.k1))))
      Sample.inner
    = (Return chain, s1)
    /\ chain_key chain = None
    /\ createIfMissing chain = false
    /\ InnerChainstore.get (ArgBuf Sample.k1) s1 = (Return chain, s2).
Proof.
  apply (first_shape_decides Sample.inner Sample.k1 Sample.sk1).
  - vm_compute. reflexivity.
  - vm_compute. reflexivity.
  - left. reflexivity.
Defined.
End FurtherExamples.

Section FurtherExamples2.
#[local] Existing Instance Sample.collaborators.

Lemma namespace_children_witness :
  exists Va Vb,
    fst (Chainstore.namespace Sample.ns_a (Str "x") Sample.inner) = Return Va
    /\ fst (Chainstore.namespace Sample.ns_a (Str "y") Sample.inner) = Return Vb
    /\ Chainstore._parent Va = Some Sample.ns_a
    /\ Chainstore._isNamespaced Va = true
    /\ Chainstore.list Va = []
    /\ Chainstore.name Va = "a:x"%string
    /\ Chainstore.name Va <> Chainstore.name Vb
    /\ fst (Chainstore.namespace Sample.ns_a (Buf Sample.k1) Sample.inner)
       = fst (Chainstore.namespace Sample.ns_a (Str (toString_hex Sample.k1)) Sample.inner).
Proof.
  apply (namespace_children Sample.ns_a "x" "y" Sample.k1 Sample.inner); discriminate.
Defined.

Lemma namespace_default_collides_witness :
  exists child chain root1 s1 child1 s2,
    Chainstore.namespace (Chainstore.constructor "" None) (Str "default") Sample.inner
    = (Return child, Sample.inner)
    /\ Chainstore.name child = Chainstore.name (Chainstore.constructor "" None)
    /\ Chainstore.default (Chainstore.constructor "" None) ArgUndefined Sample.inner
       = (Return (chain, root1), s1)
    /\ Chainstore.default child ArgUndefined s1 = (Return (chain, child1), s2).
Proof.
  apply (namespace_default_collides Sample.inner). vm_compute. reflexivity.
Defined.

Lemma default_with_key_witness :
  exists chain V1 s1 W1 s2,
    Chainstore.default Sample.ns_a (ArgBuf Sample.k1) Sample.inner
    = (Return (chain, V1), s1)
    /\ cached_at s1 (KStr (encode (discoveryKey Sample.k1))) = Some chain
    /\ Chainstore.get Sample.root (ArgBuf Sample.k1) s1 = (Return (chain, W1), s2).
Proof.
  apply (default_with_key Sample.ns_a Sample.root Sample.k1 Sample.inner).
  vm_compute. reflexivity.
Defined.

Lemma sample_default :
  Chainstore.get Sample.ns_a (ArgObj (Chainstore.with_name ArgUndefined "a")) Sample.inner
  = (Return (Sample.chain_a, Sample.ns_a'), Sample.inner').
Proof. vm_compute. reflexivity. Defined.

Lemma list_only_grows_witness :
  Map_has (Chainstore.list Sample.ns_a') (owned_id Sample.chain_a) = true.
Proof.
  exact (proj1 (list_only_grows Sample.ns_a Sample.ns_a' _ Sample.inner Sample.inner'
                  Sample.chain_a sample_default)).
Defined.


Lemma unknown_discovery_key_witness :
  ReplicationStream.ondiscoverykey 1 Sample.live false (Buf Sample.k1) Sample.inner
  = (Return (ReplicationStream.close_channel (Buf Sample.k1)), Sample.inner)
  /\ ReplicationStream.ondiscoverykey 1 Sample.live true (Buf Sample.k1) Sample.inner
     = (Return ReplicationStream.nothing, Sample.inner).
Proof.
  apply (unknown_discovery_key 1 Sample.live (Buf Sample.k1) (encode Sample.k1)
           Sample.ENOENT Sample.inner).
  - reflexivity.
  - vm_compute. reflexivity.
  - reflexivity.
Defined.

Lemma known_discovery_key_witness :
  exists chain s',
    ReplicationStream.ondiscoverykey 1 Sample.live false (Buf Sample.k1) Sample.inner_full
    = (Return (ReplicationStream.replicate_chain chain), s')
    /\ cached_at s' (KStr (encode Sample.k1)) = Some chain
    /\ InnerChainstore.replicating s'
       = InnerChainstore.replicating Sample.inner_full
         ++ [{| rr_isInitiator := false; rr_chain := chain;
                rr_stream := 1; rr_opts := Sample.live |}].
Proof.
  apply (known_discovery_key 1 Sample.live Sample.k1 Sample.inner_full).
  - vm_compute. reflexivity.
  - vm_compute. reflexivity.
Defined.


Lemma closed_stream_is_unregistered_witness :
  InnerChainstore._replicationStreams
    (snd (ReplicationStream.onclose Sample.live_stream false Sample.streaming))
  = [].
Proof.
  exact (proj1 (proj2 (closed_stream_is_unregistered Sample.live_stream Sample.streaming
                         ltac:(vm_compute; repeat constructor; intros [])
                         ltac:(left; reflexivity)))).
Defined.
End FurtherExamples2.

(** ** The invariant is kept *)

Section Kept.
Context {collaborators : Collaborators}.

Lemma constructor_well_formed (storage : string -> RandomAccess) (opts : StoreOpts) :
  well_formed (InnerChainstore.constructor storage opts).
Proof. split; [reflexivity | constructor]. Qed.

Lemma get_well_formed (chainOpts : GetArg) (s s' : InnerChainstore.t) (chain : Chain) :
  well_formed s ->
  InnerChainstore.get chainOpts s = (Return chain, s') ->
  well_formed s'.
Proof.
  intros [Hunique Hbelow] Hget.
  destruct (get_returned chainOpts s s' chain Hget) as (Hopen & g & s0 & Hkeys).
  destruct (generateKeys_fields chainOpts s s0 _ Hkeys)
    as (Hcache & Hchains & Halloc & _).
  destruct (RefPool.entry (InnerChainstore.cache s0)
              (KStr (encode (GeneratedKeys.discoveryKey g)))) as [hit |] eqn:Hentry.
  - rewrite (get_hit chainOpts s s0 g hit Hopen Hkeys Hentry) in Hget.
    injection Hget as _ <-. split; simpl.
    + apply unique_pool_get. rewrite Hcache. exact Hunique.
    + rewrite Hchains, Halloc. exact Hbelow.
  - pose proof (get_miss_state chainOpts s s0 g Hopen Hkeys Hentry) as Hmiss.
    cbv zeta in Hmiss. destruct Hmiss as (s1 & Hget1 & Hcache1 & Hchains1 & Halloc1 & _).
    rewrite Hget1 in Hget. injection Hget as _ <-.
    split.
    + rewrite Hcache1. apply unique_pool_set. exact Hunique.
    + rewrite Hchains1, Halloc1. apply Forall_app. split.
      * eapply Forall_impl; [| exact Hbelow]. simpl. intros cs Hcs. lia.
      * repeat constructor.
Qed.

Lemma view_get_well_formed (V V1 : Chainstore.t) (chainOpts : GetArg)
    (s s1 : InnerChainstore.t) (chain : Chain) :
  well_formed s ->
  Chainstore.get V chainOpts s = (Return (chain, V1), s1) ->
  well_formed s1.
Proof.
  intros Hwf Hget.
  destruct (view_get_returned V V1 chainOpts s s1 chain Hget) as (s0 & Hinner).
  pose proof (get_well_formed _ _ _ _ Hwf Hinner) as [Hunique Hbelow].
  rewrite (view_get_eq V chainOpts s s0 chain Hinner) in Hget.
  destruct (Map_has _ _); injection Hget as _ <-; [split; assumption |].
  split; simpl; [apply unique_pool_adjust; exact Hunique | exact Hbelow].
Qed.

Lemma update_chain_below (uid : nat) (f : ChainState -> ChainState)
    (s : InnerChainstore.t) (n : nat) :
  (forall cs, cs_chain (f cs) = cs_chain cs) ->
  Forall (fun cs => (chain_uid (cs_chain cs) < n)%nat) (InnerChainstore.chains s) ->
  Forall (fun cs => (chain_uid (cs_chain cs) < n)%nat)
         (InnerChainstore.chains (InnerChainstore.update_chain uid f s)).
Proof.
  intros Hf Hbelow. unfold InnerChainstore.update_chain. simpl.
  apply Forall_map. eapply Forall_impl; [| exact Hbelow]. simpl.
  intros cs Hcs. destruct (_ =? _)%nat; [rewrite Hf |]; exact Hcs.
Qed.

Lemma failure_well_formed (uid : nat) (err : JSError) (s : InnerChainstore.t) :
  well_formed s ->
  well_formed (InnerChainstore.chain_emits_error uid err s)
  /\ well_formed (InnerChainstore.chain_emits_close uid s).
Proof.
  intros [Hunique Hbelow]. split.
  - unfold InnerChainstore.chain_emits_error.
    destruct (InnerChainstore.find_chain uid s) as [cs |]; [| split; assumption].
    destruct (on_error cs); [| split; assumption].
    unfold InnerChainstore.onerror.
    assert (Hsame : forall X : InnerChainstore.t, (if unknownKeyPair err then X else X) = X)
      by (intros X; destruct (unknownKeyPair err); reflexivity).
    rewrite Hsame. split.
    + simpl. apply unique_keys_delete. exact Hunique.
    + unfold InnerChainstore.cache_delete.
      change (InnerChainstore.chains (InnerChainstore.set_cache ?c ?x))
        with (InnerChainstore.chains x).
      change (InnerChainstore.allocated (InnerChainstore.set_cache ?c ?x))
        with (InnerChainstore.allocated x).
      apply update_chain_below; [reflexivity |].
      apply update_chain_below; [reflexivity | exact Hbelow].
  - unfold InnerChainstore.chain_emits_close.
    destruct (InnerChainstore.find_chain uid s) as [cs |]; [| split; assumption].
    destruct (on_close cs); [| split; assumption].
    unfold InnerChainstore.onclose, InnerChainstore.cache_delete. split.
    + simpl. apply unique_keys_delete. exact Hunique.
    + change (InnerChainstore.chains (InnerChainstore.set_cache ?c ?x))
        with (InnerChainstore.chains x).
      change (InnerChainstore.allocated (InnerChainstore.set_cache ?c ?x))
        with (InnerChainstore.allocated x).
      apply update_chain_below; [reflexivity | exact Hbelow].
Qed.
End Kept.

(** ** What a view adds to the reference count *)

Section KeyedCache.

Lemma sameValueZero_eq (a b : Key) : sameValueZero a b = true -> a = b.
Proof.
  destruct a, b; simpl; try discriminate; try reflexivity.
  intros H. apply String.eqb_eq in H. subst. reflexivity.
Qed.

Lemma keyed_lookup {collaborators : Collaborators}
    (m : JSMap (RefPool.Entry Chain)) (id : Key) (e : RefPool.Entry Chain) (dk : Buffer) :
  keyed_entries m = true ->
  Map_get m id = Some e ->
  chain_discoveryKey (RefPool.value e) = Some dk ->
  id = KStr (encode dk).
Proof.
  intros Hkeyed Hget Hdk. induction m as [| [k v] m IH]; simpl in *; [discriminate |].
  apply andb_prop in Hkeyed. destruct Hkeyed as [Hhere Hrest].
  destruct (sameValueZero k id) eqn:Hk.
  - injection Hget as ->. rewrite Hdk in Hhere.
    apply sameValueZero_eq in Hk. apply sameValueZero_eq in Hhere. congruence.
  - apply IH; assumption.
Qed.

Lemma keyed_set {collaborators : Collaborators}
    (m : JSMap (RefPool.Entry Chain)) (id : Key) (e : RefPool.Entry Chain) :
  keyed_entries m = true ->
  (forall dk, chain_discoveryKey (RefPool.value e) = Some dk -> id = KStr (encode dk)) ->
  keyed_entries (Map_set m id e) = true.
Proof.
  intros Hkeyed He. induction m as [| [k v] m IH]; simpl in *.
  - destruct (chain_discoveryKey (RefPool.value e)) as [dk |]; [| reflexivity].
    rewrite (He dk eq_refl). simpl. rewrite String.eqb_refl. reflexivity.
  - apply andb_prop in Hkeyed. destruct Hkeyed as [Hhere Hrest].
    destruct (sameValueZero k id) eqn:Hk; simpl.
    + rewrite Hrest, andb_true_r.
      destruct (chain_discoveryKey (RefPool.value e)) as [dk |]; [| reflexivity].
      apply sameValueZero_eq in Hk. rewrite Hk, (He dk eq_refl).
      simpl. apply String.eqb_refl.
    + rewrite Hhere, (IH Hrest). reflexivity.
Qed.

Lemma keyed_delete {collaborators : Collaborators}
    (m : JSMap (RefPool.Entry Chain)) (id : Key) :
  keyed_entries m = true -> keyed_entries (Map_delete m id) = true.
Proof.
  intros Hkeyed. induction m as [| [k v] m IH]; simpl in *; [reflexivity |].
  apply andb_prop in Hkeyed. destruct Hkeyed as [Hhere Hrest].
  destruct (sameValueZero k id); simpl; [exact Hrest |].
  rewrite Hhere, (IH Hrest). reflexivity.
Qed.

Lemma keyed_pool_get {collaborators : Collaborators} (p : RefPool.t Chain) (id : Key) :
  keyed_entries (RefPool.entries p) = true ->
  keyed_entries (RefPool.entries (fst (RefPool.get p id))) = true.
Proof.
  intros Hkeyed. unfold RefPool.get.
  destruct (RefPool.entry p id) as [e |] eqn:He; simpl; [| exact Hkeyed].
  apply keyed_set; [exact Hkeyed |]. simpl. intros dk Hdk.
  exact (keyed_lookup _ id e dk Hkeyed He Hdk).
Qed.

Lemma keyed_pool_adjust {collaborators : Collaborators}
    (p : RefPool.t Chain) (id : Key) (d : Z) :
  keyed_entries (RefPool.entries p) = true ->
  keyed_entries (RefPool.entries (RefPool.adjust p id d)) = true.
Proof.
  intros Hkeyed. unfold RefPool.adjust.
  destruct (RefPool.entry p id) as [e |] eqn:He; simpl; [| exact Hkeyed].
  apply keyed_set; [exact Hkeyed |]. simpl. intros dk Hdk.
  exact (keyed_lookup _ id e dk Hkeyed He Hdk).
Qed.

Lemma keyed_pool_set {collaborators : Collaborators}
    (p : RefPool.t Chain) (id : Key) (v : Chain) :
  keyed_entries (RefPool.entries p) = true ->
  (forall dk, chain_discoveryKey v = Some dk -> id = KStr (encode dk)) ->
  keyed_entries (RefPool.entries (fst (RefPool.set p id v))) = true.
Proof.
  intros Hkeyed Hv. unfold RefPool.set.
  assert (Hset : keyed_entries
                   (Map_set (RefPool.entries p) id
                      {| RefPool.value := v; RefPool.refs := 0;
                         RefPool.lru_position := RefPool.clock p |}) = true)
    by (apply keyed_set; assumption).
  cbv zeta. destruct (_ <? _)%nat; [| exact Hset].
  destruct (RefPool.oldest_unreferenced _ _) as [[k old] |]; [| exact Hset].
  simpl. apply keyed_delete. exact Hset.
Qed.
End KeyedCache.

Section BookedOnce.
Context {collaborators : Collaborators}.

(** What a chain shows as its [discoveryKey] when [unichain] has just
    constructed it: the hash of the public key it was given, and nothing
    when it was given none. *)
Hypothesis unichain_with_key :
  forall pk, unichain_discoveryKey (Some pk) = Some (discoveryKey pk).
Hypothesis unichain_without_key : unichain_discoveryKey None = None.

Lemma new_chain_discoveryKey (g : GeneratedKeys.t) (uid : nat) :
  chain_discoveryKey (new_chain g uid)
  = option_map discoveryKey (GeneratedKeys.publicKey g).
Proof.
  unfold new_chain. simpl.
  destruct (GeneratedKeys.publicKey g) as [pk |]; simpl;
    [apply unichain_with_key | exact unichain_without_key].
Qed.

Lemma constructor_keyed (storage : string -> RandomAccess) (opts : StoreOpts) :
  keyed (InnerChainstore.constructor storage opts).
Proof. reflexivity. Qed.

(** The chain [get] returns shows no discovery key or the one of the id
    it was asked for, and the cache stays keyed. *)
Lemma get_keyed (chainOpts : GetArg) (s s1 : InnerChainstore.t) (id : string)
    (chain : Chain) :
  keyed s ->
  resolves_to chainOpts s id ->
  InnerChainstore.get chainOpts s = (Return chain, s1) ->
  (forall dk, chain_discoveryKey chain = Some dk -> encode dk = id)
  /\ (cached_at s (KStr id) = None ->
      forall g s0,
        InnerChainstore._generateKeys chainOpts s = (Return g, s0) ->
        chain_discoveryKey chain = option_map discoveryKey (GeneratedKeys.publicKey g))
  /\ keyed s1.
Proof.
  intros Hkeyed (g & s0 & Hkeys & Hid) Hget.
  destruct (get_returned chainOpts s s1 chain Hget) as (Hopen & _).
  destruct (generateKeys_fields chainOpts s s0 _ Hkeys) as (Hcache & _).
  destruct (generateKeys_facts chainOpts s s0 g Hkeys) as (Hpk & _).
  destruct (RefPool.entry (InnerChainstore.cache s0)
              (KStr (encode (GeneratedKeys.discoveryKey g)))) as [hit |] eqn:Hentry.
  - rewrite (get_hit chainOpts s s0 g hit Hopen Hkeys Hentry) in Hget.
    injection Hget as <- <-. rewrite Hcache in Hentry.
    split; [| split].
    + intros dk Hdk.
      pose proof (keyed_lookup _ _ hit dk Hkeyed Hentry Hdk) as Heq.
      injection Heq as Heq. rewrite <- Hid. symmetry. exact Heq.
    + unfold cached_at. rewrite <- Hid, Hentry. discriminate.
    + unfold keyed. simpl. apply keyed_pool_get. rewrite Hcache. exact Hkeyed.
  - pose proof (get_miss_state chainOpts s s0 g Hopen Hkeys Hentry) as Hmiss.
    cbv zeta in Hmiss. destruct Hmiss as (s' & Hget' & Hcache' & _).
    rewrite Hget' in Hget. injection Hget as <- <-.
    assert (Hnew : forall dk,
               chain_discoveryKey (new_chain g (InnerChainstore.allocated s)) = Some dk ->
               dk = GeneratedKeys.discoveryKey g).
    { intros dk. rewrite new_chain_discoveryKey.
      destruct (GeneratedKeys.publicKey g) as [pk |]; simpl; [| discriminate].
      intros [= <-]. symmetry. apply Hpk. reflexivity. }
    split; [| split].
    + intros dk Hdk. rewrite (Hnew dk Hdk). exact Hid.
    + intros _ g' s0' Hkeys'. rewrite Hkeys in Hkeys'. injection Hkeys' as <- _.
      apply new_chain_discoveryKey.
    + unfold keyed. rewrite Hcache'. apply keyed_pool_set; [exact Hkeyed |].
      intros dk Hdk. rewrite (Hnew dk Hdk). reflexivity.
Qed.

Lemma view_get_keyed (V V1 : Chainstore.t) (chainOpts : GetArg)
    (s s1 : InnerChainstore.t) (id : string) (chain : Chain) :
  keyed s ->
  resolves_to chainOpts s id ->
  Chainstore.get V chainOpts s = (Return (chain, V1), s1) ->
  keyed s1.
Proof.
  intros Hkeyed Hres Hget.
  destruct (view_get_returned V V1 chainOpts s s1 chain Hget) as (s0 & Hinner).
  destruct (get_keyed _ _ _ _ _ Hkeyed (resolves_handed_on _ _ _ Hres) Hinner)
    as (_ & _ & Hkeyed0).
  rewrite (view_get_eq V chainOpts s s0 chain Hinner) in Hget.
  destruct (Map_has _ _); injection Hget as _ <-; [exact Hkeyed0 |].
  unfold keyed. simpl. apply keyed_pool_adjust. exact Hkeyed0.
Qed.

Lemma failure_keyed (uid : nat) (err : JSError) (s : InnerChainstore.t) :
  keyed s ->
  keyed (InnerChainstore.chain_emits_error uid err s)
  /\ keyed (InnerChainstore.chain_emits_close uid s).
Proof.
  intros Hkeyed. split.
  - destruct (InnerChainstore.find_chain uid s) as [cs |] eqn:Hfind;
      [| unfold InnerChainstore.chain_emits_error; rewrite Hfind; exact Hkeyed].
    destruct (on_error cs) eqn:Hlistener;
      [| unfold InnerChainstore.chain_emits_error; rewrite Hfind, Hlistener;
         exact Hkeyed].
    destruct (error_fields uid err s cs Hfind Hlistener) as (_ & Hcache & _).
    cbv zeta in Hcache. unfold keyed. rewrite Hcache. simpl.
    apply keyed_delete. exact Hkeyed.
  - destruct (InnerChainstore.find_chain uid s) as [cs |] eqn:Hfind;
      [| unfold InnerChainstore.chain_emits_close; rewrite Hfind; exact Hkeyed].
    destruct (on_close cs) eqn:Hlistener;
      [| unfold InnerChainstore.chain_emits_close; rewrite Hfind, Hlistener;
         exact Hkeyed].
    destruct (close_fields uid s cs Hfind Hlistener) as (Hcache & _).
    cbv zeta in Hcache. unfold keyed. rewrite Hcache. simpl.
    apply keyed_delete. exact Hkeyed.
Qed.

End BookedOnce.

Section BookedOnceExamples.
#[local] Existing Instance Sample.collaborators.



End BookedOnceExamples.
